(** * Bandit strategies of [deebo/algos.py]: a shallow embedding

    The nine strategy classes of [src/deebo/algos.py] are embedded as
    state-passing programs.  Python integers are [Z], Python floats are
    idealised as real numbers [R] (exact arithmetic), lists are [list]
    with Python's indexing rules written out (negative indices count
    from the end, anything else out of range raises [IndexError]), and
    a method is a function from the object's state to an [outcome]:
    either it returns a value, or it raises an exception; in both cases
    the state reached so far is kept, because the object has been
    mutated in place.

    Every attribute of an object is taken to hold a list object of its
    own, as is the case after [reset]. *)

From Stdlib Require Import Reals Lra Lia ZArith List.
From stdpp Require Import base list numbers.
Import ListNotations.
Local Open Scope Z_scope.

(* ================================================================== *)
(** ** Outcomes and the state/exception monad *)

Inductive exn : Type :=
| IndexError
| ZeroDivisionError
| ValueError
| TypeError.

Inductive outcome (S A : Type) : Type :=
| Returns (a : A) (s : S)
| Raises (e : exn) (s : S).
Arguments Returns {S A} a s.
Arguments Raises {S A} e s.

Definition M (S A : Type) : Type := S -> outcome S A.

Definition ret {S A : Type} (a : A) : M S A := fun s => Returns a s.

Definition raise {S A : Type} (e : exn) : M S A := fun s => Raises e s.

Definition bind {S A B : Type} (m : M S A) (k : A -> M S B) : M S B :=
  fun s =>
    match m s with
    | Returns a s' => k a s'
    | Raises e s' => Raises e s'
    end.

Declare Scope py_scope.
Delimit Scope py_scope with py.
Notation "x <- m ;; k" := (bind m (fun x => k))
  (at level 20, m at level 99, k at level 200) : py_scope.
Notation "m ;; k" := (bind m (fun _ => k))
  (at level 100, k at level 200, right associativity) : py_scope.
Local Open Scope py_scope.

(** The state an invocation leaves behind, however it ended. *)
Definition final_state {S A : Type} (o : outcome S A) : S :=
  match o with
  | Returns _ s => s
  | Raises _ s => s
  end.

(** An attribute of an object: how to read it and how to rebind it. *)
Record field (S A : Type) : Type := Field {
  fget : S -> A;
  fset : A -> S -> S
}.
Arguments Field {S A} fget fset.
Arguments fget {S A} f s.
Arguments fset {S A} f v s.

(** [self.f] *)
Definition attr {S A : Type} (f : field S A) : M S A :=
  fun s => Returns (fget f s) s.

(** [self.f = v] *)
Definition assign {S A : Type} (f : field S A) (v : A) : M S unit :=
  fun s => Returns tt (fset f v s).

(* ================================================================== *)
(** ** Python lists *)

(** Position addressed by index [i] in a list of length [len]:
    [0 <= i < len] addresses [i], [-len <= i < 0] addresses [len + i],
    everything else is out of range. *)
Definition py_index (len : nat) (i : Z) : option nat :=
  if (0 <=? i) && (i <? Z.of_nat len) then Some (Z.to_nat i)
  else if (- Z.of_nat len <=? i) && (i <? 0) then Some (Z.to_nat (Z.of_nat len + i))
  else None.

(** [l[i]] *)
Definition getitem {S A : Type} (l : list A) (i : Z) : M S A :=
  match py_index (length l) i with
  | Some k =>
      match l !! k with
      | Some v => ret v
      | None => raise IndexError
      end
  | None => raise IndexError
  end.

(** [self.f[i]] *)
Definition load {S A : Type} (f : field S (list A)) (i : Z) : M S A :=
  l <- attr f ;; getitem l i.

(** [self.f[i] = v]: the list held by [f] is updated in place. *)
Definition store {S A : Type} (f : field S (list A)) (i : Z) (v : A) : M S unit :=
  l <- attr f ;;
  match py_index (length l) i with
  | Some k => assign f (<[k:=v]> l)
  | None => raise IndexError
  end.

(** [len(l)] *)
Definition len {A : Type} (l : list A) : Z := Z.of_nat (length l).

(** [range(n)] and [np.arange(n)] *)
Definition range (n : Z) : list Z := seqZ 0 n.

(** [[body(x) for x in l]] *)
Fixpoint comprehension {S A B : Type} (body : A -> M S B) (l : list A) : M S (list B) :=
  match l with
  | [] => ret []
  | x :: l' => y <- body x ;; ys <- comprehension body l' ;; ret (y :: ys)
  end.

(** [for x in l: body(x)] *)
Fixpoint for_each {S A : Type} (l : list A) (body : A -> M S unit) : M S unit :=
  match l with
  | [] => ret tt
  | x :: l' => body x ;; for_each l' body
  end.

(** [sum(l)] and [np.sum(l)] over integers and over floats. *)
Definition sumZ (l : list Z) : Z := foldr Z.add 0 l.
Definition sumR (l : list R) : R := foldr Rplus 0%R l.

(** [zip(l1, l2)] followed by [e + b] on each pair. *)
Definition zip_add (l1 l2 : list R) : list R := zip_with Rplus l1 l2.

(* ================================================================== *)
(** ** Arithmetic and library functions *)

(** The constant [1e-7]. *)
Definition eps0 : R := (1 / 10000000)%R.

(** [a / b] on floats. *)
Definition truediv {S : Type} (a b : R) : M S R :=
  if Req_dec_T b 0 then raise ZeroDivisionError else ret (a / b)%R.

(** [math.log(x)] *)
Definition math_log {S : Type} (x : R) : M S R :=
  if Rle_dec x 0 then raise ValueError else ret (ln x).

(** [math.sqrt(x)] *)
Definition math_sqrt {S : Type} (x : R) : M S R :=
  if Rlt_dec x 0 then raise ValueError else ret (sqrt x).

(** [math.exp(x)], over the reals, where it is total.  On doubles
    [math.exp] raises [OverflowError] once the result exceeds the
    largest double (arguments above about 709.78) and gives [0.0] once
    it falls below the smallest (arguments below about -745.13); the
    embedding does not describe such calls.  The statements on the
    selection weights and on the driver's loop confine themselves to
    arguments in range, see [exp_safe]. *)
Definition math_exp (x : R) : R := exp x.

(** [np.argmax(l)]: the first position holding the maximum. *)
Fixpoint argmax_from (best : nat) (best_val : R) (i : nat) (l : list R) : nat :=
  match l with
  | [] => best
  | x :: l' =>
      if Rlt_dec best_val x then argmax_from i x (Datatypes.S i) l'
      else argmax_from best best_val (Datatypes.S i) l'
  end.

Definition np_argmax {S : Type} (l : list R) : M S Z :=
  match l with
  | [] => raise ValueError
  | x :: l' => ret (Z.of_nat (argmax_from 0 x 1 l'))
  end.

(** What the process-wide generator hands out during one call:
    [draw_random] is the float in [[0,1)] returned by [random.random()],
    [draw_int] the integer from which [randrange] takes its result. *)
Record draws : Type := Draws {
  draw_random : R;
  draw_int : Z
}.

(** [random.randrange(n)] *)
Definition randrange {S : Type} (d : draws) (n : Z) : M S Z :=
  if n <=? 0 then raise ValueError else ret (draw_int d mod n).

(** [itertools.accumulate(weights)] *)
Fixpoint accumulate_from (acc : R) (l : list R) : list R :=
  match l with
  | [] => []
  | w :: l' => (acc + w)%R :: accumulate_from (acc + w)%R l'
  end.

(** [bisect.bisect(a, x, lo, hi)] on the positions [lo .. hi-1] of [a]. *)
Fixpoint bisect_from (a : list R) (x : R) (lo : nat) (width : nat) : nat :=
  match width with
  | O => lo
  | Datatypes.S w =>
      match a !! lo with
      | Some v => if Rlt_dec x v then lo else bisect_from a x (Datatypes.S lo) w
      | None => lo
      end
  end.

(** [random.choices(population, weights=weights, k=1)[0]] *)
Definition random_choices {S A : Type} (d : draws) (population : list A) (weights : list R) : M S A :=
  let cum_weights := accumulate_from 0 weights in
  if negb (length cum_weights =? length population)%nat then raise ValueError
  else
    total <- getitem cum_weights (-1) ;;
    if Rle_dec total 0 then raise ValueError
    else
      getitem population
        (Z.of_nat (bisect_from cum_weights (draw_random d * total)%R 0 (length population - 1))).

(* ================================================================== *)
(** ** The running-mean block

    Every [update] method starts with the same five statements:
<<
    self.counts[chosen_arm] = self.counts[chosen_arm] + 1
    n = self.counts[chosen_arm]
    value = self.emp_means[chosen_arm]
    new_value = ((n - 1) / float(n)) * value + (1 / float(n)) * reward
    self.emp_means[chosen_arm] = new_value
>>
    They are embedded once, over the two attributes they touch, and
    give back the old and the new mean (UCB1Tuned uses both). *)
Definition update_mean {S : Type} (counts : field S (list Z)) (emp_means : field S (list R))
    (chosen_arm : Z) (reward : R) : M S (R * R) :=
  c <- load counts chosen_arm ;;
  store counts chosen_arm (c + 1) ;;
  n <- load counts chosen_arm ;;
  value <- load emp_means chosen_arm ;;
  w_old <- truediv (IZR (n - 1)) (IZR n) ;;
  w_new <- truediv 1 (IZR n) ;;
  let new_value := (w_old * value + w_new * reward)%R in
  store emp_means chosen_arm new_value ;;
  ret (value, new_value).

(* ================================================================== *)
(** ** class Random *)

Module Random.

Record t : Type := mk { counts : list Z; emp_means : list R }.

Definition f_counts : field t (list Z) :=
  Field counts (fun v s => mk v (emp_means s)).
Definition f_emp_means : field t (list R) :=
  Field emp_means (fun v s => mk (counts s) v).

Definition reset (n_arms : Z) : M t unit :=
  assign f_counts ((fun _ => 0) <$> range n_arms) ;;
  assign f_emp_means ((fun _ => 0%R) <$> range n_arms).

Definition select_next_arm (d : draws) : M t Z :=
  means <- attr f_emp_means ;;
  randrange d (len means).

Definition update (chosen_arm : Z) (reward : R) : M t unit :=
  update_mean f_counts f_emp_means chosen_arm reward ;; ret tt.

End Random.

(* ================================================================== *)
(** ** class EpsilonGreedy *)

Module EpsilonGreedy.

Record t : Type := mk { epsilon : R; counts : list Z; emp_means : list R }.

Definition f_epsilon : field t R :=
  Field epsilon (fun v s => mk v (counts s) (emp_means s)).
Definition f_counts : field t (list Z) :=
  Field counts (fun v s => mk (epsilon s) v (emp_means s)).
Definition f_emp_means : field t (list R) :=
  Field emp_means (fun v s => mk (epsilon s) (counts s) v).

Definition reset (n_arms : Z) : M t unit :=
  assign f_counts ((fun _ => 0) <$> range n_arms) ;;
  assign f_emp_means ((fun _ => 0%R) <$> range n_arms).

Definition select_next_arm (d : draws) : M t Z :=
  eps <- attr f_epsilon ;;
  if Rgt_dec (draw_random d) eps then
    means <- attr f_emp_means ;;
    np_argmax means
  else
    means <- attr f_emp_means ;;
    randrange d (len means).

Definition update (chosen_arm : Z) (reward : R) : M t unit :=
  update_mean f_counts f_emp_means chosen_arm reward ;; ret tt.

End EpsilonGreedy.

(* ================================================================== *)
(** ** The annealing schedule

    [t = np.sum(self.counts) + 1] followed by [1/math.log(t + 1e-7)],
    as both annealing classes compute it at selection time. *)
Definition annealed {S : Type} (counts : field S (list Z)) : M S R :=
  cs <- attr counts ;;
  let t := sumZ cs + 1 in
  l <- math_log (IZR t + eps0)%R ;;
  truediv 1 l.

(* ================================================================== *)
(** ** class AnnealingEpsilonGreedy *)

Module AnnealingEpsilonGreedy.

Record t : Type := mk { counts : list Z; emp_means : list R }.

Definition f_counts : field t (list Z) :=
  Field counts (fun v s => mk v (emp_means s)).
Definition f_emp_means : field t (list R) :=
  Field emp_means (fun v s => mk (counts s) v).

Definition reset (n_arms : Z) : M t unit :=
  assign f_counts ((fun _ => 0) <$> range n_arms) ;;
  assign f_emp_means ((fun _ => 0%R) <$> range n_arms).

Definition select_next_arm (d : draws) : M t Z :=
  epsilon <- annealed f_counts ;;
  if Rgt_dec (draw_random d) epsilon then
    means <- attr f_emp_means ;;
    np_argmax means
  else
    means <- attr f_emp_means ;;
    randrange d (len means).

Definition update (chosen_arm : Z) (reward : R) : M t unit :=
  update_mean f_counts f_emp_means chosen_arm reward ;; ret tt.

End AnnealingEpsilonGreedy.

(* ================================================================== *)
(** ** Softmax weights

    [z = sum([math.exp(v / tau) for v in emp_means])] and
    [probs = [math.exp(v / tau) / z for v in emp_means]], as both
    Boltzmann classes compute them. *)
Definition softmax_probs {S : Type} (tau : R) (means : list R) : M S (list R) :=
  es <- comprehension (fun v => q <- truediv v tau ;; ret (math_exp q)) means ;;
  let z := sumR es in
  comprehension (fun v => q <- truediv v tau ;; truediv (math_exp q) z) means.

(* ================================================================== *)
(** ** class Boltzmann *)

Module Boltzmann.

Record t : Type := mk { tau : R; counts : list Z; emp_means : list R }.

Definition f_tau : field t R :=
  Field tau (fun v s => mk v (counts s) (emp_means s)).
Definition f_counts : field t (list Z) :=
  Field counts (fun v s => mk (tau s) v (emp_means s)).
Definition f_emp_means : field t (list R) :=
  Field emp_means (fun v s => mk (tau s) (counts s) v).

Definition reset (n_arms : Z) : M t unit :=
  assign f_counts ((fun _ => 0) <$> range n_arms) ;;
  assign f_emp_means ((fun _ => 0%R) <$> range n_arms).

Definition select_next_arm (d : draws) : M t Z :=
  tau <- attr f_tau ;;
  means <- attr f_emp_means ;;
  probs <- softmax_probs tau means ;;
  means <- attr f_emp_means ;;
  random_choices d (range (len means)) probs.

Definition update (chosen_arm : Z) (reward : R) : M t unit :=
  update_mean f_counts f_emp_means chosen_arm reward ;; ret tt.

End Boltzmann.

(* ================================================================== *)
(** ** class AnnealingBoltzmann *)

Module AnnealingBoltzmann.

Record t : Type := mk { counts : list Z; emp_means : list R }.

Definition f_counts : field t (list Z) :=
  Field counts (fun v s => mk v (emp_means s)).
Definition f_emp_means : field t (list R) :=
  Field emp_means (fun v s => mk (counts s) v).

Definition reset (n_arms : Z) : M t unit :=
  assign f_counts ((fun _ => 0) <$> range n_arms) ;;
  assign f_emp_means ((fun _ => 0%R) <$> range n_arms).

Definition select_next_arm (d : draws) : M t Z :=
  tau <- annealed f_counts ;;
  means <- attr f_emp_means ;;
  probs <- softmax_probs tau means ;;
  means <- attr f_emp_means ;;
  random_choices d (range (len means)) probs.

Definition update (chosen_arm : Z) (reward : R) : M t unit :=
  update_mean f_counts f_emp_means chosen_arm reward ;; ret tt.

End AnnealingBoltzmann.

(* ================================================================== *)
(** ** class Pursuit *)

Module Pursuit.

Record t : Type := mk { lr : R; counts : list Z; emp_means : list R; probs : list R }.

Definition f_lr : field t R :=
  Field lr (fun v s => mk v (counts s) (emp_means s) (probs s)).
Definition f_counts : field t (list Z) :=
  Field counts (fun v s => mk (lr s) v (emp_means s) (probs s)).
Definition f_emp_means : field t (list R) :=
  Field emp_means (fun v s => mk (lr s) (counts s) v (probs s)).
Definition f_probs : field t (list R) :=
  Field probs (fun v s => mk (lr s) (counts s) (emp_means s) v).

Definition reset (n_arms : Z) : M t unit :=
  assign f_counts ((fun _ => 0) <$> range n_arms) ;;
  assign f_emp_means ((fun _ => 0%R) <$> range n_arms) ;;
  ps <- comprehension (fun _ => truediv 1 (IZR n_arms)) (range n_arms) ;;
  assign f_probs ps.

Definition select_next_arm (d : draws) : M t Z :=
  means <- attr f_emp_means ;;
  ps <- attr f_probs ;;
  random_choices d (range (len means)) ps.

(** The body of [for ii in range(len(self.counts))]. *)
Definition nudge (ii : Z) : M t unit :=
  current_prob <- load f_probs ii ;;
  means <- attr f_emp_means ;;
  best <- np_argmax means ;;
  lr <- attr f_lr ;;
  if ii =? best then
    store f_probs ii (current_prob + lr * (1 - current_prob))%R
  else
    store f_probs ii (current_prob + lr * (0 - current_prob))%R.

Definition update (chosen_arm : Z) (reward : R) : M t unit :=
  update_mean f_counts f_emp_means chosen_arm reward ;;
  means <- attr f_emp_means ;;
  if Req_dec_T (sumR means) 0 then ret tt
  else
    cs <- attr f_counts ;;
    for_each (range (len cs)) nudge.

End Pursuit.

(* ================================================================== *)
(** ** class ReinforcementComparison

    The [print(self.preferences)] in [update] writes to standard output
    and touches nothing of the object; it is left out. *)

Module ReinforcementComparison.

Record t : Type := mk {
  alpha : R;
  beta : R;
  counts : list Z;
  emp_means : list R;
  preferences : list R;
  exp_rewards : list R;
  probs : list R
}.

Definition f_alpha : field t R :=
  Field alpha (fun v s => mk v (beta s) (counts s) (emp_means s) (preferences s) (exp_rewards s) (probs s)).
Definition f_beta : field t R :=
  Field beta (fun v s => mk (alpha s) v (counts s) (emp_means s) (preferences s) (exp_rewards s) (probs s)).
Definition f_counts : field t (list Z) :=
  Field counts (fun v s => mk (alpha s) (beta s) v (emp_means s) (preferences s) (exp_rewards s) (probs s)).
Definition f_emp_means : field t (list R) :=
  Field emp_means (fun v s => mk (alpha s) (beta s) (counts s) v (preferences s) (exp_rewards s) (probs s)).
Definition f_preferences : field t (list R) :=
  Field preferences (fun v s => mk (alpha s) (beta s) (counts s) (emp_means s) v (exp_rewards s) (probs s)).
Definition f_exp_rewards : field t (list R) :=
  Field exp_rewards (fun v s => mk (alpha s) (beta s) (counts s) (emp_means s) (preferences s) v (probs s)).
Definition f_probs : field t (list R) :=
  Field probs (fun v s => mk (alpha s) (beta s) (counts s) (emp_means s) (preferences s) (exp_rewards s) v).

Definition reset (n_arms : Z) : M t unit :=
  assign f_counts ((fun _ => 0) <$> range n_arms) ;;
  assign f_emp_means ((fun _ => 0%R) <$> range n_arms) ;;
  assign f_preferences ((fun _ => 0%R) <$> range n_arms) ;;
  assign f_exp_rewards ((fun _ => 0%R) <$> range n_arms) ;;
  ps <- comprehension (fun _ => truediv 1 (IZR n_arms)) (range n_arms) ;;
  assign f_probs ps.

Definition select_next_arm (d : draws) : M t Z :=
  means <- attr f_emp_means ;;
  ps <- attr f_probs ;;
  random_choices d (range (len means)) ps.

Definition update (chosen_arm : Z) (reward : R) : M t unit :=
  update_mean f_counts f_emp_means chosen_arm reward ;;
  (* update preference *)
  p <- load f_preferences chosen_arm ;;
  beta <- attr f_beta ;;
  e <- load f_exp_rewards chosen_arm ;;
  store f_preferences chosen_arm (p + beta * (reward - e))%R ;;
  (* update expected reward *)
  alpha <- attr f_alpha ;;
  e <- load f_exp_rewards chosen_arm ;;
  store f_exp_rewards chosen_arm ((1 - alpha) * e + alpha * reward)%R ;;
  (* update probs *)
  prefs <- attr f_preferences ;;
  let exp_preference := math_exp <$> prefs in
  let s := sumR exp_preference in
  ps <- comprehension (fun e => truediv e s) exp_preference ;;
  assign f_probs ps.

End ReinforcementComparison.

(* ================================================================== *)
(** ** class UCB1 *)

(** The warm-up scan shared by both UCB classes:
<<
    for arm in range(len(self.counts)):
        if self.counts[arm] == 0:
            return arm
>>
    [None] stands for reaching the end of the loop, after which the
    method returns Python's [None]. *)
Fixpoint first_pass {S : Type} (counts : field S (list Z)) (arms : list Z) : M S (option Z) :=
  match arms with
  | [] => ret None
  | arm :: arms' =>
      c <- load counts arm ;;
      if c =? 0 then ret (Some arm) else first_pass counts arms'
  end.

(** [select_next_arm], which both UCB classes spell out identically:
<<
    if sum(self.counts) < len(self.counts):  # run a first pass through all arms
        for arm in range(len(self.counts)): ...
    else:  # now select arm based on ucb value
        return np.argmax(self.ucbs)
>> *)
Definition ucb_select {S : Type} (counts : field S (list Z)) (ucbs : field S (list R)) :
    M S (option Z) :=
  cs <- attr counts ;;
  if sumZ cs <? len cs then
    first_pass counts (range (len cs))
  else
    us <- attr ucbs ;;
    a <- np_argmax us ;;
    ret (Some a).

Module UCB1.

Record t : Type := mk { counts : list Z; emp_means : list R; ucbs : list R }.

Definition f_counts : field t (list Z) :=
  Field counts (fun v s => mk v (emp_means s) (ucbs s)).
Definition f_emp_means : field t (list R) :=
  Field emp_means (fun v s => mk (counts s) v (ucbs s)).
Definition f_ucbs : field t (list R) :=
  Field ucbs (fun v s => mk (counts s) (emp_means s) v).

Definition reset (n_arms : Z) : M t unit :=
  assign f_counts ((fun _ => 0) <$> range n_arms) ;;
  assign f_emp_means ((fun _ => 0%R) <$> range n_arms) ;;
  assign f_ucbs ((fun _ => 0%R) <$> range n_arms).

(** One element of [bonuses]. *)
Definition bonus (arm : Z) : M t R :=
  cs <- attr f_counts ;;
  l <- math_log (IZR (sumZ cs + 1)) ;;
  c <- load f_counts arm ;;
  q <- truediv (2 * l) (IZR c + eps0) ;;
  math_sqrt q.

Definition _update_ucbs : M t unit :=
  cs <- attr f_counts ;;
  bonuses <- comprehension bonus (range (len cs)) ;;
  means <- attr f_emp_means ;;
  assign f_ucbs (zip_add means bonuses).

Definition select_next_arm : M t (option Z) := ucb_select f_counts f_ucbs.

Definition update (chosen_arm : Z) (reward : R) : M t unit :=
  update_mean f_counts f_emp_means chosen_arm reward ;;
  _update_ucbs.

End UCB1.

(* ================================================================== *)
(** ** class UCB1Tuned *)

Module UCB1Tuned.

Record t : Type := mk { counts : list Z; emp_means : list R; M2 : list R; ucbs : list R }.

Definition f_counts : field t (list Z) :=
  Field counts (fun v s => mk v (emp_means s) (M2 s) (ucbs s)).
Definition f_emp_means : field t (list R) :=
  Field emp_means (fun v s => mk (counts s) v (M2 s) (ucbs s)).
Definition f_M2 : field t (list R) :=
  Field M2 (fun v s => mk (counts s) (emp_means s) v (ucbs s)).
Definition f_ucbs : field t (list R) :=
  Field ucbs (fun v s => mk (counts s) (emp_means s) (M2 s) v).

Definition reset (n_arms : Z) : M t unit :=
  assign f_counts ((fun _ => 0) <$> range n_arms) ;;
  assign f_emp_means ((fun _ => 0%R) <$> range n_arms) ;;
  assign f_M2 ((fun _ => 0%R) <$> range n_arms) ;;
  assign f_ucbs ((fun _ => 0%R) <$> range n_arms).

(** One element of [Vs]. *)
Definition V (arm : Z) : M t R :=
  m2 <- load f_M2 arm ;;
  c <- load f_counts arm ;;
  var <- truediv m2 (IZR c + eps0) ;;
  cs <- attr f_counts ;;
  l <- math_log (IZR (sumZ cs + 1)) ;;
  c' <- load f_counts arm ;;
  q <- truediv (2 * l) (IZR c' + eps0) ;;
  r <- math_sqrt q ;;
  ret (var + r)%R.

(** One element of [bonuses], given the list [mins]. *)
Definition bonus (mins : list R) (arm : Z) : M t R :=
  cs <- attr f_counts ;;
  l <- math_log (IZR (sumZ cs + 1)) ;;
  c <- load f_counts arm ;;
  q <- truediv l (IZR c + eps0) ;;
  m <- getitem mins arm ;;
  math_sqrt (q * m).

Definition _update_ucbs : M t unit :=
  cs <- attr f_counts ;;
  Vs <- comprehension V (range (len cs)) ;;
  let mins := (fun v => Rmin (1 / 4) v) <$> Vs in
  cs <- attr f_counts ;;
  bonuses <- comprehension (bonus mins) (range (len cs)) ;;
  means <- attr f_emp_means ;;
  assign f_ucbs (zip_add means bonuses).

Definition select_next_arm : M t (option Z) := ucb_select f_counts f_ucbs.

Definition update (chosen_arm : Z) (reward : R) : M t unit :=
  means <- update_mean f_counts f_emp_means chosen_arm reward ;;
  let old_mean := means.1 in
  let new_mean := means.2 in
  (* update M2 values (n*variance) *)
  m2 <- load f_M2 chosen_arm ;;
  store f_M2 chosen_arm (m2 + (reward - old_mean) * (reward - new_mean))%R ;;
  (* update UCB value *)
  _update_ucbs.

End UCB1Tuned.

(* ================================================================== *)
(** ** A strategy object of any of the nine classes

    The driver calls [reset], [select_next_arm] and [update] on an
    object without knowing its class; the call goes to the method of
    the object's class. *)

Inductive strategy : Type :=
| OfRandom (s : Random.t)
| OfEpsilonGreedy (s : EpsilonGreedy.t)
| OfAnnealingEpsilonGreedy (s : AnnealingEpsilonGreedy.t)
| OfBoltzmann (s : Boltzmann.t)
| OfAnnealingBoltzmann (s : AnnealingBoltzmann.t)
| OfPursuit (s : Pursuit.t)
| OfReinforcementComparison (s : ReinforcementComparison.t)
| OfUCB1 (s : UCB1.t)
| OfUCB1Tuned (s : UCB1Tuned.t).

(** Run a method of class [T] on an object of that class. *)
Definition dispatch {T A : Type} (inj : T -> strategy) (m : M T A) (s : T) : outcome strategy A :=
  match m s with
  | Returns a s' => Returns a (inj s')
  | Raises e s' => Raises e (inj s')
  end.

Definition reset (n_arms : Z) : M strategy unit :=
  fun st =>
    match st with
    | OfRandom s => dispatch OfRandom (Random.reset n_arms) s
    | OfEpsilonGreedy s => dispatch OfEpsilonGreedy (EpsilonGreedy.reset n_arms) s
    | OfAnnealingEpsilonGreedy s =>
        dispatch OfAnnealingEpsilonGreedy (AnnealingEpsilonGreedy.reset n_arms) s
    | OfBoltzmann s => dispatch OfBoltzmann (Boltzmann.reset n_arms) s
    | OfAnnealingBoltzmann s => dispatch OfAnnealingBoltzmann (AnnealingBoltzmann.reset n_arms) s
    | OfPursuit s => dispatch OfPursuit (Pursuit.reset n_arms) s
    | OfReinforcementComparison s =>
        dispatch OfReinforcementComparison (ReinforcementComparison.reset n_arms) s
    | OfUCB1 s => dispatch OfUCB1 (UCB1.reset n_arms) s
    | OfUCB1Tuned s => dispatch OfUCB1Tuned (UCB1Tuned.reset n_arms) s
    end.

(** The result is [Some arm], or [None] for Python's [None]. *)
Definition select_next_arm (d : draws) : M strategy (option Z) :=
  fun st =>
    match st with
    | OfRandom s => dispatch OfRandom (a <- Random.select_next_arm d ;; ret (Some a)) s
    | OfEpsilonGreedy s =>
        dispatch OfEpsilonGreedy (a <- EpsilonGreedy.select_next_arm d ;; ret (Some a)) s
    | OfAnnealingEpsilonGreedy s =>
        dispatch OfAnnealingEpsilonGreedy
          (a <- AnnealingEpsilonGreedy.select_next_arm d ;; ret (Some a)) s
    | OfBoltzmann s => dispatch OfBoltzmann (a <- Boltzmann.select_next_arm d ;; ret (Some a)) s
    | OfAnnealingBoltzmann s =>
        dispatch OfAnnealingBoltzmann (a <- AnnealingBoltzmann.select_next_arm d ;; ret (Some a)) s
    | OfPursuit s => dispatch OfPursuit (a <- Pursuit.select_next_arm d ;; ret (Some a)) s
    | OfReinforcementComparison s =>
        dispatch OfReinforcementComparison
          (a <- ReinforcementComparison.select_next_arm d ;; ret (Some a)) s
    | OfUCB1 s => dispatch OfUCB1 UCB1.select_next_arm s
    | OfUCB1Tuned s => dispatch OfUCB1Tuned UCB1Tuned.select_next_arm s
    end.

Definition update (chosen_arm : Z) (reward : R) : M strategy unit :=
  fun st =>
    match st with
    | OfRandom s => dispatch OfRandom (Random.update chosen_arm reward) s
    | OfEpsilonGreedy s => dispatch OfEpsilonGreedy (EpsilonGreedy.update chosen_arm reward) s
    | OfAnnealingEpsilonGreedy s =>
        dispatch OfAnnealingEpsilonGreedy (AnnealingEpsilonGreedy.update chosen_arm reward) s
    | OfBoltzmann s => dispatch OfBoltzmann (Boltzmann.update chosen_arm reward) s
    | OfAnnealingBoltzmann s =>
        dispatch OfAnnealingBoltzmann (AnnealingBoltzmann.update chosen_arm reward) s
    | OfPursuit s => dispatch OfPursuit (Pursuit.update chosen_arm reward) s
    | OfReinforcementComparison s =>
        dispatch OfReinforcementComparison (ReinforcementComparison.update chosen_arm reward) s
    | OfUCB1 s => dispatch OfUCB1 (UCB1.update chosen_arm reward) s
    | OfUCB1Tuned s => dispatch OfUCB1Tuned (UCB1Tuned.update chosen_arm reward) s
    end.

(** [self.counts] and [self.emp_means], which every class has. *)
Definition counts (st : strategy) : list Z :=
  match st with
  | OfRandom s => Random.counts s
  | OfEpsilonGreedy s => EpsilonGreedy.counts s
  | OfAnnealingEpsilonGreedy s => AnnealingEpsilonGreedy.counts s
  | OfBoltzmann s => Boltzmann.counts s
  | OfAnnealingBoltzmann s => AnnealingBoltzmann.counts s
  | OfPursuit s => Pursuit.counts s
  | OfReinforcementComparison s => ReinforcementComparison.counts s
  | OfUCB1 s => UCB1.counts s
  | OfUCB1Tuned s => UCB1Tuned.counts s
  end.

Definition emp_means (st : strategy) : list R :=
  match st with
  | OfRandom s => Random.emp_means s
  | OfEpsilonGreedy s => EpsilonGreedy.emp_means s
  | OfAnnealingEpsilonGreedy s => AnnealingEpsilonGreedy.emp_means s
  | OfBoltzmann s => Boltzmann.emp_means s
  | OfAnnealingBoltzmann s => AnnealingBoltzmann.emp_means s
  | OfPursuit s => Pursuit.emp_means s
  | OfReinforcementComparison s => ReinforcementComparison.emp_means s
  | OfUCB1 s => UCB1.emp_means s
  | OfUCB1Tuned s => UCB1Tuned.emp_means s
  end.

(** [self.probs], for the two classes that store a probability vector. *)
Definition probs (st : strategy) : option (list R) :=
  match st with
  | OfPursuit s => Some (Pursuit.probs s)
  | OfReinforcementComparison s => Some (ReinforcementComparison.probs s)
  | _ => None
  end.

(** [self.ucbs], for the two UCB classes. *)
Definition ucbs (st : strategy) : option (list R) :=
  match st with
  | OfUCB1 s => Some (UCB1.ucbs s)
  | OfUCB1Tuned s => Some (UCB1Tuned.ucbs s)
  | _ => None
  end.

Definition is_ucb (st : strategy) : bool :=
  match st with
  | OfUCB1 _ | OfUCB1Tuned _ => true
  | _ => false
  end.

(** The driver's loop, one round per reward the environment hands out:
    [arm = select_next_arm()] followed by [update(arm, reward)]; the
    arms chosen are collected.  Indexing a list with [None] is a
    [TypeError]. *)
Fixpoint drive (d : draws) (rewards : list R) : M strategy (list (option Z)) :=
  match rewards with
  | [] => ret []
  | reward :: rewards' =>
      arm <- select_next_arm d ;;
      match arm with
      | Some a => update a reward
      | None => raise TypeError
      end ;;
      arms <- drive d rewards' ;;
      ret (arm :: arms)
  end.

(** The driver's calls [update(a1, r1); update(a2, r2); ...]. *)
Definition updates (trace : list (Z * R)) : M strategy unit :=
  for_each trace (fun ar => update ar.1 ar.2).

(* ================================================================== *)
(** ** Vocabulary of the statements *)

(** The rewards passed for [arm] along a trace, in order. *)
Definition rewards_of (arm : Z) (trace : list (Z * R)) : list R :=
  snd <$> filter (fun ar => ar.1 = arm) trace.

(** Arithmetic mean; an arm without rewards keeps its reset value [0.0]. *)
Definition mean (rs : list R) : R :=
  match rs with
  | [] => 0%R
  | _ => (sumR rs / IZR (len rs))%R
  end.

(** Arm indices the driver may pass: [0 <= chosen_arm < n_arms]. *)
Definition valid (n_arms : Z) (ar : Z * R) : Prop := 0 <= ar.1 < n_arms.

(** An object for [n] arms: every per-arm list of its class has [n]
    elements, no count is negative, and the second-moment accumulators
    of UCB1Tuned are not negative. *)
Definition wf (n : nat) (st : strategy) : Prop :=
  length (counts st) = n /\ length (emp_means st) = n /\
  Forall (fun c => 0 <= c) (counts st) /\
  match st with
  | OfPursuit s => length (Pursuit.probs s) = n
  | OfReinforcementComparison s =>
      length (ReinforcementComparison.preferences s) = n /\
      length (ReinforcementComparison.exp_rewards s) = n
  | OfUCB1 s => length (UCB1.ucbs s) = n
  | OfUCB1Tuned s =>
      length (UCB1Tuned.M2 s) = n /\ length (UCB1Tuned.ucbs s) = n /\
      Forall (fun m => (0 <= m)%R) (UCB1Tuned.M2 s)
  | _ => True
  end.


(** [preserves Rel m]: whatever state [m] starts from, and whether it
    returns or raises, the state it leaves is related to the initial
    one by [Rel]. *)
Definition preserves {S A : Type} (Rel : S -> S -> Prop) (m : M S A) : Prop :=
  forall s, Rel s (final_state (m s)).

(** The mean after one more reward [r], from the old count [c] and the
    old mean [m], as [update] computes it: [n = c + 1] and
    [((n - 1) / float(n)) * m + (1 / float(n)) * r]. *)
Definition next_mean (c : Z) (m r : R) : R :=
  (IZR (c + 1 - 1) / IZR (c + 1) * m + 1 / IZR (c + 1) * r)%R.

(** The position [np.argmax] answers for a non-empty list. *)
Definition argmax (l : list R) : nat :=
  match l with
  | [] => O
  | x :: l' => argmax_from 0 x 1 l'
  end.

(** Pursuit's probabilities after the loop over all arms has run from
    position [j] on: the arm [best] is pulled towards 1, every other
    arm towards 0. *)
Fixpoint nudged (lr : R) (best : nat) (j : nat) (ps : list R) : list R :=
  match ps with
  | [] => []
  | p :: ps' =>
      (if (j =? best)%nat then p + lr * (1 - p) else p + lr * (0 - p))%R
        :: nudged lr best (Datatypes.S j) ps'
  end.

(** The probability vector ReinforcementComparison derives from its
    preferences: [p[a] = exp(pref[a]) / sum_b exp(pref[b])]. *)
Definition softmax (prefs : list R) : list R :=
  let exp_preference := math_exp <$> prefs in
  (fun e => e / sumR exp_preference)%R <$> exp_preference.

(** The exploration bonus of UCB1 for an arm pulled [c] times out of
    [T] pulls in all: [sqrt(2*ln(T+1) / (count[a] + 1e-7))]. *)
Definition confidence_bonus (T c : Z) : R :=
  sqrt (2 * ln (IZR (T + 1)) / (IZR c + eps0)).

(** The variance bound of UCB1Tuned:
    [V[a] = M2[a]/(count[a]+1e-7) + sqrt(2*ln(T+1)/(count[a]+1e-7))]. *)
Definition variance_bound (T c : Z) (m2 : R) : R :=
  (m2 / (IZR c + eps0) + sqrt (2 * ln (IZR (T + 1)) / (IZR c + eps0)))%R.

(** The variance term that feeds the bonus: [min(1/4, V[a])]. *)
Definition capped_variance (T c : Z) (m2 : R) : R :=
  Rmin (1 / 4) (variance_bound T c m2).

(** The bonus of UCB1Tuned:
    [sqrt(ln(T+1)/(count[a]+1e-7) * min(1/4, V[a]))]. *)
Definition tuned_bonus (T c : Z) (m2 : R) : R :=
  sqrt (ln (IZR (T + 1)) / (IZR c + eps0) * capped_variance T c m2).

(** The stored probability vector, where the class has one, sums to 1. *)
Definition normalised (st : strategy) : Prop :=
  forall ps, probs st = Some ps -> sumR ps = 1%R.

(** The statistics of every arm agree with the rewards passed so far. *)
Definition tracks (n_arms : Z) (history : list (Z * R)) (st : strategy) : Prop :=
  forall arm, 0 <= arm < n_arms ->
    counts st !! Z.to_nat arm = Some (len (rewards_of arm history)) /\
    emp_means st !! Z.to_nat arm = Some (mean (rewards_of arm history)).

(** Apart from position [k], the counts and the means of [s'] are
    those of [s]. *)
Definition others_kept {S : Type} (fc : field S (list Z)) (fm : field S (list R)) (k : nat)
    (s s' : S) : Prop :=
  forall b : nat, b <> k ->
    fget fc s' !! b = fget fc s !! b /\ fget fm s' !! b = fget fm s !! b.

(** The first position, counted from [j], that holds a zero count. *)
Fixpoint first_zero_from (j : nat) (cs : list Z) : option nat :=
  match cs with
  | [] => None
  | c :: cs' => if c =? 0 then Some j else first_zero_from (Datatypes.S j) cs'
  end.

(* ================================================================== *)
(** ** Further vocabulary *)

(** [self.M2], for UCB1Tuned. *)
Definition M2_of (st : strategy) : option (list R) :=
  match st with
  | OfUCB1Tuned s => Some (UCB1Tuned.M2 s)
  | _ => None
  end.

(** The parameters the constructor stores beside the lists. *)
Definition parameters (st : strategy) : list R :=
  match st with
  | OfEpsilonGreedy s => [EpsilonGreedy.epsilon s]
  | OfBoltzmann s => [Boltzmann.tau s]
  | OfPursuit s => [Pursuit.lr s]
  | OfReinforcementComparison s =>
      [ReinforcementComparison.alpha s; ReinforcementComparison.beta s]
  | _ => []
  end.

(** What selection needs beyond [wf]: a temperature that can be
    divided by, and a probability vector with one entry per arm that
    sums to 1. *)
Definition selectable (st : strategy) : Prop :=
  match st with
  | OfBoltzmann s => Boltzmann.tau s <> 0%R
  | OfPursuit s => sumR (Pursuit.probs s) = 1%R
  | OfReinforcementComparison s =>
      length (ReinforcementComparison.probs s) = length (ReinforcementComparison.emp_means s) /\
      sumR (ReinforcementComparison.probs s) = 1%R
  | _ => True
  end.

(** The driver's loop with the draws of every round given: one
    [select_next_arm()] and one [update(arm, reward)] per round. *)
Fixpoint play (rounds : list (draws * R)) : M strategy (list (option Z)) :=
  match rounds with
  | [] => ret []
  | (d, reward) :: rounds' =>
      arm <- select_next_arm d ;;
      match arm with
      | Some a => update a reward
      | None => raise TypeError
      end ;;
      arms <- play rounds' ;;
      ret (arm :: arms)
  end.

(** The weights Boltzmann selection hands to [random.choices]. *)
Definition boltzmann_weights (tau : R) (means : list R) : list R :=
  let z := sumR ((fun v => math_exp (v / tau)) <$> means) in
  (fun v => math_exp (v / tau) / z)%R <$> means.

(** Sum of the squared deviations of [rs] from their mean. *)
Definition sum_sq_dev (rs : list R) : R :=
  sumR ((fun r => (r - mean rs) * (r - mean rs))%R <$> rs).

(** [s'] has the value of [f] that [s] has. *)
Definition same_on {S A : Type} (f : S -> A) (s s' : S) : Prop := f s' = f s.

(** Boltzmann's temperature is not zero (nothing is asked of the other
    classes). *)
Definition temperature_ok (st : strategy) : Prop :=
  match st with
  | OfBoltzmann s => Boltzmann.tau s <> 0%R
  | _ => True
  end.

(** [x] lies in [[-B, B]]. *)
Definition within (B x : R) : Prop := (- B <= x <= B)%R.

(** Arguments of [math.exp] that doubles treat as the reals do.  On
    doubles [math.exp] raises [OverflowError] for an argument above
    about 709.78 and gives [0.0] for one below about -745.13; for
    arguments in [[-300, 300]] the result is a positive double, and so
    are the sums and the quotients that the classes form of such
    results over their arms. *)
Definition exp_safe (q : R) : Prop := within 300 q.

(** The arguments [select_next_arm] hands to [math.exp] on this
    object: [v / tau] for every mean [v], with the temperature of the
    class (the two Boltzmann classes; the others select without
    [math.exp]). *)
Definition selection_exponents (st : strategy) : list R :=
  match st with
  | OfBoltzmann s => (fun v => v / Boltzmann.tau s)%R <$> Boltzmann.emp_means s
  | OfAnnealingBoltzmann s =>
      let tau := (1 / ln (IZR (sumZ (AnnealingBoltzmann.counts s) + 1) + eps0))%R in
      (fun v => v / tau)%R <$> AnnealingBoltzmann.emp_means s
  | _ => []
  end.

(** The preferences of a ReinforcementComparison object, which
    [update] hands to [math.exp] once it has written them, are in
    range (nothing is asked of the other classes). *)
Definition preferences_in_range (st : strategy) : Prop :=
  match st with
  | OfReinforcementComparison s => Forall exp_safe (ReinforcementComparison.preferences s)
  | _ => True
  end.

(** What keeps the driver's loop clear of the limits of doubles over
    [N] rounds with rewards in [[-B, B]].  Boltzmann divides a mean by
    [tau]; AnnealingBoltzmann multiplies it by [ln(t + 1e-7)] with [t]
    up to [N + 1]; a preference of ReinforcementComparison moves by at
    most [2 * |beta| * B] in a round when [alpha] is in [[0, 1]]; the
    probabilities of Pursuit stay in [[0, 1]] when [lr] is.  The other
    classes ask for nothing. *)
Definition budget (B : R) (N : Z) (st : strategy) : Prop :=
  match st with
  | OfBoltzmann s => Boltzmann.tau s <> 0%R /\ (B <= 300 * Rabs (Boltzmann.tau s))%R
  | OfAnnealingBoltzmann s => (B * ln (IZR N + 1 + eps0) <= 300)%R
  | OfPursuit s => (0 <= Pursuit.lr s <= 1)%R
  | OfReinforcementComparison s =>
      (0 <= ReinforcementComparison.alpha s <= 1)%R /\
      (2 * Rabs (ReinforcementComparison.beta s) * B * IZR N <= 300)%R
  | _ => True
  end.

(** What the driver's loop keeps of an object within its [budget]:
    the means stay in [[-B, B]]; the probabilities of Pursuit stay in
    [[0, 1]]; the expected rewards of ReinforcementComparison stay in
    [[-B, B]], and its preferences have moved by at most
    [2 * |beta| * B] per update made. *)
Definition in_budget (B : R) (N : Z) (st : strategy) : Prop :=
  budget B N st /\
  Forall (within B) (emp_means st) /\
  match st with
  | OfPursuit s => Forall (fun p => 0 <= p <= 1)%R (Pursuit.probs s)
  | OfReinforcementComparison s =>
      Forall (within B) (ReinforcementComparison.exp_rewards s) /\
      Forall (within (2 * Rabs (ReinforcementComparison.beta s) * B *
                      IZR (sumZ (ReinforcementComparison.counts s))))
        (ReinforcementComparison.preferences s)
  | _ => True
  end.

(** The object [reset(n_arms)] leaves: the parameters of [st], all
    counts, means, preferences, expected rewards, accumulators and
    confidence values zero, all probabilities [1/n_arms]. *)
Definition fresh (n_arms : Z) (st : strategy) : strategy :=
  let zeros := (fun _ : Z => 0) <$> range n_arms in
  let zeros_f := (fun _ : Z => 0%R) <$> range n_arms in
  let uniform := (fun _ : Z => (1 / IZR n_arms)%R) <$> range n_arms in
  match st with
  | OfRandom s => OfRandom (Random.mk zeros zeros_f)
  | OfEpsilonGreedy s =>
      OfEpsilonGreedy (EpsilonGreedy.mk (EpsilonGreedy.epsilon s) zeros zeros_f)
  | OfAnnealingEpsilonGreedy s =>
      OfAnnealingEpsilonGreedy (AnnealingEpsilonGreedy.mk zeros zeros_f)
  | OfBoltzmann s => OfBoltzmann (Boltzmann.mk (Boltzmann.tau s) zeros zeros_f)
  | OfAnnealingBoltzmann s => OfAnnealingBoltzmann (AnnealingBoltzmann.mk zeros zeros_f)
  | OfPursuit s => OfPursuit (Pursuit.mk (Pursuit.lr s) zeros zeros_f uniform)
  | OfReinforcementComparison s =>
      OfReinforcementComparison
        (ReinforcementComparison.mk (ReinforcementComparison.alpha s)
           (ReinforcementComparison.beta s) zeros zeros_f zeros_f zeros_f uniform)
  | OfUCB1 s => OfUCB1 (UCB1.mk zeros zeros_f zeros_f)
  | OfUCB1Tuned s => OfUCB1Tuned (UCB1Tuned.mk zeros zeros_f zeros_f zeros_f)
  end.

(* ================================================================== *)
(** * Properties *)

(** ** Python indexing *)

Lemma py_index_nonneg (n : nat) (i : Z) :
  0 <= i < Z.of_nat n -> py_index n i = Some (Z.to_nat i).
Proof.
  intros Hi. unfold py_index.
  destruct (Z.leb_spec 0 i); [|lia].
  destruct (Z.ltb_spec i (Z.of_nat n)); [|lia].
  reflexivity.
Qed.

Lemma py_index_negative (n : nat) (i : Z) :
  - Z.of_nat n <= i < 0 -> py_index n i = Some (Z.to_nat (Z.of_nat n + i)).
Proof.
  intros Hi. unfold py_index.
  destruct (Z.leb_spec 0 i); [lia|]. cbn [andb].
  destruct (Z.leb_spec (- Z.of_nat n) i); [|lia].
  destruct (Z.ltb_spec i 0); [|lia].
  reflexivity.
Qed.

Lemma py_index_out_of_range (n : nat) (i : Z) :
  i < - Z.of_nat n \/ Z.of_nat n <= i -> py_index n i = None.
Proof.
  intros Hi. unfold py_index.
  destruct (Z.leb_spec 0 i), (Z.ltb_spec i (Z.of_nat n)),
    (Z.leb_spec (- Z.of_nat n) i), (Z.ltb_spec i 0); cbn [andb]; try reflexivity; lia.
Qed.

Lemma py_index_Some (n : nat) (i : Z) (k : nat) :
  py_index n i = Some k ->
  (k < n)%nat /\ (0 <= i -> k = Z.to_nat i) /\ (i < 0 -> k = Z.to_nat (Z.of_nat n + i)).
Proof.
  unfold py_index.
  destruct (Z.leb_spec 0 i), (Z.ltb_spec i (Z.of_nat n)),
    (Z.leb_spec (- Z.of_nat n) i), (Z.ltb_spec i 0); cbn [andb];
    intros [= <-]; lia.
Qed.

(* ================================================================== *)
(** ** What a computation leaves of the state *)

Section Preserves.
Context {S : Type} (Rel : S -> S -> Prop) `{!PreOrder Rel}.

Lemma preserves_ret {A} (a : A) : preserves Rel (ret a).
Proof. intros s. simpl. reflexivity. Qed.

Lemma preserves_raise {A} (e : exn) : preserves Rel (@raise S A e).
Proof. intros s. simpl. reflexivity. Qed.

Lemma preserves_attr {A} (f : field S A) : preserves Rel (attr f).
Proof. intros s. simpl. reflexivity. Qed.

Lemma preserves_bind {A B} (m : M S A) (k : A -> M S B) :
  preserves Rel m -> (forall a, preserves Rel (k a)) -> preserves Rel (bind m k).
Proof.
  intros Hm Hk s. unfold bind. specialize (Hm s).
  destruct (m s) as [a s'|e s']; simpl in *; [|assumption].
  etransitivity; [exact Hm|apply Hk].
Qed.

Lemma preserves_getitem {A} (l : list A) (i : Z) : preserves Rel (@getitem S A l i).
Proof.
  unfold getitem. destruct (py_index _ _); [destruct (l !! _)|];
    auto using preserves_ret, preserves_raise.
Qed.

Lemma preserves_load {A} (f : field S (list A)) (i : Z) : preserves Rel (load f i).
Proof.
  apply preserves_bind; [apply preserves_attr|]. intros l. apply preserves_getitem.
Qed.

Lemma preserves_assign {A} (f : field S A) (v : A) :
  (forall s, Rel s (fset f v s)) -> preserves Rel (assign f v).
Proof. intros H s. apply H. Qed.

Lemma preserves_store {A} (f : field S (list A)) (i : Z) (v : A) :
  (forall s k, py_index (length (fget f s)) i = Some k -> Rel s (fset f (<[k:=v]> (fget f s)) s)) ->
  preserves Rel (store f i v).
Proof.
  intros H s. unfold store, bind, attr.
  destruct (py_index _ _) as [k|] eqn:E; simpl; [apply H, E|reflexivity].
Qed.

Lemma preserves_truediv (a b : R) : preserves Rel (@truediv S a b).
Proof. unfold truediv. destruct (Req_dec_T _ _); auto using preserves_ret, preserves_raise. Qed.

Lemma preserves_math_log (x : R) : preserves Rel (@math_log S x).
Proof. unfold math_log. destruct (Rle_dec _ _); auto using preserves_ret, preserves_raise. Qed.

Lemma preserves_math_sqrt (x : R) : preserves Rel (@math_sqrt S x).
Proof. unfold math_sqrt. destruct (Rlt_dec _ _); auto using preserves_ret, preserves_raise. Qed.

Lemma preserves_np_argmax (l : list R) : preserves Rel (@np_argmax S l).
Proof. destruct l; simpl; auto using preserves_ret, preserves_raise. Qed.

Lemma preserves_randrange (d : draws) (n : Z) : preserves Rel (@randrange S d n).
Proof. unfold randrange. destruct (_ <=? _); auto using preserves_ret, preserves_raise. Qed.

Lemma preserves_random_choices {A} (d : draws) (population : list A) (weights : list R) :
  preserves Rel (@random_choices S A d population weights).
Proof.
  unfold random_choices. destruct (negb _); [apply preserves_raise|].
  apply preserves_bind; [apply preserves_getitem|]. intros total.
  destruct (Rle_dec _ _); auto using preserves_raise, preserves_getitem.
Qed.

Lemma preserves_comprehension {A B} (body : A -> M S B) (l : list A) :
  (forall x, preserves Rel (body x)) -> preserves Rel (comprehension body l).
Proof.
  intros Hbody. induction l as [|x l IH]; simpl; [apply preserves_ret|].
  apply preserves_bind; [apply Hbody|]. intros y.
  apply preserves_bind; [apply IH|]. intros ys. apply preserves_ret.
Qed.

Lemma preserves_for_each {A} (l : list A) (body : A -> M S unit) :
  (forall x, preserves Rel (body x)) -> preserves Rel (for_each l body).
Proof.
  intros Hbody. induction l as [|x l IH]; simpl; [apply preserves_ret|].
  apply preserves_bind; [apply Hbody|]. intros _. apply IH.
Qed.

Lemma preserves_first_pass (counts : field S (list Z)) (arms : list Z) :
  preserves Rel (first_pass counts arms).
Proof.
  induction arms as [|arm arms IH]; simpl; [apply preserves_ret|].
  apply preserves_bind; [apply preserves_load|]. intros c.
  destruct (c =? 0); [apply preserves_ret|apply IH].
Qed.

Lemma preserves_annealed (counts : field S (list Z)) : preserves Rel (annealed counts).
Proof.
  unfold annealed.
  apply preserves_bind; [apply preserves_attr|]. intros cs.
  apply preserves_bind; [apply preserves_math_log|]. intros l.
  apply preserves_truediv.
Qed.

Lemma preserves_softmax_probs (tau : R) (means : list R) :
  preserves Rel (@softmax_probs S tau means).
Proof.
  unfold softmax_probs.
  apply preserves_bind.
  - apply preserves_comprehension. intros v.
    apply preserves_bind; [apply preserves_truediv|]. intros q. apply preserves_ret.
  - intros es. apply preserves_comprehension. intros v.
    apply preserves_bind; [apply preserves_truediv|]. intros q. apply preserves_truediv.
Qed.

End Preserves.

Create HintDb frame discriminated.
#[export] Hint Resolve preserves_ret preserves_raise preserves_attr preserves_getitem
  preserves_load preserves_truediv preserves_math_log preserves_math_sqrt
  preserves_np_argmax preserves_randrange preserves_random_choices
  preserves_first_pass preserves_annealed preserves_softmax_probs : frame.

(** Break a computation down to its primitive steps. *)
Ltac frame :=
  repeat first
    [ apply preserves_bind; [typeclasses eauto| |intros ?]
    | apply preserves_comprehension; [typeclasses eauto|intros ?]
    | apply preserves_for_each; [typeclasses eauto|intros ?]
    | match goal with
      | |- preserves _ (if ?b then _ else _) => destruct b
      end
    | solve [eauto with frame typeclass_instances] ].

Lemma final_state_dispatch {T A} (inj : T -> strategy) (m : M T A) (s : T) :
  final_state (dispatch inj m s) = inj (final_state (m s)).
Proof. unfold dispatch. destruct (m s); reflexivity. Qed.

(** *** Selection reads, and only reads *)

Lemma Random_select_readonly d : preserves eq (Random.select_next_arm d).
Proof. unfold Random.select_next_arm. frame. Qed.

Lemma EpsilonGreedy_select_readonly d : preserves eq (EpsilonGreedy.select_next_arm d).
Proof. unfold EpsilonGreedy.select_next_arm. frame. Qed.

Lemma AnnealingEpsilonGreedy_select_readonly d :
  preserves eq (AnnealingEpsilonGreedy.select_next_arm d).
Proof. unfold AnnealingEpsilonGreedy.select_next_arm. frame. Qed.

Lemma Boltzmann_select_readonly d : preserves eq (Boltzmann.select_next_arm d).
Proof. unfold Boltzmann.select_next_arm. frame. Qed.

Lemma AnnealingBoltzmann_select_readonly d :
  preserves eq (AnnealingBoltzmann.select_next_arm d).
Proof. unfold AnnealingBoltzmann.select_next_arm. frame. Qed.

Lemma Pursuit_select_readonly d : preserves eq (Pursuit.select_next_arm d).
Proof. unfold Pursuit.select_next_arm. frame. Qed.

Lemma ReinforcementComparison_select_readonly d :
  preserves eq (ReinforcementComparison.select_next_arm d).
Proof. unfold ReinforcementComparison.select_next_arm. frame. Qed.

Lemma UCB1_select_readonly : preserves eq UCB1.select_next_arm.
Proof. unfold UCB1.select_next_arm, ucb_select. frame. Qed.

Lemma UCB1Tuned_select_readonly : preserves eq UCB1Tuned.select_next_arm.
Proof. unfold UCB1Tuned.select_next_arm, ucb_select. frame. Qed.

(** C8. For every class, every state of the object (reachable or not)
    and every outcome of the random draws, [select_next_arm] leaves the
    object exactly as it found it, whether it returns an arm or raises:
    counts, means, auxiliary lists and parameters are all unchanged. *)
Theorem select_next_arm_pure_read (d : draws) (st : strategy) :
  final_state (select_next_arm d st) = st.
Proof.
  destruct st as [s|s|s|s|s|s|s|s|s]; unfold select_next_arm;
    rewrite final_state_dispatch; f_equal; symmetry.
  - apply (preserves_bind eq); [apply Random_select_readonly|intros; apply (preserves_ret eq)].
  - apply (preserves_bind eq); [apply EpsilonGreedy_select_readonly|intros; apply (preserves_ret eq)].
  - apply (preserves_bind eq); [apply AnnealingEpsilonGreedy_select_readonly|intros; apply (preserves_ret eq)].
  - apply (preserves_bind eq); [apply Boltzmann_select_readonly|intros; apply (preserves_ret eq)].
  - apply (preserves_bind eq); [apply AnnealingBoltzmann_select_readonly|intros; apply (preserves_ret eq)].
  - apply (preserves_bind eq); [apply Pursuit_select_readonly|intros; apply (preserves_ret eq)].
  - apply (preserves_bind eq); [apply ReinforcementComparison_select_readonly|intros; apply (preserves_ret eq)].
  - apply UCB1_select_readonly.
  - apply UCB1Tuned_select_readonly.
Qed.

(* ================================================================== *)
(** ** Stepping through a computation *)

Lemma bind_returns {S A B} (m : M S A) (k : A -> M S B) s a s' :
  m s = Returns a s' -> bind m k s = k a s'.
Proof. unfold bind. intros ->. reflexivity. Qed.

Lemma bind_raises {S A B} (m : M S A) (k : A -> M S B) s e s' :
  m s = Raises e s' -> bind m k s = Raises e s'.
Proof. unfold bind. intros ->. reflexivity. Qed.

Lemma getitem_returns {S A} (l : list A) (i : Z) (k : nat) (v : A) (s : S) :
  py_index (length l) i = Some k -> l !! k = Some v -> getitem l i s = Returns v s.
Proof. unfold getitem. intros -> ->. reflexivity. Qed.

Lemma getitem_raises {S A} (l : list A) (i : Z) (s : S) :
  py_index (length l) i = None -> getitem l i s = Raises IndexError s.
Proof. unfold getitem. intros ->. reflexivity. Qed.

Lemma load_returns {S A} (f : field S (list A)) (i : Z) (k : nat) (v : A) (s : S) :
  py_index (length (fget f s)) i = Some k -> fget f s !! k = Some v ->
  load f i s = Returns v s.
Proof. intros Hk Hv. unfold load, bind, attr. apply getitem_returns with k; assumption. Qed.

Lemma load_raises {S A} (f : field S (list A)) (i : Z) (s : S) :
  py_index (length (fget f s)) i = None -> load f i s = Raises IndexError s.
Proof. intros Hk. unfold load, bind, attr. apply getitem_raises, Hk. Qed.

Lemma store_returns {S A} (f : field S (list A)) (i : Z) (k : nat) (v : A) (s : S) :
  py_index (length (fget f s)) i = Some k ->
  store f i v s = Returns tt (fset f (<[k:=v]> (fget f s)) s).
Proof. intros Hk. unfold store, bind, attr. rewrite Hk. reflexivity. Qed.

Lemma truediv_returns {S} (a b : R) (s : S) :
  b <> 0%R -> truediv a b s = Returns (a / b)%R s.
Proof. intros Hb. unfold truediv. destruct (Req_dec_T b 0); [contradiction|reflexivity]. Qed.

Lemma math_log_returns {S} (x : R) (s : S) :
  (0 < x)%R -> math_log x s = Returns (ln x) s.
Proof. intros Hx. unfold math_log. destruct (Rle_dec x 0); [lra|reflexivity]. Qed.

Lemma math_sqrt_returns {S} (x : R) (s : S) :
  (0 <= x)%R -> math_sqrt x s = Returns (sqrt x) s.
Proof. intros Hx. unfold math_sqrt. destruct (Rlt_dec x 0); [lra|reflexivity]. Qed.

(** A list comprehension whose body neither fails nor writes is [map]. *)
Lemma comprehension_returns {S A B} (body : A -> M S B) (g : A -> B) (l : list A) (s : S) :
  (forall x, x ∈ l -> body x s = Returns (g x) s) ->
  comprehension body l s = Returns (g <$> l) s.
Proof.
  induction l as [|x l IH]; intros Hbody; simpl; [reflexivity|].
  rewrite (bind_returns _ _ s (g x) s) by (apply Hbody; left).
  rewrite (bind_returns _ _ s (g <$> l) s); [reflexivity|].
  apply IH. intros y Hy. apply Hbody. right. exact Hy.
Qed.

(* ================================================================== *)
(** ** The running-mean block *)

Section UpdateMean.
Context {S : Type} (fc : field S (list Z)) (fm : field S (list R)).
Hypothesis fc_get_set : forall v s, fget fc (fset fc v s) = v.
Hypothesis fm_after_fc : forall v s, fget fm (fset fc v s) = fget fm s.

(** An index outside [-len .. len-1] stops the block at its first
    statement, before anything is written. *)
Lemma update_mean_index_error (s : S) (a : Z) (r : R) :
  py_index (length (fget fc s)) a = None ->
  update_mean fc fm a r s = Raises IndexError s.
Proof.
  intros Hk. unfold update_mean.
  apply bind_raises, load_raises, Hk.
Qed.

Lemma update_mean_returns (s : S) (a : Z) (r : R) (k : nat) (c : Z) (m : R) :
  py_index (length (fget fc s)) a = Some k ->
  py_index (length (fget fm s)) a = Some k ->
  fget fc s !! k = Some c ->
  fget fm s !! k = Some m ->
  c + 1 <> 0 ->
  update_mean fc fm a r s =
    Returns (m, next_mean c m r)
      (fset fm (<[k:=next_mean c m r]> (fget fm s)) (fset fc (<[k:=c + 1]> (fget fc s)) s)).
Proof.
  intros Hkc Hkm Hc Hm Hn. unfold update_mean.
  pose proof (py_index_Some _ _ _ Hkc) as [Hlt _].
  rewrite (bind_returns _ _ s c s) by (apply load_returns with k; assumption).
  rewrite (bind_returns _ _ _ tt _ (store_returns fc a k (c + 1) s Hkc)).
  set (s1 := fset fc _ s).
  assert (Hc1 : fget fc s1 = <[k:=c + 1]> (fget fc s)) by apply fc_get_set.
  assert (Hm1 : fget fm s1 = fget fm s) by apply fm_after_fc.
  rewrite (bind_returns _ _ s1 (c + 1) s1).
  2:{ apply load_returns with k.
      - rewrite Hc1, length_insert. exact Hkc.
      - rewrite Hc1. apply list_lookup_insert_eq. exact Hlt. }
  rewrite (bind_returns _ _ s1 m s1).
  2:{ apply load_returns with k; rewrite Hm1; assumption. }
  assert (Hnz : IZR (c + 1) <> 0%R) by (apply not_0_IZR; exact Hn).
  rewrite (bind_returns _ _ _ _ _ (truediv_returns _ _ s1 Hnz)).
  rewrite (bind_returns _ _ _ _ _ (truediv_returns _ _ s1 Hnz)).
  cbv zeta.
  rewrite (bind_returns _ _ s1 tt (fset fm (<[k:=next_mean c m r]> (fget fm s)) s1)).
  2:{ rewrite <- Hm1. apply store_returns. rewrite Hm1. exact Hkm. }
  reflexivity.
Qed.

End UpdateMean.

(* ================================================================== *)
(** ** [update] of the classes that only track the mean *)

(** Run the first step of a sequence, given why it returns. *)
Tactic Notation "step" tactic3(tac) := erewrite bind_returns; [|tac].

(** Run the running-mean block of a class whose attributes are given,
    then show the rest. *)
Ltac run_update_mean fc fm Hkc Hkm Hc Hm Hn :=
  erewrite bind_returns;
  [|apply (update_mean_returns fc fm ltac:(reflexivity) ltac:(reflexivity) _ _ _ _ _ _
            Hkc Hkm Hc Hm Hn)].

Lemma Random_update_returns (s : Random.t) (a : Z) (r : R) (k : nat) (c : Z) (m : R) :
  py_index (length (Random.counts s)) a = Some k ->
  py_index (length (Random.emp_means s)) a = Some k ->
  Random.counts s !! k = Some c ->
  Random.emp_means s !! k = Some m ->
  c + 1 <> 0 ->
  Random.update a r s =
    Returns tt (Random.mk (<[k:=c + 1]> (Random.counts s))
                          (<[k:=next_mean c m r]> (Random.emp_means s))).
Proof.
  intros Hkc Hkm Hc Hm Hn. unfold Random.update.
  run_update_mean Random.f_counts Random.f_emp_means Hkc Hkm Hc Hm Hn.
  destruct s; reflexivity.
Qed.

Lemma EpsilonGreedy_update_returns (s : EpsilonGreedy.t) (a : Z) (r : R) (k : nat) (c : Z) (m : R) :
  py_index (length (EpsilonGreedy.counts s)) a = Some k ->
  py_index (length (EpsilonGreedy.emp_means s)) a = Some k ->
  EpsilonGreedy.counts s !! k = Some c ->
  EpsilonGreedy.emp_means s !! k = Some m ->
  c + 1 <> 0 ->
  EpsilonGreedy.update a r s =
    Returns tt (EpsilonGreedy.mk (EpsilonGreedy.epsilon s)
                  (<[k:=c + 1]> (EpsilonGreedy.counts s))
                  (<[k:=next_mean c m r]> (EpsilonGreedy.emp_means s))).
Proof.
  intros Hkc Hkm Hc Hm Hn. unfold EpsilonGreedy.update.
  run_update_mean EpsilonGreedy.f_counts EpsilonGreedy.f_emp_means Hkc Hkm Hc Hm Hn.
  destruct s; reflexivity.
Qed.

Lemma AnnealingEpsilonGreedy_update_returns (s : AnnealingEpsilonGreedy.t)
    (a : Z) (r : R) (k : nat) (c : Z) (m : R) :
  py_index (length (AnnealingEpsilonGreedy.counts s)) a = Some k ->
  py_index (length (AnnealingEpsilonGreedy.emp_means s)) a = Some k ->
  AnnealingEpsilonGreedy.counts s !! k = Some c ->
  AnnealingEpsilonGreedy.emp_means s !! k = Some m ->
  c + 1 <> 0 ->
  AnnealingEpsilonGreedy.update a r s =
    Returns tt (AnnealingEpsilonGreedy.mk
                  (<[k:=c + 1]> (AnnealingEpsilonGreedy.counts s))
                  (<[k:=next_mean c m r]> (AnnealingEpsilonGreedy.emp_means s))).
Proof.
  intros Hkc Hkm Hc Hm Hn. unfold AnnealingEpsilonGreedy.update.
  run_update_mean AnnealingEpsilonGreedy.f_counts AnnealingEpsilonGreedy.f_emp_means
    Hkc Hkm Hc Hm Hn.
  destruct s; reflexivity.
Qed.

Lemma Boltzmann_update_returns (s : Boltzmann.t) (a : Z) (r : R) (k : nat) (c : Z) (m : R) :
  py_index (length (Boltzmann.counts s)) a = Some k ->
  py_index (length (Boltzmann.emp_means s)) a = Some k ->
  Boltzmann.counts s !! k = Some c ->
  Boltzmann.emp_means s !! k = Some m ->
  c + 1 <> 0 ->
  Boltzmann.update a r s =
    Returns tt (Boltzmann.mk (Boltzmann.tau s)
                  (<[k:=c + 1]> (Boltzmann.counts s))
                  (<[k:=next_mean c m r]> (Boltzmann.emp_means s))).
Proof.
  intros Hkc Hkm Hc Hm Hn. unfold Boltzmann.update.
  run_update_mean Boltzmann.f_counts Boltzmann.f_emp_means Hkc Hkm Hc Hm Hn.
  destruct s; reflexivity.
Qed.

Lemma AnnealingBoltzmann_update_returns (s : AnnealingBoltzmann.t)
    (a : Z) (r : R) (k : nat) (c : Z) (m : R) :
  py_index (length (AnnealingBoltzmann.counts s)) a = Some k ->
  py_index (length (AnnealingBoltzmann.emp_means s)) a = Some k ->
  AnnealingBoltzmann.counts s !! k = Some c ->
  AnnealingBoltzmann.emp_means s !! k = Some m ->
  c + 1 <> 0 ->
  AnnealingBoltzmann.update a r s =
    Returns tt (AnnealingBoltzmann.mk
                  (<[k:=c + 1]> (AnnealingBoltzmann.counts s))
                  (<[k:=next_mean c m r]> (AnnealingBoltzmann.emp_means s))).
Proof.
  intros Hkc Hkm Hc Hm Hn. unfold AnnealingBoltzmann.update.
  run_update_mean AnnealingBoltzmann.f_counts AnnealingBoltzmann.f_emp_means
    Hkc Hkm Hc Hm Hn.
  destruct s; reflexivity.
Qed.

(* ================================================================== *)
(** ** [np.argmax] *)

Lemma argmax_from_range (best : nat) (v : R) (i : nat) (l : list R) :
  let k := argmax_from best v i l in
  k = best \/ (i <= k < i + length l)%nat.
Proof.
  revert best v i. induction l as [|x l IH]; intros best v i; simpl; [left; reflexivity|].
  destruct (Rlt_dec v x).
  - destruct (IH i x (Datatypes.S i)) as [->|H]; right; lia.
  - destruct (IH best v (Datatypes.S i)) as [->|H]; [left; reflexivity|right; lia].
Qed.

Lemma argmax_lt (l : list R) : l <> [] -> (argmax l < length l)%nat.
Proof.
  destruct l as [|x l]; [congruence|]. intros _. simpl.
  destruct (argmax_from_range 0 x 1 l) as [->|H]; lia.
Qed.

Lemma np_argmax_returns {S} (l : list R) (s : S) :
  l <> [] -> np_argmax l s = Returns (Z.of_nat (argmax l)) s.
Proof. destruct l; [congruence|reflexivity]. Qed.

(* ================================================================== *)
(** ** [Pursuit.update] *)

Lemma Pursuit_nudge_loop (lr : R) (cs : list Z) (ms done todo : list R) :
  ms <> [] ->
  for_each (seqZ (Z.of_nat (length done)) (Z.of_nat (length todo))) Pursuit.nudge
    (Pursuit.mk lr cs ms (done ++ todo)) =
  Returns tt (Pursuit.mk lr cs ms (done ++ nudged lr (argmax ms) (length done) todo)).
Proof.
  intros Hms. revert done. induction todo as [|p todo IH]; intros done.
  - reflexivity.
  - rewrite seqZ_cons by (simpl; lia). cbn [for_each].
    set (v := (if (length done =? argmax ms)%nat
               then p + lr * (1 - p) else p + lr * (0 - p))%R).
    rewrite (bind_returns _ _ _ tt (Pursuit.mk lr cs ms (done ++ v :: todo))).
    + replace (Z.succ (Z.of_nat (length done))) with (Z.of_nat (length (done ++ [v])))
        by (rewrite length_app; simpl; lia).
      replace (Z.pred (Z.of_nat (length (p :: todo)))) with (Z.of_nat (length todo))
        by (simpl; lia).
      replace (done ++ v :: todo) with ((done ++ [v]) ++ todo)
        by (rewrite <- app_assoc; reflexivity).
      rewrite IH. rewrite <- app_assoc. cbn [nudged app].
      rewrite length_app. simpl length.
      replace (length done + 1)%nat with (Datatypes.S (length done)) by lia.
      reflexivity.
    + assert (Hidx : py_index (length (done ++ p :: todo)) (Z.of_nat (length done))
                     = Some (length done)).
      { rewrite py_index_nonneg, Nat2Z.id; [reflexivity|].
        rewrite length_app. simpl. lia. }
      unfold Pursuit.nudge.
      step (apply load_returns with (length done);
            [exact Hidx|simpl; apply list_lookup_middle; reflexivity]).
      step reflexivity. simpl fget.
      step (apply np_argmax_returns, Hms).
      step reflexivity. simpl fget.
      assert (Hst : forall x, store Pursuit.f_probs (Z.of_nat (length done)) x
                       (Pursuit.mk lr cs ms (done ++ p :: todo)) =
                     Returns tt (Pursuit.mk lr cs ms (done ++ x :: todo))).
      { intros x. rewrite (store_returns _ _ (length done)) by exact Hidx.
        simpl. f_equal. f_equal.
        rewrite insert_app_r_alt by lia. rewrite Nat.sub_diag. reflexivity. }
      subst v.
      destruct (Z.eqb_spec (Z.of_nat (length done)) (Z.of_nat (argmax ms))) as [E|E];
        destruct (Nat.eqb_spec (length done) (argmax ms)) as [E'|E']; try lia; apply Hst.
Qed.

Lemma Pursuit_update_returns (s : Pursuit.t) (a : Z) (r : R) (k : nat) (c : Z) (m : R) :
  py_index (length (Pursuit.counts s)) a = Some k ->
  py_index (length (Pursuit.emp_means s)) a = Some k ->
  Pursuit.counts s !! k = Some c ->
  Pursuit.emp_means s !! k = Some m ->
  c + 1 <> 0 ->
  length (Pursuit.probs s) = length (Pursuit.counts s) ->
  let means' := <[k:=next_mean c m r]> (Pursuit.emp_means s) in
  Pursuit.update a r s =
    Returns tt (Pursuit.mk (Pursuit.lr s) (<[k:=c + 1]> (Pursuit.counts s)) means'
                  (if Req_dec_T (sumR means') 0 then Pursuit.probs s
                   else nudged (Pursuit.lr s) (argmax means') 0 (Pursuit.probs s))).
Proof.
  intros Hkc Hkm Hc Hm Hn Hlen means'. unfold Pursuit.update.
  run_update_mean Pursuit.f_counts Pursuit.f_emp_means Hkc Hkm Hc Hm Hn.
  destruct s as [lr cs ms ps]. simpl in *.
  erewrite bind_returns by reflexivity. simpl. fold means'.
  destruct (Req_dec_T (sumR means') 0); [reflexivity|].
  erewrite bind_returns by reflexivity. simpl.
  unfold range, len. rewrite length_insert, <- Hlen.
  apply (Pursuit_nudge_loop lr (<[k:=c + 1]> cs) means' [] ps).
  intros E. apply (f_equal length) in E. subst means'.
  rewrite length_insert in E. apply lookup_lt_Some in Hm. simpl in E. lia.
Qed.

(* ================================================================== *)
(** ** Sums and the constants of the formulas *)

Lemma eps0_pos : (0 < eps0)%R.
Proof. unfold eps0. lra. Qed.

Lemma sumZ_nonneg (l : list Z) : Forall (fun c => 0 <= c) l -> 0 <= sumZ l.
Proof. induction 1; simpl; lia. Qed.

Lemma denominator_pos (c : Z) : 0 <= c -> (0 < IZR c + eps0)%R.
Proof. intros Hc. apply IZR_le in Hc. pose proof eps0_pos. lra. Qed.

Lemma log_total_nonneg (T : Z) : 0 <= T -> (0 <= ln (IZR (T + 1)))%R.
Proof.
  intros HT. destruct (Z.eq_dec T 0) as [->|Hne].
  - change (0 + 1) with 1. rewrite ln_1. lra.
  - left. rewrite <- ln_1. apply ln_increasing; [lra|]. apply IZR_lt. lia.
Qed.

Lemma sqrt_argument_nonneg (T c : Z) :
  0 <= T -> 0 <= c -> (0 <= 2 * ln (IZR (T + 1)) / (IZR c + eps0))%R.
Proof.
  intros HT Hc. pose proof (log_total_nonneg T HT). pose proof (denominator_pos c Hc).
  apply Rmult_le_pos; [lra|]. left. apply Rinv_0_lt_compat. assumption.
Qed.

Lemma variance_bound_nonneg (T c : Z) (m2 : R) :
  0 <= c -> (0 <= m2)%R -> (0 <= variance_bound T c m2)%R.
Proof.
  intros Hc Hm. unfold variance_bound. pose proof (denominator_pos c Hc).
  apply Rplus_le_le_0_compat; [|apply sqrt_pos].
  apply Rmult_le_pos; [assumption|]. left. apply Rinv_0_lt_compat. assumption.
Qed.

Lemma capped_variance_nonneg (T c : Z) (m2 : R) :
  0 <= c -> (0 <= m2)%R -> (0 <= capped_variance T c m2)%R.
Proof.
  intros Hc Hm. unfold capped_variance.
  apply Rmin_glb; [lra|apply variance_bound_nonneg; assumption].
Qed.

(** A comprehension over [range(len(...))] whose body, at every arm,
    returns the element of [out] at that position without writing. *)
Lemma comprehension_arms_from {S B} (body : Z -> M S B) (j : nat) (out : list B) (s : S) :
  (forall i y, out !! i = Some y -> body (Z.of_nat (j + i)) s = Returns y s) ->
  comprehension body (seqZ (Z.of_nat j) (Z.of_nat (length out))) s = Returns out s.
Proof.
  revert j. induction out as [|y out IH]; intros j Hbody; [reflexivity|].
  rewrite seqZ_cons by (simpl; lia). cbn [comprehension].
  step (rewrite <- (Nat.add_0_r j); apply Hbody; reflexivity).
  replace (Z.succ (Z.of_nat j)) with (Z.of_nat (Datatypes.S j)) by lia.
  replace (Z.pred (Z.of_nat (length (y :: out)))) with (Z.of_nat (length out))
    by (simpl; lia).
  step (apply IH; intros i y' Hy'; replace (Datatypes.S j + i)%nat with (j + Datatypes.S i)%nat by lia;
        apply Hbody; exact Hy').
  reflexivity.
Qed.

Lemma comprehension_arms {S B} (body : Z -> M S B) (n : nat) (out : list B) (s : S) :
  length out = n ->
  (forall i y, out !! i = Some y -> body (Z.of_nat i) s = Returns y s) ->
  comprehension body (range (Z.of_nat n)) s = Returns out s.
Proof.
  intros <- Hbody. apply (comprehension_arms_from body 0 out s). exact Hbody.
Qed.

(* ================================================================== *)
(** ** [UCB1.update] *)

Lemma UCB1_update_ucbs_returns (cs : list Z) (ms us : list R) :
  Forall (fun c => 0 <= c) cs ->
  UCB1._update_ucbs (UCB1.mk cs ms us) =
    Returns tt (UCB1.mk cs ms (zip_add ms (confidence_bonus (sumZ cs) <$> cs))).
Proof.
  intros Hcs. unfold UCB1._update_ucbs.
  pose proof (sumZ_nonneg cs Hcs) as HT.
  step reflexivity. simpl fget.
  step (apply comprehension_arms with (out := confidence_bonus (sumZ cs) <$> cs);
        [apply length_fmap|]).
  - step reflexivity. reflexivity.
  - intros i y Hy. apply list_lookup_fmap_Some in Hy as (c & -> & Hc).
    assert (0 <= c) as Hc0 by (eapply Forall_lookup_1 in Hcs; eauto).
    unfold UCB1.bonus.
    step reflexivity. simpl fget.
    step (apply math_log_returns, IZR_lt; lia).
    step (apply load_returns with i;
          [apply lookup_lt_Some in Hc; rewrite py_index_nonneg, Nat2Z.id by (simpl; lia); reflexivity
          |exact Hc]).
    pose proof (denominator_pos c Hc0).
    step (apply truediv_returns; lra).
    apply math_sqrt_returns, sqrt_argument_nonneg; assumption.
Qed.

Lemma UCB1_update_returns (s : UCB1.t) (a : Z) (r : R) (k : nat) (c : Z) (m : R) :
  py_index (length (UCB1.counts s)) a = Some k ->
  py_index (length (UCB1.emp_means s)) a = Some k ->
  UCB1.counts s !! k = Some c ->
  UCB1.emp_means s !! k = Some m ->
  0 <= c ->
  Forall (fun c => 0 <= c) (UCB1.counts s) ->
  let counts' := <[k:=c + 1]> (UCB1.counts s) in
  let means' := <[k:=next_mean c m r]> (UCB1.emp_means s) in
  UCB1.update a r s =
    Returns tt (UCB1.mk counts' means'
                  (zip_add means' (confidence_bonus (sumZ counts') <$> counts'))).
Proof.
  intros Hkc Hkm Hc Hm Hc0 Hcs counts' means'. unfold UCB1.update.
  assert (Hn : c + 1 <> 0) by lia.
  run_update_mean UCB1.f_counts UCB1.f_emp_means Hkc Hkm Hc Hm Hn.
  destruct s as [cs ms us]. simpl in *.
  apply UCB1_update_ucbs_returns.
  apply Forall_insert; [assumption|lia].
Qed.

(* ================================================================== *)
(** ** [UCB1Tuned.update] *)

Lemma arm_index (n i : nat) : (i < n)%nat -> py_index n (Z.of_nat i) = Some i.
Proof. intros Hi. rewrite py_index_nonneg, Nat2Z.id by lia. reflexivity. Qed.

Lemma tuned_sqrt_argument_nonneg (T c : Z) (m2 : R) :
  0 <= T -> 0 <= c -> (0 <= m2)%R ->
  (0 <= ln (IZR (T + 1)) / (IZR c + eps0) * capped_variance T c m2)%R.
Proof.
  intros HT Hc Hm.
  pose proof (log_total_nonneg T HT). pose proof (denominator_pos c Hc).
  pose proof (capped_variance_nonneg T c m2 Hc Hm).
  apply Rmult_le_pos; [|assumption].
  apply Rmult_le_pos; [assumption|]. left. apply Rinv_0_lt_compat. assumption.
Qed.

Lemma UCB1Tuned_update_ucbs_returns (cs : list Z) (ms m2s us : list R) :
  Forall (fun c => 0 <= c) cs ->
  length m2s = length cs ->
  Forall (fun m => (0 <= m)%R) m2s ->
  UCB1Tuned._update_ucbs (UCB1Tuned.mk cs ms m2s us) =
    Returns tt (UCB1Tuned.mk cs ms m2s
                  (zip_add ms (zip_with (tuned_bonus (sumZ cs)) cs m2s))).
Proof.
  intros Hcs Hlen Hm2s. unfold UCB1Tuned._update_ucbs.
  pose proof (sumZ_nonneg cs Hcs) as HT.
  set (s := UCB1Tuned.mk cs ms m2s us).
  step reflexivity. simpl fget.
  step (apply comprehension_arms with (out := zip_with (variance_bound (sumZ cs)) cs m2s);
        [rewrite length_zip_with; lia|]).
  2:{ intros i y Hy. apply lookup_zip_with_Some in Hy as (c & m2 & -> & Hc & Hm2).
      assert (0 <= c) as Hc0 by (eapply Forall_lookup_1 in Hcs; eauto).
      pose proof (denominator_pos c Hc0).
      assert (Hload : load UCB1Tuned.f_counts (Z.of_nat i) s = Returns c s).
      { apply load_returns with i; [apply arm_index; apply lookup_lt_Some in Hc; exact Hc|exact Hc]. }
      unfold UCB1Tuned.V.
      step (apply load_returns with i;
            [apply arm_index; apply lookup_lt_Some in Hm2; exact Hm2|exact Hm2]).
      step (exact Hload).
      step (apply truediv_returns; lra).
      step reflexivity. simpl fget.
      step (apply math_log_returns, IZR_lt; lia).
      step (exact Hload).
      step (apply truediv_returns; lra).
      step (apply math_sqrt_returns, sqrt_argument_nonneg; assumption).
      reflexivity. }
  cbv zeta.
  step reflexivity. simpl fget.
  step (apply comprehension_arms with (out := zip_with (tuned_bonus (sumZ cs)) cs m2s);
        [rewrite length_zip_with; lia|]).
  2:{ intros i y Hy. apply lookup_zip_with_Some in Hy as (c & m2 & -> & Hc & Hm2).
      assert (0 <= c) as Hc0 by (eapply Forall_lookup_1 in Hcs; eauto).
      assert (0 <= m2)%R as Hm0 by (eapply Forall_lookup_1 in Hm2s; eauto).
      pose proof (denominator_pos c Hc0).
      unfold UCB1Tuned.bonus.
      step reflexivity. simpl fget.
      step (apply math_log_returns, IZR_lt; lia).
      step (apply load_returns with i;
            [apply arm_index; apply lookup_lt_Some in Hc; exact Hc|exact Hc]).
      step (apply truediv_returns; lra).
      step (apply getitem_returns with (k := i) (v := capped_variance (sumZ cs) c m2)).
      - apply math_sqrt_returns, tuned_sqrt_argument_nonneg; assumption.
      - apply arm_index. rewrite length_fmap, length_zip_with.
        apply lookup_lt_Some in Hc. lia.
      - rewrite list_lookup_fmap.
        rewrite (proj2 (lookup_zip_with_Some _ _ _ _ _)
                   (ex_intro _ c (ex_intro _ m2 (conj eq_refl (conj Hc Hm2))))).
        reflexivity. }
  step reflexivity. reflexivity.
Qed.

(** The accumulator grows by [c/(c+1) * (r - m)^2], which is not negative. *)
Lemma M2_increment_nonneg (c : Z) (m r : R) :
  0 <= c -> (0 <= (r - m) * (r - next_mean c m r))%R.
Proof.
  intros Hc. unfold next_mean. replace (c + 1 - 1) with c by lia.
  assert (0 < IZR (c + 1))%R as Hn by (apply IZR_lt; lia).
  assert (0 <= IZR c)%R as Hc' by (apply IZR_le; lia).
  replace ((r - m) * (r - (IZR c / IZR (c + 1) * m + 1 / IZR (c + 1) * r)))%R
    with (IZR c / IZR (c + 1) * ((r - m) * (r - m)))%R.
  - apply Rmult_le_pos; [|apply (Rle_0_sqr (r - m))].
    apply Rmult_le_pos; [assumption|]. left. apply Rinv_0_lt_compat. assumption.
  - rewrite plus_IZR in *. field. lra.
Qed.

Lemma UCB1Tuned_update_returns (s : UCB1Tuned.t) (a : Z) (r : R) (k : nat) (c : Z) (m m2 : R) :
  py_index (length (UCB1Tuned.counts s)) a = Some k ->
  py_index (length (UCB1Tuned.emp_means s)) a = Some k ->
  py_index (length (UCB1Tuned.M2 s)) a = Some k ->
  UCB1Tuned.counts s !! k = Some c ->
  UCB1Tuned.emp_means s !! k = Some m ->
  UCB1Tuned.M2 s !! k = Some m2 ->
  0 <= c ->
  Forall (fun c => 0 <= c) (UCB1Tuned.counts s) ->
  length (UCB1Tuned.M2 s) = length (UCB1Tuned.counts s) ->
  Forall (fun m => (0 <= m)%R) (UCB1Tuned.M2 s) ->
  let counts' := <[k:=c + 1]> (UCB1Tuned.counts s) in
  let means' := <[k:=next_mean c m r]> (UCB1Tuned.emp_means s) in
  let M2' := <[k:=(m2 + (r - m) * (r - next_mean c m r))%R]> (UCB1Tuned.M2 s) in
  UCB1Tuned.update a r s =
    Returns tt (UCB1Tuned.mk counts' means' M2'
                  (zip_add means' (zip_with (tuned_bonus (sumZ counts')) counts' M2'))).
Proof.
  intros Hkc Hkm Hk2 Hc Hm Hm2 Hc0 Hcs Hlen Hm2s counts' means' M2'.
  unfold UCB1Tuned.update.
  assert (Hn : c + 1 <> 0) by lia.
  run_update_mean UCB1Tuned.f_counts UCB1Tuned.f_emp_means Hkc Hkm Hc Hm Hn.
  destruct s as [cs ms m2s us]. simpl in *.
  step (apply load_returns with k; [exact Hk2|exact Hm2]).
  step (apply store_returns with (k := k); exact Hk2).
  simpl. apply UCB1Tuned_update_ucbs_returns.
  - apply Forall_insert; [assumption|lia].
  - subst counts' M2'. rewrite !length_insert. exact Hlen.
  - apply Forall_insert; [assumption|].
    pose proof (M2_increment_nonneg c m r Hc0).
    assert (0 <= m2)%R by (eapply Forall_lookup_1 in Hm2s; eauto). lra.
Qed.

(* ================================================================== *)
(** ** [ReinforcementComparison.update] *)

Lemma sumR_exp_pos (l : list R) : l <> [] -> (0 < sumR (math_exp <$> l))%R.
Proof.
  destruct l as [|x l]; [congruence|]. intros _. revert x.
  induction l as [|y l IH]; intros x; simpl.
  - pose proof (exp_pos x). unfold math_exp. lra.
  - specialize (IH y). simpl in IH. pose proof (exp_pos x). unfold math_exp in *. lra.
Qed.

Lemma ReinforcementComparison_update_returns (s : ReinforcementComparison.t)
    (a : Z) (r : R) (k : nat) (c : Z) (m p e : R) :
  py_index (length (ReinforcementComparison.counts s)) a = Some k ->
  py_index (length (ReinforcementComparison.emp_means s)) a = Some k ->
  py_index (length (ReinforcementComparison.preferences s)) a = Some k ->
  py_index (length (ReinforcementComparison.exp_rewards s)) a = Some k ->
  ReinforcementComparison.counts s !! k = Some c ->
  ReinforcementComparison.emp_means s !! k = Some m ->
  ReinforcementComparison.preferences s !! k = Some p ->
  ReinforcementComparison.exp_rewards s !! k = Some e ->
  c + 1 <> 0 ->
  let alpha := ReinforcementComparison.alpha s in
  let beta := ReinforcementComparison.beta s in
  let prefs' := <[k:=(p + beta * (r - e))%R]> (ReinforcementComparison.preferences s) in
  ReinforcementComparison.update a r s =
    Returns tt (ReinforcementComparison.mk alpha beta
                  (<[k:=c + 1]> (ReinforcementComparison.counts s))
                  (<[k:=next_mean c m r]> (ReinforcementComparison.emp_means s))
                  prefs'
                  (<[k:=((1 - alpha) * e + alpha * r)%R]> (ReinforcementComparison.exp_rewards s))
                  (softmax prefs')).
Proof.
  intros Hkc Hkm Hkp Hke Hc Hm Hp He Hn alpha beta prefs'.
  unfold ReinforcementComparison.update.
  run_update_mean ReinforcementComparison.f_counts ReinforcementComparison.f_emp_means
    Hkc Hkm Hc Hm Hn.
  destruct s as [al be cs ms ps es qs]. simpl in *.
  step (apply load_returns with k; [exact Hkp|exact Hp]).
  step reflexivity. simpl fget.
  step (apply load_returns with k; [exact Hke|exact He]).
  step (apply store_returns with (k := k); exact Hkp).
  step reflexivity. simpl fget.
  step (apply load_returns with k; [exact Hke|exact He]).
  step (apply store_returns with (k := k); exact Hke).
  step reflexivity. cbv zeta. simpl fget. fold prefs'.
  step (apply comprehension_returns with (g := fun x => (x / sumR (math_exp <$> prefs'))%R)).
  - reflexivity.
  - intros x _. apply truediv_returns.
    assert (prefs' <> []) as Hne.
    { intros E. apply (f_equal length) in E. subst prefs'.
      rewrite length_insert in E. apply lookup_lt_Some in Hp. simpl in E. lia. }
    pose proof (sumR_exp_pos prefs' Hne). lra.
Qed.

(* ================================================================== *)
(** ** [update] on an object of any class *)

Lemma wf_arm (n : nat) (st : strategy) (k : nat) :
  wf n st -> (k < n)%nat ->
  exists c m,
    counts st !! k = Some c /\ emp_means st !! k = Some m /\ 0 <= c.
Proof.
  intros (Hc & Hm & Hpos & _) Ha.
  destruct (lookup_lt_is_Some_2 (counts st) k) as [c Hc']; [lia|].
  destruct (lookup_lt_is_Some_2 (emp_means st) k) as [m Hm']; [lia|].
  exists c, m. repeat split; try assumption.
  eapply Forall_lookup_1 in Hpos; eauto.
Qed.

Lemma dispatch_returns {T A} (inj : T -> strategy) (m : M T A) (s s' : T) (x : A) :
  m s = Returns x s' -> dispatch inj m s = Returns x (inj s').
Proof. unfold dispatch. intros ->. reflexivity. Qed.

(** On an object for [n] arms, [update] with an index that addresses
    position [k] returns; it adds one to the count at [k], moves the
    mean at [k] to [next_mean], and leaves an object for [n] arms. *)
Lemma update_returns (n : nat) (st : strategy) (a : Z) (r : R) (k : nat) :
  wf n st -> py_index n a = Some k ->
  exists st' c m,
    counts st !! k = Some c /\ emp_means st !! k = Some m /\
    update a r st = Returns tt st' /\ wf n st' /\
    counts st' = <[k:=c + 1]> (counts st) /\
    emp_means st' = <[k:=next_mean c m r]> (emp_means st).
Proof.
  intros Hwf Hidx.
  pose proof (py_index_Some _ _ _ Hidx) as [Hk _].
  destruct (wf_arm n st k Hwf Hk) as (c & m & Hc & Hm & Hc0).
  destruct Hwf as (Hlc & Hlm & Hpos & Hrest).
  assert (Hn : c + 1 <> 0) by lia.
  assert (Hpos' : Forall (fun c => 0 <= c) (<[k:=c + 1]> (counts st)))
    by (apply Forall_insert; [assumption|lia]).
  destruct st as [s|s|s|s|s|s|s|s|s]; simpl in *.
  - eexists _, c, m. split; [exact Hc|]. split; [exact Hm|]. split.
    { apply dispatch_returns, Random_update_returns with (k := k) (c := c) (m := m);
        rewrite ?Hlc, ?Hlm; assumption. }
    unfold wf; simpl. rewrite !length_insert. repeat split; assumption.
  - eexists _, c, m. split; [exact Hc|]. split; [exact Hm|]. split.
    { apply dispatch_returns, EpsilonGreedy_update_returns with (k := k) (c := c) (m := m);
        rewrite ?Hlc, ?Hlm; assumption. }
    unfold wf; simpl. rewrite !length_insert. repeat split; assumption.
  - eexists _, c, m. split; [exact Hc|]. split; [exact Hm|]. split.
    { apply dispatch_returns,
        AnnealingEpsilonGreedy_update_returns with (k := k) (c := c) (m := m);
        rewrite ?Hlc, ?Hlm; assumption. }
    unfold wf; simpl. rewrite !length_insert. repeat split; assumption.
  - eexists _, c, m. split; [exact Hc|]. split; [exact Hm|]. split.
    { apply dispatch_returns, Boltzmann_update_returns with (k := k) (c := c) (m := m);
        rewrite ?Hlc, ?Hlm; assumption. }
    unfold wf; simpl. rewrite !length_insert. repeat split; assumption.
  - eexists _, c, m. split; [exact Hc|]. split; [exact Hm|]. split.
    { apply dispatch_returns,
        AnnealingBoltzmann_update_returns with (k := k) (c := c) (m := m);
        rewrite ?Hlc, ?Hlm; assumption. }
    unfold wf; simpl. rewrite !length_insert. repeat split; assumption.
  - eexists _, c, m. split; [exact Hc|]. split; [exact Hm|]. split.
    { apply dispatch_returns, Pursuit_update_returns with (k := k) (c := c) (m := m);
        rewrite ?Hlc, ?Hlm; assumption. }
    unfold wf; simpl. rewrite !length_insert. repeat split; try assumption.
    destruct (Req_dec_T _ _); [assumption|].
    rewrite <- Hrest. clear. generalize 0%nat.
    induction (Pursuit.probs s) as [|p ps IH]; intros j; simpl; [reflexivity|].
    rewrite IH. reflexivity.
  - destruct Hrest as [Hlp Hle].
    destruct (lookup_lt_is_Some_2 (ReinforcementComparison.preferences s) (k))
      as [p Hp]; [lia|].
    destruct (lookup_lt_is_Some_2 (ReinforcementComparison.exp_rewards s) (k))
      as [e He]; [lia|].
    eexists _, c, m. split; [exact Hc|]. split; [exact Hm|]. split.
    { apply dispatch_returns,
        ReinforcementComparison_update_returns
          with (k := k) (c := c) (m := m) (p := p) (e := e);
        rewrite ?Hlc, ?Hlm, ?Hlp, ?Hle; assumption. }
    unfold wf; simpl. rewrite !length_insert. repeat split; assumption.
  - eexists _, c, m. split; [exact Hc|]. split; [exact Hm|]. split.
    { apply dispatch_returns, UCB1_update_returns with (k := k) (c := c) (m := m);
        rewrite ?Hlc, ?Hlm; assumption. }
    unfold wf; simpl. unfold zip_add. rewrite length_zip_with, length_fmap, !length_insert.
    repeat split; try assumption. lia.
  - destruct Hrest as (Hl2 & Hlu & Hm2s).
    destruct (lookup_lt_is_Some_2 (UCB1Tuned.M2 s) (k)) as [m2 Hm2]; [lia|].
    eexists _, c, m. split; [exact Hc|]. split; [exact Hm|]. split.
    { apply dispatch_returns,
        UCB1Tuned_update_returns with (k := k) (c := c) (m := m) (m2 := m2);
        rewrite ?Hlc, ?Hlm, ?Hl2; try assumption. lia. }
    unfold wf; simpl. unfold zip_add. rewrite !length_zip_with, !length_insert.
    repeat split; try assumption; try lia.
    apply Forall_insert; [assumption|].
    pose proof (M2_increment_nonneg c m r Hc0).
    assert (0 <= m2)%R by (eapply Forall_lookup_1 in Hm2s; eauto). lra.
Qed.

(* ================================================================== *)
(** ** [reset] *)

Lemma uniform_probs_returns {S} (n_arms : Z) (s : S) :
  comprehension (fun _ => truediv 1 (IZR n_arms)) (range n_arms) s =
    Returns ((fun _ => (1 / IZR n_arms)%R) <$> range n_arms) s.
Proof.
  apply comprehension_returns. intros x Hx. apply truediv_returns.
  apply elem_of_seqZ in Hx. apply not_0_IZR. lia.
Qed.

Lemma sumR_const {A} (x : R) (l : list A) :
  sumR ((fun _ => x) <$> l) = (INR (length l) * x)%R.
Proof.
  induction l as [|y l IH]; [simpl; lra|].
  change (sumR ((fun _ => x) <$> y :: l)) with (x + sumR ((fun _ => x) <$> l))%R.
  rewrite IH. change (length (y :: l)) with (Datatypes.S (length l)).
  rewrite S_INR. lra.
Qed.

Lemma sumR_uniform (n_arms : Z) :
  0 < n_arms -> sumR ((fun _ => (1 / IZR n_arms)%R) <$> range n_arms) = 1%R.
Proof.
  intros Hn. rewrite sumR_const. unfold range. rewrite length_seqZ.
  rewrite INR_IZR_INZ, Z2Nat.id by lia.
  field. apply not_0_IZR. lia.
Qed.

Lemma zeros_nonneg (n_arms : Z) :
  Forall (fun c => 0 <= c) ((fun _ => 0) <$> range n_arms).
Proof. apply Forall_fmap, Forall_true. intros x. simpl. lia. Qed.

Lemma length_zeros {A} (x : A) (n_arms : Z) :
  length ((fun _ => x) <$> range n_arms) = Z.to_nat n_arms.
Proof. rewrite length_fmap. apply length_seqZ. Qed.

(** [reset] always returns, and leaves an object for [n_arms] arms
    whose counts and means are all zero and whose probability vector,
    if it has one and [n_arms] is positive, is uniform. *)
Lemma reset_returns (n_arms : Z) (st0 : strategy) :
  exists st1,
    reset n_arms st0 = Returns tt st1 /\ wf (Z.to_nat n_arms) st1 /\
    counts st1 = (fun _ => 0) <$> range n_arms /\
    emp_means st1 = (fun _ => 0%R) <$> range n_arms /\
    (0 < n_arms -> normalised st1).
Proof.
  pose proof (zeros_nonneg n_arms) as Hz.
  destruct st0 as [s|s|s|s|s|s|s|s|s]; unfold reset.
  - eexists. split; [apply dispatch_returns; reflexivity|].
    unfold wf, normalised; simpl. rewrite !length_zeros.
    repeat split; try assumption; discriminate.
  - eexists. split; [apply dispatch_returns; reflexivity|].
    unfold wf, normalised; simpl. rewrite !length_zeros.
    repeat split; try assumption; discriminate.
  - eexists. split; [apply dispatch_returns; reflexivity|].
    unfold wf, normalised; simpl. rewrite !length_zeros.
    repeat split; try assumption; discriminate.
  - eexists. split; [apply dispatch_returns; reflexivity|].
    unfold wf, normalised; simpl. rewrite !length_zeros.
    repeat split; try assumption; discriminate.
  - eexists. split; [apply dispatch_returns; reflexivity|].
    unfold wf, normalised; simpl. rewrite !length_zeros.
    repeat split; try assumption; discriminate.
  - eexists. split.
    { apply dispatch_returns. unfold Pursuit.reset.
      step reflexivity. step reflexivity.
      step (apply uniform_probs_returns). reflexivity. }
    unfold wf, normalised; simpl. rewrite !length_zeros.
    repeat split; try assumption.
    intros Hn ps [= <-]. apply sumR_uniform, Hn.
  - eexists. split.
    { apply dispatch_returns. unfold ReinforcementComparison.reset.
      do 4 step reflexivity.
      step (apply uniform_probs_returns). reflexivity. }
    unfold wf, normalised; simpl. rewrite !length_zeros.
    repeat split; try assumption.
    intros Hn ps [= <-]. apply sumR_uniform, Hn.
  - eexists. split; [apply dispatch_returns; reflexivity|].
    unfold wf, normalised; simpl. rewrite !length_zeros.
    repeat split; try assumption; discriminate.
  - eexists. split; [apply dispatch_returns; reflexivity|].
    unfold wf, normalised; simpl. rewrite !length_zeros.
    repeat split; try assumption; try discriminate.
    apply Forall_fmap, Forall_true. intros x. simpl. lra.
Qed.

(* ================================================================== *)
(** ** The mean invariant *)

Lemma sumR_snoc (rs : list R) (r : R) : sumR (rs ++ [r]) = (sumR rs + r)%R.
Proof. induction rs as [|x rs IH]; simpl; [lra|]. rewrite IH. lra. Qed.

Lemma mean_snoc (rs : list R) (r : R) :
  mean (rs ++ [r]) = next_mean (len rs) (mean rs) r.
Proof.
  unfold next_mean. replace (len rs + 1 - 1) with (len rs) by lia.
  destruct rs as [|x rs].
  - simpl. change (len []) with 0. change (len [r]) with 1. change (0 + 1) with 1. lra.
  - change ((x :: rs) ++ [r]) with (x :: (rs ++ [r])).
    unfold mean. change (x :: (rs ++ [r])) with ((x :: rs) ++ [r]).
    rewrite sumR_snoc. unfold len. rewrite length_app. simpl length.
    replace (Z.of_nat (Datatypes.S (length rs) + 1)) with (Z.of_nat (Datatypes.S (length rs)) + 1)
      by lia.
    set (c := Z.of_nat (Datatypes.S (length rs))).
    assert (0 < IZR c)%R by (apply IZR_lt; subst c; lia).
    rewrite plus_IZR. field. lra.
Qed.

Lemma rewards_of_snoc_same (arm : Z) (history : list (Z * R)) (r : R) :
  rewards_of arm (history ++ [(arm, r)]) = rewards_of arm history ++ [r].
Proof.
  unfold rewards_of. rewrite list.filter_app, fmap_app. f_equal.
  rewrite filter_cons_True by reflexivity. reflexivity.
Qed.

Lemma rewards_of_snoc_other (arm a : Z) (history : list (Z * R)) (r : R) :
  a <> arm -> rewards_of arm (history ++ [(a, r)]) = rewards_of arm history.
Proof.
  intros Hne. unfold rewards_of. rewrite list.filter_app, fmap_app.
  rewrite filter_cons_False by (simpl; exact Hne).
  rewrite filter_nil. simpl. apply app_nil_r.
Qed.

(** One valid [update] keeps the statistics in step with the history. *)
Lemma update_tracks (n_arms : Z) (history : list (Z * R)) (st : strategy) (a : Z) (r : R) :
  wf (Z.to_nat n_arms) st -> tracks n_arms history st -> 0 <= a < n_arms ->
  exists st',
    update a r st = Returns tt st' /\ wf (Z.to_nat n_arms) st' /\
    tracks n_arms (history ++ [(a, r)]) st'.
Proof.
  intros Hwf Htr Ha.
  destruct (update_returns (Z.to_nat n_arms) st a r (Z.to_nat a) Hwf) as
    (st' & c & m & Hc & Hm & Hup & Hwf' & Hcs & Hms); [apply py_index_nonneg; lia|].
  exists st'. split; [exact Hup|]. split; [exact Hwf'|].
  destruct (Htr a Ha) as [Hca Hma].
  rewrite Hc in Hca. rewrite Hm in Hma. injection Hca as ->. injection Hma as ->.
  intros arm Harm. rewrite Hcs, Hms.
  destruct (Z.eq_dec arm a) as [->|Hne].
  - rewrite rewards_of_snoc_same, mean_snoc.
    rewrite !list_lookup_insert_eq
      by (first [apply lookup_lt_Some in Hc; exact Hc|apply lookup_lt_Some in Hm; exact Hm]).
    split; [|reflexivity]. f_equal. unfold len. rewrite length_app. simpl. lia.
  - rewrite rewards_of_snoc_other by congruence.
    rewrite !list_lookup_insert_ne by lia. apply Htr, Harm.
Qed.

Lemma updates_tracks (n_arms : Z) (trace history : list (Z * R)) (st : strategy) :
  wf (Z.to_nat n_arms) st -> tracks n_arms history st -> Forall (valid n_arms) trace ->
  exists st',
    updates trace st = Returns tt st' /\ wf (Z.to_nat n_arms) st' /\
    tracks n_arms (history ++ trace) st'.
Proof.
  revert history st. induction trace as [|[a r] trace IH]; intros history st Hwf Htr Hval.
  - exists st. rewrite app_nil_r. split; [reflexivity|]. split; assumption.
  - inversion Hval as [|x l Ha Hval']; subst. clear Hval. rename Hval' into Hval.
    unfold valid in Ha. simpl in Ha.
    destruct (update_tracks n_arms history st a r Hwf Htr Ha) as (st1 & Hup & Hwf1 & Htr1).
    destruct (IH (history ++ [(a, r)]) st1 Hwf1 Htr1 Hval) as (st' & Hrun & Hwf' & Htr').
    exists st'. rewrite <- app_assoc in Htr'. split; [|split; assumption].
    unfold updates. cbn [for_each]. step (exact Hup). exact Hrun.
Qed.

Lemma reset_tracks (n_arms : Z) (st1 : strategy) :
  counts st1 = (fun _ => 0) <$> range n_arms ->
  emp_means st1 = (fun _ => 0%R) <$> range n_arms ->
  tracks n_arms [] st1.
Proof.
  intros Hc Hm arm Harm. rewrite Hc, Hm, !list_lookup_fmap. unfold range.
  rewrite lookup_seqZ_lt by lia. split; reflexivity.
Qed.

(** C1. For every class: after a fresh [reset(n_arms)] and any
    sequence of [update] calls with valid arms, all calls return, and
    for every arm [count[arm]] is the number of rewards the arm
    received and [emp_means[arm]] is their arithmetic mean in exact
    arithmetic (the reset value 0 for an arm that received none),
    whatever the interleaving with updates of other arms. *)
Theorem mean_invariant (st0 : strategy) (n_arms : Z) (trace : list (Z * R)) :
  Forall (valid n_arms) trace ->
  exists st1 st,
    reset n_arms st0 = Returns tt st1 /\
    updates trace st1 = Returns tt st /\
    forall arm, 0 <= arm < n_arms ->
      counts st !! Z.to_nat arm = Some (len (rewards_of arm trace)) /\
      emp_means st !! Z.to_nat arm = Some (mean (rewards_of arm trace)).
Proof.
  intros Hval.
  destruct (reset_returns n_arms st0) as (st1 & Hreset & Hwf & Hc & Hm & _).
  destruct (updates_tracks n_arms trace [] st1 Hwf (reset_tracks n_arms st1 Hc Hm) Hval)
    as (st & Hrun & _ & Htr).
  exists st1, st. split; [exact Hreset|]. split; [exact Hrun|]. exact Htr.
Qed.

Lemma mean_invariant_witness :
  Forall (valid 2) [(0, 1%R); (1, 3%R); (0, 2%R)] /\
  exists st1 st,
    reset 2 (OfRandom (Random.mk [] [])) = Returns tt st1 /\
    updates [(0, 1%R); (1, 3%R); (0, 2%R)] st1 = Returns tt st /\
    forall arm, 0 <= arm < 2 ->
      counts st !! Z.to_nat arm = Some (len (rewards_of arm [(0, 1%R); (1, 3%R); (0, 2%R)])) /\
      emp_means st !! Z.to_nat arm = Some (mean (rewards_of arm [(0, 1%R); (1, 3%R); (0, 2%R)])).
Proof.
  assert (H : Forall (valid 2) [(0, 1%R); (1, 3%R); (0, 2%R)])
    by (repeat constructor; simpl; lia).
  split; [exact H|].
  apply (mean_invariant (OfRandom (Random.mk [] [])) 2 [(0, 1%R); (1, 3%R); (0, 2%R)] H).
Defined.

(* ================================================================== *)
(** ** Normalisation of the probability vector *)

Lemma sumR_nudged (lr : R) (best j : nat) (ps : list R) :
  sumR (nudged lr best j ps) =
  (sumR ps + lr * ((if (j <=? best)%nat && (best <? j + length ps)%nat then 1 else 0)
                   - sumR ps))%R.
Proof.
  revert j. induction ps as [|p ps IH]; intros j.
  - simpl. destruct (Nat.leb_spec j best), (Nat.ltb_spec best (j + 0)); simpl; try lra; lia.
  - cbn [nudged length].
    change (sumR (?x :: ?l)) with (x + sumR l)%R.
    rewrite IH.
    destruct (Nat.eqb_spec j best) as [E|E];
      destruct (Nat.leb_spec j best), (Nat.ltb_spec best (j + Datatypes.S (length ps)));
      destruct (Nat.leb_spec (Datatypes.S j) best),
        (Nat.ltb_spec best (Datatypes.S j + length ps));
      cbn [andb]; try lia; lra.
Qed.

Lemma sumR_div (s : R) (l : list R) :
  sumR ((fun e => e / s)%R <$> l) = (sumR l / s)%R.
Proof.
  induction l as [|x l IH]; [simpl; unfold Rdiv; ring|].
  change (sumR ((fun e => e / s)%R <$> x :: l))
    with (x / s + sumR ((fun e => e / s)%R <$> l))%R.
  change (sumR (x :: l)) with (x + sumR l)%R.
  rewrite IH. unfold Rdiv. ring.
Qed.

Lemma sumR_softmax (prefs : list R) : prefs <> [] -> sumR (softmax prefs) = 1%R.
Proof.
  intros Hne. unfold softmax. cbv zeta. rewrite sumR_div.
  pose proof (sumR_exp_pos prefs Hne). field. lra.
Qed.

(** The class of an object never changes. *)
Lemma dispatch_Returns_inv {T A} (inj : T -> strategy) (m : M T A) (s : T) (x : A) st' :
  dispatch inj m s = Returns x st' -> exists s', m s = Returns x s' /\ st' = inj s'.
Proof.
  unfold dispatch. destruct (m s) as [y s'|e s']; [|discriminate].
  intros [= <- <-]. exists s'. split; reflexivity.
Qed.

Lemma update_keeps_normalised (n : nat) (st st' : strategy) (a : Z) (r : R) :
  wf n st -> 0 <= a < Z.of_nat n -> normalised st ->
  update a r st = Returns tt st' ->
  normalised st' /\ (is_Some (probs st) -> is_Some (probs st')).
Proof.
  intros Hwf Ha Hnorm Hup.
  destruct (wf_arm n st (Z.to_nat a) Hwf) as (c & m & Hc & Hm & Hc0); [lia|].
  destruct Hwf as (Hlc & Hlm & Hpos & Hrest).
  assert (Hn : c + 1 <> 0) by lia.
  assert (Hidx : py_index n a = Some (Z.to_nat a)) by (apply py_index_nonneg; exact Ha).
  unfold normalised in *.
  destruct st as [s|s|s|s|s|s|s|s|s]; simpl in *;
    apply dispatch_Returns_inv in Hup as (s' & Hup & ->); simpl;
    try (split; [intros ps; discriminate|intros [x Hx]; discriminate]).
  - rewrite (Pursuit_update_returns s a r (Z.to_nat a) c m) in Hup
      by (rewrite ?Hlc, ?Hlm; assumption).
    injection Hup as <-. simpl. split; [|eauto].
    intros ps [= <-]. specialize (Hnorm _ eq_refl).
    destruct (Req_dec_T _ _); [exact Hnorm|].
    rewrite sumR_nudged, Hnorm.
    set (means' := <[Z.to_nat a:=next_mean c m r]> (Pursuit.emp_means s)).
    assert (argmax means' < length means')%nat as Hbest.
    { apply argmax_lt. intros E. apply (f_equal length) in E. subst means'.
      rewrite length_insert in E. simpl in E. lia. }
    subst means'. rewrite length_insert in Hbest.
    destruct (Nat.leb_spec 0 (argmax (<[Z.to_nat a:=next_mean c m r]> (Pursuit.emp_means s))));
      [|lia].
    destruct (Nat.ltb_spec (argmax (<[Z.to_nat a:=next_mean c m r]> (Pursuit.emp_means s)))
                (0 + length (Pursuit.probs s))); [|lia].
    simpl. lra.
  - destruct Hrest as [Hlp Hle].
    destruct (lookup_lt_is_Some_2 (ReinforcementComparison.preferences s) (Z.to_nat a))
      as [p Hp]; [lia|].
    destruct (lookup_lt_is_Some_2 (ReinforcementComparison.exp_rewards s) (Z.to_nat a))
      as [e He]; [lia|].
    rewrite (ReinforcementComparison_update_returns s a r (Z.to_nat a) c m p e) in Hup
      by (rewrite ?Hlc, ?Hlm, ?Hlp, ?Hle; assumption).
    injection Hup as <-. simpl. split; [|eauto].
    intros ps [= <-]. apply sumR_softmax.
    intros E. apply (f_equal length) in E. rewrite length_insert in E. simpl in E. lia.
Qed.

Lemma updates_normalised (n_arms : Z) (trace : list (Z * R)) (st : strategy) :
  wf (Z.to_nat n_arms) st -> normalised st -> is_Some (probs st) ->
  Forall (valid n_arms) trace ->
  exists st' ps,
    updates trace st = Returns tt st' /\ probs st' = Some ps /\ sumR ps = 1%R.
Proof.
  revert st. induction trace as [|[a r] trace IH]; intros st Hwf Hnorm [ps Hps] Hval.
  - exists st, ps. split; [reflexivity|]. split; [exact Hps|]. apply Hnorm, Hps.
  - inversion Hval as [|x l Ha Hval']; subst. unfold valid in Ha. simpl in Ha.
    destruct (update_returns (Z.to_nat n_arms) st a r (Z.to_nat a) Hwf) as
      (st1 & c & m & _ & _ & Hup & Hwf1 & _); [apply py_index_nonneg; lia|].
    destruct (update_keeps_normalised (Z.to_nat n_arms) st st1 a r Hwf) as [Hnorm1 Hsome];
      [lia|assumption|assumption|].
    destruct (IH st1 Hwf1 Hnorm1 (Hsome (ex_intro _ ps Hps)) Hval') as (st' & ps' & Hrun & Hps' & Hsum).
    exists st', ps'. split; [|split; assumption].
    unfold updates. cbn [for_each]. step (exact Hup). exact Hrun.
Qed.

(** C5. For Pursuit and ReinforcementComparison (the classes that
    store a probability vector): from the state produced by
    [reset(n_arms)], after every non-empty sequence of valid [update]
    calls, all calls have returned and the stored vector sums to
    exactly 1 in exact arithmetic. *)
Theorem probabilities_sum_to_one (st0 : strategy) (n_arms : Z) (trace : list (Z * R)) :
  is_Some (probs st0) -> trace <> [] -> Forall (valid n_arms) trace ->
  exists st1 st ps,
    reset n_arms st0 = Returns tt st1 /\
    updates trace st1 = Returns tt st /\
    probs st = Some ps /\ sumR ps = 1%R.
Proof.
  intros Hclass Hne Hval.
  assert (0 < n_arms) as Hn.
  { destruct trace as [|[a r] trace]; [congruence|].
    inversion Hval as [|x l Ha _]; subst. unfold valid in Ha. simpl in Ha. lia. }
  destruct (reset_returns n_arms st0) as (st1 & Hreset & Hwf & _ & _ & Hnorm).
  assert (is_Some (probs st1)) as Hclass1.
  { destruct st0 as [s|s|s|s|s|s|s|s|s]; simpl in Hclass;
      try (destruct Hclass; discriminate);
      apply dispatch_Returns_inv in Hreset as (s' & _ & ->); simpl; eauto. }
  destruct (updates_normalised n_arms trace st1 Hwf (Hnorm Hn) Hclass1 Hval)
    as (st & ps & Hrun & Hps & Hsum).
  exists st1, st, ps. repeat split; assumption.
Qed.

Lemma probabilities_sum_to_one_witness :
  exists st1 st ps,
    reset 3 (OfPursuit (Pursuit.mk (1 / 10) [] [] [])) = Returns tt st1 /\
    updates [(0, 1%R); (2, 5%R)] st1 = Returns tt st /\
    probs st = Some ps /\ sumR ps = 1%R.
Proof.
  apply (probabilities_sum_to_one (OfPursuit (Pursuit.mk (1 / 10) [] [] [])) 3
           [(0, 1%R); (2, 5%R)]).
  - simpl. eauto.
  - discriminate.
  - repeat constructor; simpl; lia.
Defined.

(* ================================================================== *)
(** ** The confidence values of UCB1Tuned *)

(** C6. On a UCB1Tuned object for [n] arms (as [reset] and valid
    updates leave it), [update] with a valid arm returns, and
    afterwards, for each arm, the stored [ucbs[arm]] is
    [emp_means[arm]] plus
    [sqrt(ln(T+1)/(count+1e-7) * min(1/4, V))] with
    [V = M2/(count+1e-7) + sqrt(2*ln(T+1)/(count+1e-7))] and [T] the
    sum of all counts; the variance term [min(1/4, V)] that feeds the
    bonus is at most 1/4. *)
Theorem tuned_ucbs_formula (n : nat) (s : UCB1Tuned.t) (a : Z) (r : R) :
  wf n (OfUCB1Tuned s) -> 0 <= a < Z.of_nat n ->
  exists s',
    UCB1Tuned.update a r s = Returns tt s' /\
    forall arm, (arm < n)%nat ->
      exists c e m2,
        UCB1Tuned.counts s' !! arm = Some c /\
        UCB1Tuned.emp_means s' !! arm = Some e /\
        UCB1Tuned.M2 s' !! arm = Some m2 /\
        UCB1Tuned.ucbs s' !! arm =
          Some (e + tuned_bonus (sumZ (UCB1Tuned.counts s')) c m2)%R /\
        (capped_variance (sumZ (UCB1Tuned.counts s')) c m2 <= 1 / 4)%R.
Proof.
  intros Hwf Ha.
  destruct (wf_arm n _ (Z.to_nat a) Hwf) as (c0 & m0 & Hc & Hm & Hc0); [lia|].
  destruct Hwf as (Hlc & Hlm & Hpos & Hl2 & Hlu & Hm2s). simpl in *.
  destruct (lookup_lt_is_Some_2 (UCB1Tuned.M2 s) (Z.to_nat a)) as [q Hq]; [lia|].
  assert (Hidx : py_index n a = Some (Z.to_nat a)) by (apply py_index_nonneg; exact Ha).
  eexists. split.
  { apply UCB1Tuned_update_returns with (k := Z.to_nat a) (c := c0) (m := m0) (m2 := q);
      rewrite ?Hlc, ?Hlm, ?Hl2; try assumption. reflexivity. }
  cbv zeta. simpl. intros arm Harm.
  set (counts' := <[Z.to_nat a:=c0 + 1]> (UCB1Tuned.counts s)).
  set (means' := <[Z.to_nat a:=next_mean c0 m0 r]> (UCB1Tuned.emp_means s)).
  set (M2' := <[Z.to_nat a:=(q + (r - m0) * (r - next_mean c0 m0 r))%R]> (UCB1Tuned.M2 s)).
  destruct (lookup_lt_is_Some_2 counts' arm) as [c Hc']; [subst counts'; rewrite length_insert; lia|].
  destruct (lookup_lt_is_Some_2 means' arm) as [e He']; [subst means'; rewrite length_insert; lia|].
  destruct (lookup_lt_is_Some_2 M2' arm) as [m2 Hm2']; [subst M2'; rewrite length_insert; lia|].
  exists c, e, m2. repeat split; try assumption.
  - unfold zip_add. apply lookup_zip_with_Some.
    exists e, (tuned_bonus (sumZ counts') c m2). repeat split; try assumption.
    apply lookup_zip_with_Some. exists c, m2. repeat split; assumption.
  - unfold capped_variance. apply Rmin_l.
Qed.

Lemma tuned_ucbs_formula_witness :
  exists s',
    UCB1Tuned.update 1 1 (UCB1Tuned.mk [1; 0] [0%R; 0%R] [0%R; 0%R] [0%R; 0%R]) = Returns tt s' /\
    forall arm, (arm < 2)%nat ->
      exists c e m2,
        UCB1Tuned.counts s' !! arm = Some c /\
        UCB1Tuned.emp_means s' !! arm = Some e /\
        UCB1Tuned.M2 s' !! arm = Some m2 /\
        UCB1Tuned.ucbs s' !! arm =
          Some (e + tuned_bonus (sumZ (UCB1Tuned.counts s')) c m2)%R /\
        (capped_variance (sumZ (UCB1Tuned.counts s')) c m2 <= 1 / 4)%R.
Proof.
  apply (tuned_ucbs_formula 2 (UCB1Tuned.mk [1; 0] [0%R; 0%R] [0%R; 0%R] [0%R; 0%R]) 1 1).
  - unfold wf. simpl. repeat split; try reflexivity.
    + repeat constructor; lia.
    + repeat constructor; lra.
  - lia.
Defined.

(* ================================================================== *)
(** ** The annealing schedule *)

Lemma annealed_returns {S} (fc : field S (list Z)) (s : S) :
  0 <= sumZ (fget fc s) ->
  annealed fc s = Returns (1 / ln (IZR (sumZ (fget fc s) + 1) + eps0))%R s /\
  (0 < ln (IZR (sumZ (fget fc s) + 1) + eps0))%R.
Proof.
  intros HT. pose proof eps0_pos.
  assert (1 <= IZR (sumZ (fget fc s) + 1))%R by (apply IZR_le; lia).
  assert (0 < ln (IZR (sumZ (fget fc s) + 1) + eps0))%R as Hln.
  { rewrite <- ln_1. apply ln_increasing; lra. }
  split; [|exact Hln].
  unfold annealed. step reflexivity. cbv zeta.
  step (apply math_log_returns; lra).
  apply truediv_returns. lra.
Qed.

(** C7. The epsilon AnnealingEpsilonGreedy computes at selection time,
    [1/ln(t + 1e-7)] with [t] the sum of all counts plus one, is
    computed without error and is strictly decreasing in the total
    pull count: of two objects with [1 <= t1 < t2], the second gets the
    strictly smaller epsilon. *)
Theorem annealed_epsilon_strictly_decreasing (s1 s2 : AnnealingEpsilonGreedy.t) :
  let t1 := sumZ (AnnealingEpsilonGreedy.counts s1) + 1 in
  let t2 := sumZ (AnnealingEpsilonGreedy.counts s2) + 1 in
  1 <= t1 -> t1 < t2 ->
  exists e1 e2,
    annealed AnnealingEpsilonGreedy.f_counts s1 = Returns e1 s1 /\
    annealed AnnealingEpsilonGreedy.f_counts s2 = Returns e2 s2 /\
    e1 = (1 / ln (IZR t1 + eps0))%R /\ e2 = (1 / ln (IZR t2 + eps0))%R /\
    (e2 < e1)%R.
Proof.
  intros t1 t2 H1 H12.
  destruct (annealed_returns AnnealingEpsilonGreedy.f_counts s1) as [R1 L1]; [simpl; lia|].
  destruct (annealed_returns AnnealingEpsilonGreedy.f_counts s2) as [R2 L2]; [simpl; lia|].
  simpl in R1, R2, L1, L2. fold t1 in R1, L1. fold t2 in R2, L2.
  eexists _, _. split; [exact R1|]. split; [exact R2|]. split; [reflexivity|]. split; [reflexivity|].
  unfold Rdiv. rewrite !Rmult_1_l.
  apply Rinv_0_lt_contravar; [exact L1|].
  pose proof eps0_pos.
  apply ln_increasing.
  - assert (1 <= IZR t1)%R by (apply IZR_le; lia). lra.
  - assert (IZR t1 < IZR t2)%R by (apply IZR_lt; lia). lra.
Qed.

Lemma annealed_epsilon_strictly_decreasing_witness :
  exists e1 e2,
    annealed AnnealingEpsilonGreedy.f_counts (AnnealingEpsilonGreedy.mk [1; 0] [1%R; 0%R])
      = Returns e1 (AnnealingEpsilonGreedy.mk [1; 0] [1%R; 0%R]) /\
    annealed AnnealingEpsilonGreedy.f_counts (AnnealingEpsilonGreedy.mk [1; 2] [1%R; 0%R])
      = Returns e2 (AnnealingEpsilonGreedy.mk [1; 2] [1%R; 0%R]) /\
    e1 = (1 / ln (IZR 2 + eps0))%R /\ e2 = (1 / ln (IZR 4 + eps0))%R /\
    (e2 < e1)%R.
Proof.
  apply (annealed_epsilon_strictly_decreasing
           (AnnealingEpsilonGreedy.mk [1; 0] [1%R; 0%R])
           (AnnealingEpsilonGreedy.mk [1; 2] [1%R; 0%R])); simpl; lia.
Defined.

(* ================================================================== *)
(** ** Indices [update] rejects, and indices it accepts *)

Lemma dispatch_raises {T A} (inj : T -> strategy) (m : M T A) (s s' : T) (e : exn) :
  m s = Raises e s' -> dispatch inj m s = Raises e (inj s').
Proof. unfold dispatch. intros ->. reflexivity. Qed.

Lemma update_index_error (st : strategy) (a : Z) (r : R) :
  py_index (length (counts st)) a = None -> update a r st = Raises IndexError st.
Proof.
  intros Hidx.
  destruct st as [s|s|s|s|s|s|s|s|s]; simpl in Hidx; unfold update;
    apply dispatch_raises, bind_raises, update_mean_index_error; exact Hidx.
Qed.

(** C3, as the code has it.  For every class and every state of the
    object: an index [chosen_arm >= len(counts)] or
    [chosen_arm < -len(counts)] (so every index while the lists are
    still empty) makes [update] raise [IndexError] and leaves the
    object as it was, so no list grows.  A negative index in
    [-n .. -1] is not rejected: on an object for [n] arms [update]
    returns and records the reward at position [n + chosen_arm]. *)
Theorem update_index_discipline (n : nat) (st : strategy) (a : Z) (r : R) :
  (a < - len (counts st) \/ len (counts st) <= a ->
   update a r st = Raises IndexError st) /\
  (wf n st -> - Z.of_nat n <= a < 0 ->
   exists st' c m,
     counts st !! Z.to_nat (Z.of_nat n + a) = Some c /\
     emp_means st !! Z.to_nat (Z.of_nat n + a) = Some m /\
     update a r st = Returns tt st' /\
     counts st' = <[Z.to_nat (Z.of_nat n + a):=c + 1]> (counts st) /\
     emp_means st' = <[Z.to_nat (Z.of_nat n + a):=next_mean c m r]> (emp_means st)).
Proof.
  split.
  - intros Ha. apply update_index_error, py_index_out_of_range. exact Ha.
  - intros Hwf Ha.
    destruct (update_returns n st a r (Z.to_nat (Z.of_nat n + a)) Hwf)
      as (st' & c & m & Hc & Hm & Hup & _ & Hcs & Hms);
      [apply py_index_negative; exact Ha|].
    exists st', c, m. repeat split; assumption.
Qed.

Lemma update_index_discipline_witness :
  (3 < - len [0; 0] \/ len [0; 0] <= 3) /\
  update 3 1 (OfRandom (Random.mk [0; 0] [0%R; 0%R])) =
    Raises IndexError (OfRandom (Random.mk [0; 0] [0%R; 0%R])) /\
  wf 2 (OfRandom (Random.mk [0; 0] [0%R; 0%R])) /\
  - Z.of_nat 2 <= -1 < 0 /\
  exists st' c m,
    [0; 0] !! Z.to_nat (Z.of_nat 2 + -1) = Some c /\
    [0%R; 0%R] !! Z.to_nat (Z.of_nat 2 + -1) = Some m /\
    update (-1) 1 (OfRandom (Random.mk [0; 0] [0%R; 0%R])) = Returns tt st' /\
    counts st' = <[Z.to_nat (Z.of_nat 2 + -1):=c + 1]> [0; 0] /\
    emp_means st' = <[Z.to_nat (Z.of_nat 2 + -1):=next_mean c m 1]> [0%R; 0%R].
Proof.
  assert (H1 : 3 < - len [0; 0] \/ len [0; 0] <= 3) by (right; unfold len; simpl; lia).
  assert (H2 : wf 2 (OfRandom (Random.mk [0; 0] [0%R; 0%R])))
    by (unfold wf; simpl; repeat split; repeat constructor; lia).
  assert (H3 : - Z.of_nat 2 <= -1 < 0) by lia.
  split; [exact H1|].
  split; [exact (proj1 (update_index_discipline 2 (OfRandom (Random.mk [0; 0] [0%R; 0%R])) 3 1) H1)|].
  split; [exact H2|]. split; [exact H3|].
  exact (proj2 (update_index_discipline 2 (OfRandom (Random.mk [0; 0] [0%R; 0%R])) (-1) 1) H2 H3).
Defined.

Lemma next_mean_first (r : R) : next_mean 0 0 r = r.
Proof. unfold next_mean. change (0 + 1 - 1) with 0. change (0 + 1) with 1. lra. Qed.

(** The index [-1] on a freshly reset three-arm object is neither
    rejected nor harmless: [update] returns and arm 2 gets the reward. *)
Lemma negative_index_wraps :
  exists st3 st,
    reset 3 (OfRandom (Random.mk [] [])) = Returns tt st3 /\
    update (-1) 5 st3 = Returns tt st /\
    counts st = [0; 0; 1] /\ emp_means st !! 2%nat = Some 5%R.
Proof.
  eexists _, _. split; [reflexivity|]. split.
  - apply dispatch_returns.
    apply Random_update_returns with (k := 2%nat) (c := 0) (m := 0%R);
      first [reflexivity|lia].
  - split; [reflexivity|]. simpl. f_equal. apply next_mean_first.
Qed.

(* ================================================================== *)
(** ** What [update] leaves of the other arms *)

#[export] Instance others_kept_preorder {S : Type}
    (fc : field S (list Z)) (fm : field S (list R)) (k : nat) :
  PreOrder (others_kept fc fm k).
Proof.
  split.
  - intros s b _. split; reflexivity.
  - intros s1 s2 s3 H12 H23 b Hb.
    destruct (H12 b Hb) as [<- <-]. apply H23, Hb.
Qed.

Section OthersKept.
Context {S : Type} (fc : field S (list Z)) (fm : field S (list R)).
Hypothesis fc_get_set : forall v s, fget fc (fset fc v s) = v.
Hypothesis fm_get_set : forall v s, fget fm (fset fm v s) = v.
Hypothesis fm_after_fc : forall v s, fget fm (fset fc v s) = fget fm s.
Hypothesis fc_after_fm : forall v s, fget fc (fset fm v s) = fget fc s.

Lemma update_mean_others_kept (a : Z) (r : R) :
  0 <= a -> preserves (others_kept fc fm (Z.to_nat a)) (update_mean fc fm a r).
Proof.
  intros Ha. unfold update_mean.
  apply preserves_bind; [apply _|apply preserves_load, _|intros c].
  apply preserves_bind; [apply _| |intros _].
  { apply preserves_store; [apply _|]. intros s k Hk b Hb.
    apply py_index_Some in Hk as (_ & Hk & _). specialize (Hk Ha). subst k.
    rewrite fc_get_set, fm_after_fc, list_lookup_insert_ne by congruence.
    split; reflexivity. }
  apply preserves_bind; [apply _|apply preserves_load, _|intros n].
  apply preserves_bind; [apply _|apply preserves_load, _|intros value].
  apply preserves_bind; [apply _|apply preserves_truediv, _|intros w_old].
  apply preserves_bind; [apply _|apply preserves_truediv, _|intros w_new].
  apply preserves_bind; [apply _| |intros _; apply preserves_ret, _].
  apply preserves_store; [apply _|]. intros s k Hk b Hb.
  apply py_index_Some in Hk as (_ & Hk & _). specialize (Hk Ha). subst k.
  rewrite fm_get_set, fc_after_fm, list_lookup_insert_ne by congruence.
  split; reflexivity.
Qed.

End OthersKept.

(** Steps that write neither [counts] nor [emp_means]. *)
Ltac frame_others :=
  repeat match goal with
    | |- preserves _ (update_mean _ _ _ _) =>
        apply update_mean_others_kept; solve [reflexivity|assumption]
    | |- preserves _ (store _ _ _) =>
        apply preserves_store; [typeclasses eauto|intros ? ? ? ? ?; split; reflexivity]
    | |- preserves _ (assign _ _) =>
        apply preserves_assign; intros ? ? ?; split; reflexivity
    | |- preserves _ (bind _ _) => apply preserves_bind; [typeclasses eauto| |intros ?]
    | |- preserves _ (comprehension _ _) =>
        apply preserves_comprehension; [typeclasses eauto|intros ?]
    | |- preserves _ (for_each _ _) =>
        apply preserves_for_each; [typeclasses eauto|intros ?]
    | |- preserves _ (if ?b then _ else _) => destruct b
    | |- preserves _ _ => solve [eauto with frame typeclass_instances]
    end.

Lemma Random_update_others_kept (a : Z) (r : R) :
  0 <= a ->
  preserves (others_kept Random.f_counts Random.f_emp_means (Z.to_nat a)) (Random.update a r).
Proof. intros Ha. unfold Random.update. frame_others. Qed.

Lemma EpsilonGreedy_update_others_kept (a : Z) (r : R) :
  0 <= a ->
  preserves (others_kept EpsilonGreedy.f_counts EpsilonGreedy.f_emp_means (Z.to_nat a))
    (EpsilonGreedy.update a r).
Proof. intros Ha. unfold EpsilonGreedy.update. frame_others. Qed.

Lemma AnnealingEpsilonGreedy_update_others_kept (a : Z) (r : R) :
  0 <= a ->
  preserves
    (others_kept AnnealingEpsilonGreedy.f_counts AnnealingEpsilonGreedy.f_emp_means (Z.to_nat a))
    (AnnealingEpsilonGreedy.update a r).
Proof. intros Ha. unfold AnnealingEpsilonGreedy.update. frame_others. Qed.

Lemma Boltzmann_update_others_kept (a : Z) (r : R) :
  0 <= a ->
  preserves (others_kept Boltzmann.f_counts Boltzmann.f_emp_means (Z.to_nat a))
    (Boltzmann.update a r).
Proof. intros Ha. unfold Boltzmann.update. frame_others. Qed.

Lemma AnnealingBoltzmann_update_others_kept (a : Z) (r : R) :
  0 <= a ->
  preserves (others_kept AnnealingBoltzmann.f_counts AnnealingBoltzmann.f_emp_means (Z.to_nat a))
    (AnnealingBoltzmann.update a r).
Proof. intros Ha. unfold AnnealingBoltzmann.update. frame_others. Qed.

Lemma Pursuit_update_others_kept (a : Z) (r : R) :
  0 <= a ->
  preserves (others_kept Pursuit.f_counts Pursuit.f_emp_means (Z.to_nat a))
    (Pursuit.update a r).
Proof. intros Ha. unfold Pursuit.update, Pursuit.nudge. frame_others. Qed.

Lemma ReinforcementComparison_update_others_kept (a : Z) (r : R) :
  0 <= a ->
  preserves
    (others_kept ReinforcementComparison.f_counts ReinforcementComparison.f_emp_means
       (Z.to_nat a))
    (ReinforcementComparison.update a r).
Proof. intros Ha. unfold ReinforcementComparison.update. frame_others. Qed.

Lemma UCB1_update_others_kept (a : Z) (r : R) :
  0 <= a ->
  preserves (others_kept UCB1.f_counts UCB1.f_emp_means (Z.to_nat a)) (UCB1.update a r).
Proof.
  intros Ha. unfold UCB1.update, UCB1._update_ucbs, UCB1.bonus. frame_others.
Qed.

Lemma UCB1Tuned_update_others_kept (a : Z) (r : R) :
  0 <= a ->
  preserves (others_kept UCB1Tuned.f_counts UCB1Tuned.f_emp_means (Z.to_nat a))
    (UCB1Tuned.update a r).
Proof.
  intros Ha.
  unfold UCB1Tuned.update, UCB1Tuned._update_ucbs, UCB1Tuned.V, UCB1Tuned.bonus.
  frame_others.
Qed.

(** C9. For every class and every state of the object: [update] with
    a valid arm [a] leaves [counts[b]] and [emp_means[b]] of every
    other arm [b] as they were, whether the call returns or raises. *)
Theorem update_leaves_other_arms (st : strategy) (a b : Z) (r : R) :
  0 <= a < len (counts st) -> 0 <= b -> b <> a ->
  counts (final_state (update a r st)) !! Z.to_nat b = counts st !! Z.to_nat b /\
  emp_means (final_state (update a r st)) !! Z.to_nat b = emp_means st !! Z.to_nat b.
Proof.
  intros [Ha _] Hb Hne.
  assert (Z.to_nat b <> Z.to_nat a) as Hk by lia.
  destruct st as [s|s|s|s|s|s|s|s|s]; unfold update;
    rewrite final_state_dispatch; simpl.
  - apply (Random_update_others_kept a r Ha s _ Hk).
  - apply (EpsilonGreedy_update_others_kept a r Ha s _ Hk).
  - apply (AnnealingEpsilonGreedy_update_others_kept a r Ha s _ Hk).
  - apply (Boltzmann_update_others_kept a r Ha s _ Hk).
  - apply (AnnealingBoltzmann_update_others_kept a r Ha s _ Hk).
  - apply (Pursuit_update_others_kept a r Ha s _ Hk).
  - apply (ReinforcementComparison_update_others_kept a r Ha s _ Hk).
  - apply (UCB1_update_others_kept a r Ha s _ Hk).
  - apply (UCB1Tuned_update_others_kept a r Ha s _ Hk).
Qed.

Lemma update_leaves_other_arms_witness :
  counts (final_state (update 0 1 (OfUCB1 (UCB1.mk [0; 3] [0%R; 2%R] [0%R; 0%R])))) !! Z.to_nat 1
    = counts (OfUCB1 (UCB1.mk [0; 3] [0%R; 2%R] [0%R; 0%R])) !! Z.to_nat 1 /\
  emp_means (final_state (update 0 1 (OfUCB1 (UCB1.mk [0; 3] [0%R; 2%R] [0%R; 0%R])))) !! Z.to_nat 1
    = emp_means (OfUCB1 (UCB1.mk [0; 3] [0%R; 2%R] [0%R; 0%R])) !! Z.to_nat 1.
Proof.
  apply (update_leaves_other_arms (OfUCB1 (UCB1.mk [0; 3] [0%R; 2%R] [0%R; 0%R])) 0 1 1).
  - unfold len. simpl. lia.
  - lia.
  - lia.
Defined.

(* ================================================================== *)
(** ** Selection in the UCB classes *)

Lemma first_zero_from_Some (j : nat) (cs : list Z) (i : nat) :
  first_zero_from j cs = Some i ->
  (j <= i)%nat /\ cs !! (i - j)%nat = Some 0 /\
  forall i', (j <= i' < i)%nat -> cs !! (i' - j)%nat <> Some 0.
Proof.
  revert j. induction cs as [|c cs IH]; intros j; simpl; [discriminate|].
  destruct (Z.eqb_spec c 0) as [->|Hc].
  - intros [= <-]. rewrite Nat.sub_diag. split; [lia|]. split; [reflexivity|]. intros i' Hi'. lia.
  - intros H. apply IH in H as (Hle & Hi & Hbefore).
    split; [lia|]. split.
    + replace (i - j)%nat with (Datatypes.S (i - Datatypes.S j)) by lia. exact Hi.
    + intros i' Hi'. destruct (Nat.eq_dec i' j) as [->|Hne].
      * rewrite Nat.sub_diag. simpl. congruence.
      * replace (i' - j)%nat with (Datatypes.S (i' - Datatypes.S j)) by lia.
        apply Hbefore. lia.
Qed.

(** Pigeonhole: counts that are all at least one add up to at least
    the number of arms. *)
Lemma first_zero_from_None (j : nat) (cs : list Z) :
  first_zero_from j cs = None -> Forall (fun c => 0 <= c) cs -> len cs <= sumZ cs.
Proof.
  revert j. unfold len. induction cs as [|c cs IH]; intros j; simpl; [lia|].
  destruct (Z.eqb_spec c 0) as [->|Hc]; [discriminate|].
  intros H Hpos. inversion Hpos as [|x l Hc0 Hpos']; subst.
  specialize (IH _ H Hpos'). lia.
Qed.

Lemma first_pass_returns {S} (fc : field S (list Z)) (s : S) (done todo : list Z) :
  fget fc s = done ++ todo ->
  first_pass fc (seqZ (Z.of_nat (length done)) (Z.of_nat (length todo))) s =
    Returns (Z.of_nat <$> first_zero_from (length done) todo) s.
Proof.
  revert done. induction todo as [|c todo IH]; intros done Hcs; [reflexivity|].
  rewrite seqZ_cons by (simpl; lia). cbn [first_pass first_zero_from].
  step (apply load_returns with (length done);
        [rewrite Hcs; apply arm_index; rewrite length_app; simpl; lia
        |rewrite Hcs; apply list_lookup_middle; reflexivity]).
  destruct (c =? 0); [reflexivity|].
  replace (Z.succ (Z.of_nat (length done))) with (Z.of_nat (length (done ++ [c])))
    by (rewrite length_app; simpl; lia).
  replace (Z.pred (Z.of_nat (length (c :: todo)))) with (Z.of_nat (length todo))
    by (simpl; lia).
  rewrite IH by (rewrite <- app_assoc; exact Hcs).
  rewrite length_app. simpl length.
  replace (length done + 1)%nat with (Datatypes.S (length done)) by lia. reflexivity.
Qed.

Section UcbSelect.
Context {S : Type} (fc : field S (list Z)) (fu : field S (list R)).

(** While fewer pulls than arms have been recorded, the first pass
    finds the lowest-indexed arm that has not been pulled. *)
Lemma ucb_select_first_pass (s : S) :
  Forall (fun c => 0 <= c) (fget fc s) ->
  sumZ (fget fc s) < len (fget fc s) ->
  exists arm : nat,
    ucb_select fc fu s = Returns (Some (Z.of_nat arm)) s /\
    fget fc s !! arm = Some 0 /\
    forall j, (j < arm)%nat -> fget fc s !! j <> Some 0.
Proof.
  intros Hpos Hsum. unfold ucb_select.
  step reflexivity.
  destruct (Z.ltb_spec (sumZ (fget fc s)) (len (fget fc s))); [|lia].
  unfold range, len.
  pose proof (first_pass_returns fc s [] (fget fc s) eq_refl) as Hfp.
  cbn [length] in Hfp. change (Z.of_nat 0) with 0 in Hfp. rewrite Hfp. clear Hfp.
  destruct (first_zero_from 0 (fget fc s)) as [arm|] eqn:E.
  - exists arm. apply first_zero_from_Some in E as (_ & Harm & Hbefore).
    simpl in Harm, Hbefore. rewrite Nat.sub_0_r in Harm.
    split; [reflexivity|]. split; [exact Harm|].
    intros j Hj. specialize (Hbefore j). rewrite Nat.sub_0_r in Hbefore.
    apply Hbefore. lia.
  - apply first_zero_from_None in E; [lia|exact Hpos].
Qed.

(** From then on the answer is [argmax(ucbs)]. *)
Lemma ucb_select_argmax (s : S) :
  len (fget fc s) <= sumZ (fget fc s) -> fget fu s <> [] ->
  ucb_select fc fu s = Returns (Some (Z.of_nat (argmax (fget fu s)))) s.
Proof.
  intros Hsum Hne. unfold ucb_select.
  step reflexivity.
  destruct (Z.ltb_spec (sumZ (fget fc s)) (len (fget fc s))); [lia|].
  step reflexivity.
  step (apply np_argmax_returns, Hne).
  reflexivity.
Qed.

End UcbSelect.

(** Both lemmas, for an object of either UCB class. *)
Lemma select_first_pass (st : strategy) (d : draws) :
  is_ucb st = true ->
  Forall (fun c => 0 <= c) (counts st) ->
  sumZ (counts st) < len (counts st) ->
  exists arm : nat,
    select_next_arm d st = Returns (Some (Z.of_nat arm)) st /\
    counts st !! arm = Some 0 /\
    forall j, (j < arm)%nat -> counts st !! j <> Some 0.
Proof.
  intros Hucb Hpos Hsum.
  destruct st as [s|s|s|s|s|s|s|s|s]; try discriminate; simpl in *.
  - destruct (ucb_select_first_pass UCB1.f_counts UCB1.f_ucbs s Hpos Hsum)
      as (arm & Hsel & H0 & Hlow).
    exists arm. split; [apply dispatch_returns, Hsel|]. split; assumption.
  - destruct (ucb_select_first_pass UCB1Tuned.f_counts UCB1Tuned.f_ucbs s Hpos Hsum)
      as (arm & Hsel & H0 & Hlow).
    exists arm. split; [apply dispatch_returns, Hsel|]. split; assumption.
Qed.

Lemma select_argmax (st : strategy) (d : draws) (us : list R) :
  len (counts st) <= sumZ (counts st) ->
  ucbs st = Some us -> us <> [] ->
  select_next_arm d st = Returns (Some (Z.of_nat (argmax us))) st.
Proof.
  intros Hsum Hus Hne.
  destruct st as [s|s|s|s|s|s|s|s|s]; try discriminate; simpl in *;
    injection Hus as <-.
  - apply dispatch_returns, (ucb_select_argmax UCB1.f_counts UCB1.f_ucbs s Hsum Hne).
  - apply dispatch_returns,
      (ucb_select_argmax UCB1Tuned.f_counts UCB1Tuned.f_ucbs s Hsum Hne).
Qed.

(** With nothing in [ucbs], [np.argmax] has nothing to answer. *)
Lemma ucb_select_argmax_empty {S} (fc : field S (list Z)) (fu : field S (list R)) (s : S) :
  len (fget fc s) <= sumZ (fget fc s) -> fget fu s = [] ->
  ucb_select fc fu s = Raises ValueError s.
Proof.
  intros Hsum Hus. unfold ucb_select.
  step reflexivity.
  destruct (Z.ltb_spec (sumZ (fget fc s)) (len (fget fc s))); [lia|].
  step reflexivity. rewrite Hus. reflexivity.
Qed.

Lemma select_argmax_empty (st : strategy) (d : draws) :
  len (counts st) <= sumZ (counts st) ->
  ucbs st = Some [] ->
  select_next_arm d st = Raises ValueError st.
Proof.
  intros Hsum Hus.
  destruct st as [s|s|s|s|s|s|s|s|s]; try discriminate; simpl in *;
    injection Hus as Hus; unfold dispatch.
  - unfold UCB1.select_next_arm.
    rewrite (ucb_select_argmax_empty UCB1.f_counts UCB1.f_ucbs s Hsum Hus). reflexivity.
  - unfold UCB1Tuned.select_next_arm.
    rewrite (ucb_select_argmax_empty UCB1Tuned.f_counts UCB1Tuned.f_ucbs s Hsum Hus).
    reflexivity.
Qed.

(** C10, as the code has it.  For UCB1 and UCB1Tuned, on an object
    whose counts list is not empty and holds no negative count: while
    [sum(counts) < n_arms], [select_next_arm] returns a zero-count arm
    in [0 .. n_arms-1] that the first pass found, so the method never
    runs off the end of the first pass, whatever [ucbs] holds; from
    then on it answers [argmax(ucbs)], which is an index into [ucbs],
    and raises [ValueError] when [ucbs] is empty.  Hence the answer is
    an arm index in [0 .. n_arms-1] whenever [ucbs] has one entry per
    arm, as [reset] and [update] leave it. *)
Theorem ucb_select_total (st : strategy) (d : draws) (us : list R) :
  counts st <> [] ->
  Forall (fun c => 0 <= c) (counts st) ->
  ucbs st = Some us ->
  (sumZ (counts st) < len (counts st) ->
   exists arm,
     select_next_arm d st = Returns (Some arm) st /\ 0 <= arm < len (counts st) /\
     counts st !! Z.to_nat arm = Some 0) /\
  (len (counts st) <= sumZ (counts st) ->
   (us = [] -> select_next_arm d st = Raises ValueError st) /\
   (us <> [] ->
    select_next_arm d st = Returns (Some (Z.of_nat (argmax us))) st /\
    0 <= Z.of_nat (argmax us) < len us)) /\
  (length us = length (counts st) ->
   exists arm,
     select_next_arm d st = Returns (Some arm) st /\ 0 <= arm < len (counts st) /\
     (sumZ (counts st) < len (counts st) -> counts st !! Z.to_nat arm = Some 0)).
Proof.
  intros Hne Hpos Hus.
  assert (is_ucb st = true) as Hucb
    by (destruct st; try discriminate; reflexivity).
  assert (Hfirst : sumZ (counts st) < len (counts st) ->
    exists arm,
      select_next_arm d st = Returns (Some arm) st /\ 0 <= arm < len (counts st) /\
      counts st !! Z.to_nat arm = Some 0).
  { intros Hsum.
    destruct (select_first_pass st d Hucb Hpos Hsum) as (arm & Hsel & H0 & _).
    exists (Z.of_nat arm). split; [exact Hsel|].
    apply lookup_lt_Some in H0 as Hlt. unfold len.
    split; [lia|]. rewrite Nat2Z.id. exact H0. }
  assert (Hlater : len (counts st) <= sumZ (counts st) -> us <> [] ->
    select_next_arm d st = Returns (Some (Z.of_nat (argmax us))) st /\
    0 <= Z.of_nat (argmax us) < len us).
  { intros Hsum Hus'. split; [exact (select_argmax st d us Hsum Hus Hus')|].
    pose proof (argmax_lt us Hus'). unfold len. lia. }
  split; [exact Hfirst|]. split.
  - intros Hsum. split; [|exact (Hlater Hsum)].
    intros ->. exact (select_argmax_empty st d Hsum Hus).
  - intros Hlen.
    destruct (Z.lt_ge_cases (sumZ (counts st)) (len (counts st))) as [Hsum|Hsum].
    + destruct (Hfirst Hsum) as (arm & Hsel & Harm & H0).
      exists arm. split; [exact Hsel|]. split; [exact Harm|]. intros _. exact H0.
    + assert (us <> []) as Hus'.
      { intros ->. destruct (counts st); [congruence|discriminate]. }
      destruct (Hlater Hsum Hus') as [Hsel Harm].
      exists (Z.of_nat (argmax us)). split; [exact Hsel|].
      unfold len in *. split; [lia|]. intros Hlt. lia.
Qed.

Lemma ucb_select_total_witness :
  (sumZ [1; 0] < len [1; 0] ->
   exists arm,
     select_next_arm (Draws 0 0) (OfUCB1 (UCB1.mk [1; 0] [1%R; 0%R] [0%R; 0%R])) =
       Returns (Some arm) (OfUCB1 (UCB1.mk [1; 0] [1%R; 0%R] [0%R; 0%R])) /\
     0 <= arm < len [1; 0] /\ [1; 0] !! Z.to_nat arm = Some 0) /\
  (len [1; 0] <= sumZ [1; 0] ->
   ([0%R; 0%R] = [] ->
    select_next_arm (Draws 0 0) (OfUCB1 (UCB1.mk [1; 0] [1%R; 0%R] [0%R; 0%R])) =
      Raises ValueError (OfUCB1 (UCB1.mk [1; 0] [1%R; 0%R] [0%R; 0%R]))) /\
   ([0%R; 0%R] <> [] ->
    select_next_arm (Draws 0 0) (OfUCB1 (UCB1.mk [1; 0] [1%R; 0%R] [0%R; 0%R])) =
      Returns (Some (Z.of_nat (argmax [0%R; 0%R])))
        (OfUCB1 (UCB1.mk [1; 0] [1%R; 0%R] [0%R; 0%R])) /\
    0 <= Z.of_nat (argmax [0%R; 0%R]) < len [0%R; 0%R])) /\
  (length [0%R; 0%R] = length [1; 0] ->
   exists arm,
     select_next_arm (Draws 0 0) (OfUCB1 (UCB1.mk [1; 0] [1%R; 0%R] [0%R; 0%R])) =
       Returns (Some arm) (OfUCB1 (UCB1.mk [1; 0] [1%R; 0%R] [0%R; 0%R])) /\
     0 <= arm < len [1; 0] /\
     (sumZ [1; 0] < len [1; 0] -> [1; 0] !! Z.to_nat arm = Some 0)).
Proof.
  apply (ucb_select_total (OfUCB1 (UCB1.mk [1; 0] [1%R; 0%R] [0%R; 0%R])) (Draws 0 0)
           [0%R; 0%R]).
  - discriminate.
  - repeat constructor; lia.
  - reflexivity.
Defined.

(** One arm, pulled once, so that the counts list is not empty and
    holds no negative count.  With an empty [ucbs] the call raises
    [ValueError]; with two entries in [ucbs] it answers 1, and there
    is no arm 1. *)
Lemma ucb_select_outside_arms :
  counts (OfUCB1 (UCB1.mk [1] [0%R] [])) <> [] /\
  Forall (fun c => 0 <= c) (counts (OfUCB1 (UCB1.mk [1] [0%R] []))) /\
  (forall d,
     select_next_arm d (OfUCB1 (UCB1.mk [1] [0%R] [])) =
       Raises ValueError (OfUCB1 (UCB1.mk [1] [0%R] []))) /\
  counts (OfUCB1 (UCB1.mk [1] [0%R] [0%R; 5%R])) = [1] /\
  (forall d,
     select_next_arm d (OfUCB1 (UCB1.mk [1] [0%R] [0%R; 5%R])) =
       Returns (Some 1) (OfUCB1 (UCB1.mk [1] [0%R] [0%R; 5%R]))) /\
  ~ (0 <= 1 < len [1]).
Proof.
  split; [discriminate|]. split; [repeat constructor; lia|]. split.
  { intros d. apply select_argmax_empty; [unfold len; simpl; lia|reflexivity]. }
  split; [reflexivity|]. split.
  { intros d. rewrite (select_argmax _ d [0%R; 5%R]);
      [|unfold len; simpl; lia|reflexivity|discriminate].
    cbn [argmax argmax_from].
    destruct (Rlt_dec 0 5) as [_|E]; [reflexivity|]. exfalso. apply E. lra. }
  unfold len. simpl. lia.
Qed.

(* ================================================================== *)
(** ** The warm-up of the UCB classes *)

Lemma sumZ_app (l1 l2 : list Z) : sumZ (l1 ++ l2) = sumZ l1 + sumZ l2.
Proof. induction l1 as [|x l1 IH]; simpl; [reflexivity|]. rewrite IH. lia. Qed.

Lemma sumZ_replicate (n : nat) (x : Z) : sumZ (replicate n x) = Z.of_nat n * x.
Proof. induction n as [|n IH]; [reflexivity|]. cbn [replicate sumZ foldr]. fold (sumZ (replicate n x)). lia. Qed.

Lemma update_keeps_class (st st' : strategy) (a : Z) (r : R) :
  update a r st = Returns tt st' -> is_ucb st' = is_ucb st.
Proof.
  destruct st as [s|s|s|s|s|s|s|s|s]; unfold update; intros H;
    apply dispatch_Returns_inv in H as (s' & _ & ->); reflexivity.
Qed.

(** With arms [0 .. j-1] pulled once and the others never, the driver
    visits the remaining arms in index order. *)
Lemma drive_warm_up (d : draws) (n : nat) (rewards : list R) (j : nat) (st : strategy) :
  is_ucb st = true -> wf n st ->
  counts st = replicate j 1 ++ replicate (length rewards) 0 ->
  exists st',
    drive d rewards st =
      Returns (Some <$> seqZ (Z.of_nat j) (Z.of_nat (length rewards))) st'.
Proof.
  revert j st. induction rewards as [|r rewards IH]; intros j st Hucb Hwf Hcs.
  - exists st. reflexivity.
  - assert (Hn : n = (j + Datatypes.S (length rewards))%nat).
    { destruct Hwf as (Hlc & _). rewrite Hcs, length_app, !length_replicate in Hlc.
      simpl in Hlc. lia. }
    assert (Hj : counts st !! j = Some 0).
    { rewrite Hcs. apply list_lookup_middle. rewrite length_replicate. reflexivity. }
    destruct (select_first_pass st d Hucb) as (arm & Hsel & H0 & Hlow).
    { apply Hwf. }
    { unfold len. rewrite Hcs, sumZ_app, !sumZ_replicate, length_app, !length_replicate.
      simpl. lia. }
    assert (arm = j) as ->.
    { destruct (Nat.lt_trichotomy arm j) as [Hlt|[Heq|Hgt]]; [|exact Heq|].
      - rewrite Hcs, lookup_app_l in H0 by (rewrite length_replicate; lia).
        apply lookup_replicate in H0 as [H0 _]. discriminate.
      - exfalso. apply (Hlow j Hgt). exact Hj. }
    destruct (update_returns n st (Z.of_nat j) r j Hwf) as
      (st1 & c & m & Hc & _ & Hup & Hwf1 & Hcs1 & _); [apply arm_index; lia|].
    rewrite Hj in Hc. injection Hc as <-.
    destruct (IH (Datatypes.S j) st1) as (st' & Hrun).
    + rewrite (update_keeps_class _ _ _ _ Hup). exact Hucb.
    + exact Hwf1.
    + rewrite Hcs1, Hcs. cbn [length replicate].
      rewrite insert_app_r_alt by (rewrite length_replicate; lia).
      rewrite length_replicate, Nat.sub_diag. cbn [insert list_insert].
      rewrite replicate_cons_app, <- app_assoc. reflexivity.
    + exists st'. cbn [drive].
      step (exact Hsel). step (exact Hup). step (exact Hrun).
      rewrite (seqZ_cons (Z.of_nat j)) by (simpl; lia).
      replace (Z.succ (Z.of_nat j)) with (Z.of_nat (Datatypes.S j)) by lia.
      replace (Z.pred (Z.of_nat (length (r :: rewards)))) with (Z.of_nat (length rewards))
        by (simpl; lia).
      reflexivity.
Qed.

(** C4, as the code has it.  For UCB1 and UCB1Tuned: while fewer
    pulls than arms are recorded ([sum(counts) < n_arms], no count
    negative), [select_next_arm] returns the lowest-indexed arm whose
    count is 0; as soon as [sum(counts) >= n_arms], which is the case
    once every arm has been pulled, it returns [argmax(ucbs)].  With
    five arms and no prior update, five rounds of [select_next_arm]
    followed by [update] of the returned arm visit the arms
    0, 1, 2, 3, 4 in that order, whatever the rewards. *)
Theorem ucb_first_pass_then_argmax (st : strategy) (d : draws) :
  is_ucb st = true ->
  (Forall (fun c => 0 <= c) (counts st) -> sumZ (counts st) < len (counts st) ->
   exists arm : nat,
     select_next_arm d st = Returns (Some (Z.of_nat arm)) st /\
     counts st !! arm = Some 0 /\
     forall j, (j < arm)%nat -> counts st !! j <> Some 0) /\
  (forall us, len (counts st) <= sumZ (counts st) -> ucbs st = Some us -> us <> [] ->
   select_next_arm d st = Returns (Some (Z.of_nat (argmax us))) st) /\
  (forall r0 r1 r2 r3 r4 : R,
   exists st0 st',
     reset 5 st = Returns tt st0 /\
     drive d [r0; r1; r2; r3; r4] st0 =
       Returns [Some 0; Some 1; Some 2; Some 3; Some 4] st').
Proof.
  intros Hucb. split; [|split].
  - intros Hpos Hsum. apply (select_first_pass st d Hucb Hpos Hsum).
  - intros us Hsum Hus Hne. apply (select_argmax st d us Hsum Hus Hne).
  - intros r0 r1 r2 r3 r4.
    destruct (reset_returns 5 st) as (st0 & Hreset & Hwf0 & Hcs0 & _).
    assert (is_ucb st0 = true) as Hucb0.
    { destruct st as [s|s|s|s|s|s|s|s|s]; try discriminate;
        apply dispatch_Returns_inv in Hreset as (s' & _ & ->); reflexivity. }
    destruct (drive_warm_up d (Z.to_nat 5) [r0; r1; r2; r3; r4] 0 st0 Hucb0 Hwf0)
      as (st' & Hrun); [rewrite Hcs0; reflexivity|].
    exists st0, st'. split; [exact Hreset|exact Hrun].
Qed.

Lemma ucb_first_pass_then_argmax_witness :
  is_ucb (OfUCB1Tuned (UCB1Tuned.mk [] [] [] [])) = true /\
  forall r0 r1 r2 r3 r4 : R,
  exists st0 st',
    reset 5 (OfUCB1Tuned (UCB1Tuned.mk [] [] [] [])) = Returns tt st0 /\
    drive (Draws 0 0) [r0; r1; r2; r3; r4] st0 =
      Returns [Some 0; Some 1; Some 2; Some 3; Some 4] st'.
Proof.
  split; [reflexivity|].
  exact (proj2 (proj2 (ucb_first_pass_then_argmax
                         (OfUCB1Tuned (UCB1Tuned.mk [] [] [] [])) (Draws 0 0) eq_refl))).
Defined.

(* ================================================================== *)
(** ** A zero-count arm that the selection passes over *)

Lemma ln_3_lt_2 : (ln 3 < 2)%R.
Proof.
  rewrite <- (ln_exp 2). apply ln_increasing; [lra|].
  pose proof (exp_ineq1 2). lra.
Qed.

Lemma unpulled_bonus_bound : (confidence_bonus 2 0 < 10000)%R.
Proof.
  unfold confidence_bonus, eps0. change (2 + 1) with 3.
  rewrite <- (sqrt_square 10000) by lra.
  apply sqrt_lt_1_alt. pose proof ln_3_lt_2.
  assert (0 <= ln 3)%R by (rewrite <- ln_1; left; apply ln_increasing; lra).
  split.
  - apply Rmult_le_pos; [lra|]. left. apply Rinv_0_lt_compat. lra.
  - replace (2 * ln 3 / (0 + 1 / 10000000))%R with (20000000 * ln 3)%R by (field; lra).
    lra.
Qed.

Lemma next_mean_same (c : Z) (r : R) : 0 <= c -> next_mean c r r = r.
Proof.
  intros Hc. unfold next_mean. replace (c + 1 - 1) with c by lia.
  assert (0 < IZR (c + 1))%R by (apply IZR_lt; lia).
  rewrite plus_IZR in *. field. lra.
Qed.

(** Two pulls of arm 0 with reward 10000 on a fresh two-arm UCB1
    object: arm 1 still has count 0, and yet [select_next_arm] returns
    arm 0, whose count is 2. *)
Lemma ucb1_passes_over_unpulled_arm :
  exists st0 st1 st,
    reset 2 (OfUCB1 (UCB1.mk [] [] [])) = Returns tt st0 /\
    update 0 10000 st0 = Returns tt st1 /\
    update 0 10000 st1 = Returns tt st /\
    counts st = [2; 0] /\
    forall d, select_next_arm d st = Returns (Some 0) st.
Proof.
  exists (OfUCB1 (UCB1.mk [0; 0] [0%R; 0%R] [0%R; 0%R])).
  exists (OfUCB1 (UCB1.mk [1; 0] [10000%R; 0%R]
                   (zip_add [10000%R; 0%R] (confidence_bonus 1 <$> [1; 0])))).
  exists (OfUCB1 (UCB1.mk [2; 0] [10000%R; 0%R]
                   [(10000 + confidence_bonus 2 2)%R; (0 + confidence_bonus 2 0)%R])).
  split; [reflexivity|]. split.
  { apply dispatch_returns.
    rewrite (UCB1_update_returns _ 0 10000 0%nat 0 0%R)
      by (try reflexivity; repeat constructor; lia).
    cbv zeta. cbn [UCB1.counts UCB1.emp_means insert list_insert].
    rewrite next_mean_first. reflexivity. }
  split.
  { apply dispatch_returns.
    rewrite (UCB1_update_returns _ 0 10000 0%nat 1 10000%R)
      by (try reflexivity; repeat constructor; lia).
    cbv zeta. cbn [UCB1.counts UCB1.emp_means insert list_insert].
    rewrite next_mean_same by lia. reflexivity. }
  split; [reflexivity|].
  intros d. apply dispatch_returns. unfold UCB1.select_next_arm.
  rewrite ucb_select_argmax.
  - cbn [fget UCB1.f_ucbs UCB1.ucbs argmax argmax_from].
    destruct (Rlt_dec _ _) as [Hlt|_]; [|reflexivity].
    exfalso. pose proof unpulled_bonus_bound.
    assert (0 <= confidence_bonus 2 2)%R by apply sqrt_pos. lra.
  - unfold len. simpl. lia.
  - discriminate.
Qed.

(* ================================================================== *)
(** ** Pursuit: means that cancel out *)

(** C2, at the input where the code departs from it.  On a fresh
    two-arm Pursuit object with learning rate 1/2, [update(0, 1.0)]
    moves the probabilities to [3/4, 1/4]; the following
    [update(1, -1.0)] leaves the means [1, -1], none of them zero, and
    yet does not touch the probabilities, because the means sum to 0. *)
Lemma pursuit_skips_when_means_cancel :
  exists st0 st1 st,
    reset 2 (OfPursuit (Pursuit.mk (1 / 2) [] [] [])) = Returns tt st0 /\
    update 0 1 st0 = Returns tt st1 /\
    update 1 (-1) st1 = Returns tt st /\
    probs st1 = Some [(3 / 4)%R; (1 / 4)%R] /\
    emp_means st = [1%R; (-1)%R] /\
    probs st = Some [(3 / 4)%R; (1 / 4)%R].
Proof.
  exists (OfPursuit (Pursuit.mk (1 / 2) [0; 0] [0%R; 0%R] [(1 / 2)%R; (1 / 2)%R])).
  exists (OfPursuit (Pursuit.mk (1 / 2) [1; 0] [1%R; 0%R] [(3 / 4)%R; (1 / 4)%R])).
  exists (OfPursuit (Pursuit.mk (1 / 2) [1; 1] [1%R; (-1)%R] [(3 / 4)%R; (1 / 4)%R])).
  split.
  { apply dispatch_returns. unfold Pursuit.reset.
    step reflexivity. step reflexivity.
    step (apply uniform_probs_returns). reflexivity. }
  split.
  { apply dispatch_returns.
    rewrite (Pursuit_update_returns _ 0 1 0%nat 0 0%R) by (try reflexivity; lia).
    cbv zeta. cbn [Pursuit.lr Pursuit.counts Pursuit.emp_means Pursuit.probs insert list_insert].
    rewrite next_mean_first.
    destruct (Req_dec_T _ _) as [E|_]; [simpl in E; lra|].
    cbn [argmax argmax_from]. destruct (Rlt_dec 1 0) as [E|_]; [lra|].
    cbn [nudged Nat.eqb]. do 2 f_equal. f_equal; [lra|]. f_equal. lra. }
  split.
  { apply dispatch_returns.
    rewrite (Pursuit_update_returns _ 1 (-1) 1%nat 0 0%R) by (try reflexivity; lia).
    cbv zeta. cbn [Pursuit.lr Pursuit.counts Pursuit.emp_means Pursuit.probs insert list_insert].
    rewrite next_mean_first.
    destruct (Req_dec_T _ _) as [_|E]; [reflexivity|].
    exfalso. apply E. simpl. lra. }
  repeat split; reflexivity.
Qed.

(* ================================================================== *)
(** ** What the hypotheses of the selection theorems rule out *)

(** With a negative count the first pass can start and find nothing:
    the method then returns Python's [None]. *)
Example first_pass_falls_through :
  UCB1.select_next_arm (UCB1.mk [-1; 1; 1] [0%R; 0%R; 0%R] [0%R; 0%R; 0%R]) =
    Returns None (UCB1.mk [-1; 1; 1] [0%R; 0%R; 0%R] [0%R; 0%R; 0%R]).
Proof. reflexivity. Qed.

(** A count of -1 makes the running-mean block divide by zero, after
    the count has already been written. *)
Example update_divides_by_zero :
  Random.update 0 1 (Random.mk [-1] [0%R]) =
    Raises ZeroDivisionError (Random.mk [0] [0%R]).
Proof.
  unfold Random.update. apply bind_raises. unfold update_mean.
  step reflexivity. step reflexivity. step reflexivity. step reflexivity.
  apply bind_raises. unfold truediv.
  destruct (Req_dec_T (IZR (-1 + 1)) 0) as [_|E]; [reflexivity|].
  exfalso. apply E. reflexivity.
Qed.

(* ================================================================== *)
(** * Further properties *)

(** ** [random.choices] over the arms *)

Lemma length_accumulate_from (acc : R) (l : list R) :
  length (accumulate_from acc l) = length l.
Proof. revert acc. induction l as [|w l IH]; intros acc; simpl; [reflexivity|]. rewrite IH. reflexivity. Qed.

Lemma last_accumulate_from_cons (acc w : R) (l : list R) :
  accumulate_from acc (w :: l) !! length l = Some (acc + w + sumR l)%R.
Proof.
  revert acc w. induction l as [|w' l IH]; intros acc w.
  - simpl. f_equal. lra.
  - change (accumulate_from acc (w :: w' :: l) !! length (w' :: l))
      with (accumulate_from (acc + w) (w' :: l) !! length l).
    rewrite IH. f_equal. change (sumR (w' :: l)) with (w' + sumR l)%R. lra.
Qed.

Lemma last_accumulate_from (acc : R) (l : list R) :
  l <> [] ->
  accumulate_from acc l !! (length l - 1)%nat = Some (acc + sumR l)%R.
Proof.
  destruct l as [|w l]; [congruence|]. intros _.
  replace (length (w :: l) - 1)%nat with (length l) by (simpl; lia).
  rewrite last_accumulate_from_cons. f_equal.
  change (sumR (w :: l)) with (w + sumR l)%R. lra.
Qed.

Lemma bisect_from_range (a : list R) (x : R) (lo width : nat) :
  (lo <= bisect_from a x lo width <= lo + width)%nat.
Proof.
  revert lo. induction width as [|w IH]; intros lo; simpl; [lia|].
  destruct (a !! lo); [|lia]. destruct (Rlt_dec x r); [lia|].
  specialize (IH (Datatypes.S lo)). lia.
Qed.

Lemma getitem_range {S} (n k : nat) (s : S) :
  (k < n)%nat -> getitem (range (Z.of_nat n)) (Z.of_nat k) s = Returns (Z.of_nat k) s.
Proof.
  intros Hk. apply getitem_returns with k.
  - unfold range. rewrite length_seqZ, Nat2Z.id. apply arm_index, Hk.
  - unfold range. rewrite lookup_seqZ_lt by lia. reflexivity.
Qed.

(** With one weight per arm and a positive total, [random.choices]
    answers an arm, whatever the draw. *)
Lemma random_choices_range {S} (d : draws) (n : nat) (weights : list R) (s : S) :
  length weights = n -> (0 < n)%nat -> (0 < sumR weights)%R ->
  exists k : nat,
    (k < n)%nat /\
    random_choices d (range (Z.of_nat n)) weights s = Returns (Z.of_nat k) s.
Proof.
  intros Hlen Hn Hsum. unfold random_choices. cbv zeta.
  assert (length (range (Z.of_nat n)) = n) as Hpop
    by (unfold range; rewrite length_seqZ, Nat2Z.id; reflexivity).
  rewrite length_accumulate_from, Hlen, Hpop, Nat.eqb_refl. cbn [negb].
  assert (weights <> []) as Hne by (intros ->; simpl in Hlen; lia).
  rewrite (bind_returns _ _ s (0 + sumR weights)%R s).
  2:{ apply getitem_returns with (length weights - 1)%nat.
      - rewrite length_accumulate_from, py_index_negative by lia. f_equal. lia.
      - apply last_accumulate_from, Hne. }
  destruct (Rle_dec (0 + sumR weights) 0) as [E|_]; [lra|].
  set (k := bisect_from _ _ 0 (n - 1)).
  assert (k < n)%nat as Hk by (pose proof (bisect_from_range
    (accumulate_from 0 weights) (draw_random d * (0 + sumR weights))%R 0 (n - 1)); subst k; lia).
  exists k. split; [exact Hk|]. apply getitem_range, Hk.
Qed.

(* ================================================================== *)
(** ** Selection answers an arm *)

Lemma randrange_returns {S} (d : draws) (n : Z) (s : S) :
  0 < n -> randrange d n s = Returns (draw_int d mod n) s.
Proof. intros Hn. unfold randrange. destruct (Z.leb_spec n 0); [lia|reflexivity]. Qed.

Lemma sumR_exp_of_pos {A} (f : A -> R) (l : list A) :
  l <> [] -> (0 < sumR ((fun v => math_exp (f v)) <$> l))%R.
Proof.
  intros Hne. change ((fun v => math_exp (f v)) <$> l) with (math_exp ∘ f <$> l).
  rewrite (list_fmap_compose f math_exp l).
  apply sumR_exp_pos. destruct l; [congruence|discriminate].
Qed.

Lemma softmax_probs_returns {S} (tau : R) (means : list R) (s : S) :
  tau <> 0%R -> softmax_probs tau means s = Returns (boltzmann_weights tau means) s.
Proof.
  intros Htau. unfold softmax_probs, boltzmann_weights.
  step (apply comprehension_returns with (g := fun v => math_exp (v / tau));
        intros v _; step (apply truediv_returns, Htau); reflexivity).
  cbv zeta. apply comprehension_returns. intros v Hv.
  step (apply truediv_returns, Htau).
  apply truediv_returns.
  assert (means <> []) as Hne by (intros ->; inversion Hv).
  pose proof (sumR_exp_of_pos (fun v => (v / tau)%R) means Hne). lra.
Qed.

Lemma sumR_boltzmann_weights (tau : R) (means : list R) :
  means <> [] -> sumR (boltzmann_weights tau means) = 1%R.
Proof.
  intros Hne. unfold boltzmann_weights. cbv zeta.
  set (z := sumR ((fun v => math_exp (v / tau)) <$> means)).
  change ((fun v => (math_exp (v / tau) / z)%R) <$> means)
    with ((fun e => (e / z)%R) ∘ (fun v => math_exp (v / tau)) <$> means).
  rewrite (list_fmap_compose (fun v => math_exp (v / tau)) (fun e => (e / z)%R) means).
  rewrite sumR_div. fold z. subst z.
  pose proof (sumR_exp_of_pos (fun v => (v / tau)%R) means Hne). field. lra.
Qed.

(** The greedy-or-explore choice both epsilon-greedy classes make. *)
Lemma greedy_or_explore {S} (fm : field S (list R)) (d : draws) (eps : R) (s : S) :
  fget fm s <> [] ->
  (if Rgt_dec (draw_random d) eps
   then (means <- attr fm ;; np_argmax means)
   else (means <- attr fm ;; randrange d (len means))) s =
  Returns (if Rgt_dec (draw_random d) eps
           then Z.of_nat (argmax (fget fm s))
           else draw_int d mod len (fget fm s)) s.
Proof.
  intros Hne. destruct (Rgt_dec _ _).
  - step reflexivity. apply np_argmax_returns, Hne.
  - step reflexivity. apply randrange_returns.
    unfold len. destruct (fget fm s); [congruence|simpl; lia].
Qed.

Lemma greedy_or_explore_range (l : list R) (n : nat) (d : draws) (eps : R) :
  length l = n -> (0 < n)%nat ->
  0 <= (if Rgt_dec (draw_random d) eps
        then Z.of_nat (argmax l) else draw_int d mod len l) < Z.of_nat n.
Proof.
  intros <- Hn. assert (l <> []) as Hne by (intros ->; simpl in Hn; lia).
  destruct (Rgt_dec _ _).
  - pose proof (argmax_lt l Hne). lia.
  - apply Z.mod_pos_bound. lia.
Qed.

Lemma nonempty_of_length {A} (l : list A) (n : nat) :
  length l = n -> (0 < n)%nat -> l <> [].
Proof. intros <- Hn ->. simpl in Hn. lia. Qed.

(** On an object for [n > 0] arms that is [selectable],
    [select_next_arm] returns an arm in [0 .. n-1], whatever the
    draws. *)
Lemma select_returns_arm (n : nat) (st : strategy) (d : draws) :
  wf n st -> selectable st -> (0 < n)%nat ->
  exists arm, select_next_arm d st = Returns (Some arm) st /\ 0 <= arm < Z.of_nat n.
Proof.
  intros Hwf Hsel Hn.
  pose proof Hwf as (Hlc & Hlm & Hpos & Hrest).
  pose proof (nonempty_of_length _ _ Hlm Hn) as Hmeans.
  destruct st as [s|s|s|s|s|s|s|s|s]; simpl in *; unfold select_next_arm.
  - exists (draw_int d mod Z.of_nat n). split; [|apply Z.mod_pos_bound; lia].
    apply dispatch_returns. step idtac; [reflexivity|].
    unfold Random.select_next_arm. step reflexivity. simpl fget.
    unfold len. rewrite Hlm. apply randrange_returns. lia.
  - eexists. split.
    + apply dispatch_returns. step idtac; [reflexivity|].
      unfold EpsilonGreedy.select_next_arm. step reflexivity.
      apply (greedy_or_explore EpsilonGreedy.f_emp_means). exact Hmeans.
    + simpl fget. apply greedy_or_explore_range; assumption.
  - destruct (annealed_returns AnnealingEpsilonGreedy.f_counts s) as [Hann _];
      [apply sumZ_nonneg, Hpos|].
    eexists. split.
    + apply dispatch_returns. step idtac; [reflexivity|].
      unfold AnnealingEpsilonGreedy.select_next_arm. step (exact Hann).
      apply (greedy_or_explore AnnealingEpsilonGreedy.f_emp_means). exact Hmeans.
    + simpl fget. apply greedy_or_explore_range; assumption.
  - destruct (random_choices_range d n (boltzmann_weights (Boltzmann.tau s) (Boltzmann.emp_means s)) s)
      as (k & Hk & Hch).
    { unfold boltzmann_weights. cbv zeta. rewrite length_fmap. exact Hlm. }
    { exact Hn. }
    { rewrite sumR_boltzmann_weights by exact Hmeans. lra. }
    exists (Z.of_nat k). split; [|lia].
    apply dispatch_returns. step idtac; [reflexivity|].
    unfold Boltzmann.select_next_arm. step reflexivity. step reflexivity. simpl fget.
    step (apply softmax_probs_returns, Hsel). step reflexivity. simpl fget.
    unfold len. rewrite Hlm. exact Hch.
  - destruct (annealed_returns AnnealingBoltzmann.f_counts s) as [Hann Hln];
      [apply sumZ_nonneg, Hpos|].
    simpl fget in Hann, Hln.
    set (tau := (1 / ln (IZR (sumZ (AnnealingBoltzmann.counts s) + 1) + eps0))%R) in *.
    assert (tau <> 0%R) as Htau.
    { subst tau. unfold Rdiv. rewrite Rmult_1_l. apply Rinv_neq_0_compat. lra. }
    destruct (random_choices_range d n (boltzmann_weights tau (AnnealingBoltzmann.emp_means s)) s)
      as (k & Hk & Hch).
    { unfold boltzmann_weights. cbv zeta. rewrite length_fmap. exact Hlm. }
    { exact Hn. }
    { rewrite sumR_boltzmann_weights by exact Hmeans. lra. }
    exists (Z.of_nat k). split; [|lia].
    apply dispatch_returns. step idtac; [reflexivity|].
    unfold AnnealingBoltzmann.select_next_arm. step (exact Hann). step reflexivity. simpl fget.
    step (apply softmax_probs_returns, Htau). step reflexivity. simpl fget.
    unfold len. rewrite Hlm. exact Hch.
  - destruct (random_choices_range d n (Pursuit.probs s) s) as (k & Hk & Hch);
      [exact Hrest|exact Hn|lra|].
    exists (Z.of_nat k). split; [|lia].
    apply dispatch_returns. step idtac; [reflexivity|].
    unfold Pursuit.select_next_arm. step reflexivity. step reflexivity. simpl fget.
    unfold len. rewrite Hlm. exact Hch.
  - destruct Hsel as [Hlp Hsum].
    destruct (random_choices_range d n (ReinforcementComparison.probs s) s) as (k & Hk & Hch);
      [lia|exact Hn|lra|].
    exists (Z.of_nat k). split; [|lia].
    apply dispatch_returns. step idtac; [reflexivity|].
    unfold ReinforcementComparison.select_next_arm. step reflexivity. step reflexivity. simpl fget.
    unfold len. rewrite Hlm. exact Hch.
  - destruct (Z.lt_ge_cases (sumZ (UCB1.counts s)) (len (UCB1.counts s))) as [Hsum|Hsum].
    + destruct (select_first_pass (OfUCB1 s) d eq_refl Hpos Hsum) as (arm & Hsel' & H0 & _).
      exists (Z.of_nat arm). split; [exact Hsel'|].
      apply lookup_lt_Some in H0. simpl in H0. lia.
    + exists (Z.of_nat (argmax (UCB1.ucbs s))).
      pose proof (nonempty_of_length _ _ Hrest Hn) as Hus.
      split; [exact (select_argmax (OfUCB1 s) d _ Hsum eq_refl Hus)|].
      pose proof (argmax_lt _ Hus). lia.
  - destruct Hrest as (_ & Hlu & _).
    destruct (Z.lt_ge_cases (sumZ (UCB1Tuned.counts s)) (len (UCB1Tuned.counts s)))
      as [Hsum|Hsum].
    + destruct (select_first_pass (OfUCB1Tuned s) d eq_refl Hpos Hsum)
        as (arm & Hsel' & H0 & _).
      exists (Z.of_nat arm). split; [exact Hsel'|].
      apply lookup_lt_Some in H0. simpl in H0. lia.
    + exists (Z.of_nat (argmax (UCB1Tuned.ucbs s))).
      pose proof (nonempty_of_length _ _ Hlu Hn) as Hus.
      split; [exact (select_argmax (OfUCB1Tuned s) d _ Hsum eq_refl Hus)|].
      pose proof (argmax_lt _ Hus). lia.
Qed.



(* ================================================================== *)
(** ** [reset] *)

Lemma reset_is_fresh (n_arms : Z) (st : strategy) :
  reset n_arms st = Returns tt (fresh n_arms st).
Proof.
  destruct st as [s|s|s|s|s|s|s|s|s]; unfold reset, fresh; cbv zeta;
    try (apply dispatch_returns; reflexivity).
  - apply dispatch_returns. unfold Pursuit.reset.
    step reflexivity. step reflexivity.
    step (apply uniform_probs_returns). reflexivity.
  - apply dispatch_returns. unfold ReinforcementComparison.reset.
    do 4 step reflexivity.
    step (apply uniform_probs_returns). reflexivity.
Qed.

#[export] Instance same_on_preorder {S A : Type} (f : S -> A) : PreOrder (same_on f).
Proof.
  split.
  - intros s. reflexivity.
  - intros s1 s2 s3 H12 H23. unfold same_on in *. congruence.
Qed.

(** Steps that write list attributes only. *)
Ltac frame_parameters :=
  repeat match goal with
    | |- preserves _ (store _ _ _) =>
        apply preserves_store; [typeclasses eauto|intros ? ? ?; reflexivity]
    | |- preserves _ (assign _ _) =>
        apply preserves_assign; intros ?; reflexivity
    | |- preserves _ (bind _ _) => apply preserves_bind; [typeclasses eauto| |intros ?]
    | |- preserves _ (comprehension _ _) =>
        apply preserves_comprehension; [typeclasses eauto|intros ?]
    | |- preserves _ (for_each _ _) =>
        apply preserves_for_each; [typeclasses eauto|intros ?]
    | |- preserves _ (if ?b then _ else _) => destruct b
    | |- preserves _ _ => solve [eauto with frame typeclass_instances]
    end.

Lemma EpsilonGreedy_update_keeps_epsilon (a : Z) (r : R) :
  preserves (same_on EpsilonGreedy.epsilon) (EpsilonGreedy.update a r).
Proof. unfold EpsilonGreedy.update, update_mean. frame_parameters. Qed.

Lemma Boltzmann_update_keeps_tau (a : Z) (r : R) :
  preserves (same_on Boltzmann.tau) (Boltzmann.update a r).
Proof. unfold Boltzmann.update, update_mean. frame_parameters. Qed.

Lemma Pursuit_update_keeps_lr (a : Z) (r : R) :
  preserves (same_on Pursuit.lr) (Pursuit.update a r).
Proof. unfold Pursuit.update, Pursuit.nudge, update_mean. frame_parameters. Qed.

Lemma ReinforcementComparison_update_keeps_alpha_beta (a : Z) (r : R) :
  preserves (same_on (fun s => (ReinforcementComparison.alpha s, ReinforcementComparison.beta s)))
    (ReinforcementComparison.update a r).
Proof. unfold ReinforcementComparison.update, update_mean. frame_parameters. Qed.

(** [update] never touches the parameters, and never changes the
    class of the object, so a later [reset] cannot tell that it ran. *)
Lemma fresh_after_update (n_arms : Z) (st : strategy) (a : Z) (r : R) :
  fresh n_arms (final_state (update a r st)) = fresh n_arms st.
Proof.
  destruct st as [s|s|s|s|s|s|s|s|s]; unfold update; rewrite final_state_dispatch;
    unfold fresh; cbv zeta; try reflexivity.
  - rewrite (EpsilonGreedy_update_keeps_epsilon a r s). reflexivity.
  - rewrite (Boltzmann_update_keeps_tau a r s). reflexivity.
  - rewrite (Pursuit_update_keeps_lr a r s). reflexivity.
  - pose proof (ReinforcementComparison_update_keeps_alpha_beta a r s) as H.
    unfold same_on in H. injection H as -> ->. reflexivity.
Qed.

Lemma fresh_fresh (n_arms m : Z) (st : strategy) :
  fresh n_arms (fresh m st) = fresh n_arms st.
Proof. destruct st; reflexivity. Qed.

Lemma fresh_after_updates (n_arms : Z) (trace : list (Z * R)) (st : strategy) :
  fresh n_arms (final_state (updates trace st)) = fresh n_arms st.
Proof.
  revert st. induction trace as [|[a r] trace IH]; intros st; [reflexivity|].
  unfold updates. cbn [for_each]. unfold bind. simpl.
  pose proof (fresh_after_update n_arms st a r) as H.
  destruct (update a r st) as [[] st1|e st1]; simpl in *.
  - rewrite <- H. apply IH.
  - exact H.
Qed.

(** X1. [reset(n)] always returns; what it leaves depends only on
    [n], the class and the parameters of the object: resetting twice
    is resetting once, and resetting after an earlier [reset(m)] and
    any sequence of updates (valid or not, returning or raising) gives
    the same object as resetting right away. *)
Theorem reset_discards_prior_state (n m : Z) (st : strategy) (trace : list (Z * R)) :
  exists st1,
    reset n st = Returns tt st1 /\
    reset n st1 = Returns tt st1 /\
    reset n (final_state (updates trace (final_state (reset m st)))) = Returns tt st1.
Proof.
  exists (fresh n st). split; [apply reset_is_fresh|]. split.
  - rewrite reset_is_fresh, fresh_fresh. reflexivity.
  - rewrite reset_is_fresh, fresh_after_updates.
    rewrite (reset_is_fresh m st). simpl. rewrite fresh_fresh. reflexivity.
Qed.

(* ================================================================== *)
(** ** What selection needs, and what keeps it *)

Lemma fresh_wf (n_arms : Z) (st : strategy) : wf (Z.to_nat n_arms) (fresh n_arms st).
Proof.
  pose proof (zeros_nonneg n_arms) as Hz.
  destruct st as [s|s|s|s|s|s|s|s|s]; unfold wf, fresh; simpl; rewrite !length_zeros;
    repeat split; try assumption.
  apply Forall_fmap, Forall_true. intros x. simpl. lra.
Qed.

Lemma fresh_selectable (n_arms : Z) (st : strategy) :
  0 < n_arms -> temperature_ok st -> selectable (fresh n_arms st).
Proof.
  intros Hn Ht. destruct st as [s|s|s|s|s|s|s|s|s]; simpl; try exact I.
  - exact Ht.
  - apply sumR_uniform, Hn.
  - split; [rewrite !length_zeros; reflexivity|apply sumR_uniform, Hn].
Qed.

Lemma update_keeps_selectable (n : nat) (st st' : strategy) (a : Z) (r : R) :
  wf n st -> 0 <= a < Z.of_nat n -> selectable st ->
  update a r st = Returns tt st' -> selectable st'.
Proof.
  intros Hwf Ha Hsel Hup.
  destruct (wf_arm n st (Z.to_nat a) Hwf) as (c & m & Hc & Hm & Hc0); [lia|].
  pose proof Hwf as (Hlc & Hlm & Hpos & Hrest).
  assert (Hn : c + 1 <> 0) by lia.
  assert (Hidx : py_index n a = Some (Z.to_nat a)) by (apply py_index_nonneg; exact Ha).
  destruct st as [s|s|s|s|s|s|s|s|s]; simpl in *;
    apply dispatch_Returns_inv in Hup as (s' & Hup & ->); simpl; try exact I.
  - rewrite (Boltzmann_update_returns s a r (Z.to_nat a) c m) in Hup
      by (rewrite ?Hlc, ?Hlm; assumption).
    injection Hup as <-. exact Hsel.
  - assert (normalised (OfPursuit s)) as Hnorm by (intros ps [= <-]; exact Hsel).
    destruct (update_keeps_normalised n (OfPursuit s) (OfPursuit s') a r Hwf Ha Hnorm)
      as [Hnorm' _].
    { apply dispatch_returns, Hup. }
    apply Hnorm'. reflexivity.
  - destruct Hrest as [Hlp Hle].
    destruct (lookup_lt_is_Some_2 (ReinforcementComparison.preferences s) (Z.to_nat a))
      as [p Hp]; [lia|].
    destruct (lookup_lt_is_Some_2 (ReinforcementComparison.exp_rewards s) (Z.to_nat a))
      as [e He]; [lia|].
    rewrite (ReinforcementComparison_update_returns s a r (Z.to_nat a) c m p e) in Hup
      by (rewrite ?Hlc, ?Hlm, ?Hlp, ?Hle; assumption).
    injection Hup as <-. simpl. split.
    + unfold softmax. cbv zeta. rewrite !length_fmap, !length_insert. lia.
    + apply sumR_softmax. intros E. apply (f_equal length) in E.
      rewrite length_insert in E. simpl in E. lia.
Qed.

(** X2. On an object for [n > 0] arms (list lengths [n], counts not
    negative) with a non-zero Boltzmann temperature, a probability
    vector that sums to 1 and, for the two Boltzmann classes, every
    exponent [v / tau] within [[-300, 300]], [select_next_arm] of
    every class returns an arm index in [0 .. n-1] and does not raise,
    whatever the random draws.  The bound on the exponents keeps the
    call within the part of [math.exp] that the embedding describes:
    on doubles it neither overflows nor underflows there. *)
Theorem select_next_arm_in_range (n : nat) (st : strategy) (d : draws) :
  wf n st -> selectable st -> Forall exp_safe (selection_exponents st) -> (0 < n)%nat ->
  exists arm, select_next_arm d st = Returns (Some arm) st /\ 0 <= arm < Z.of_nat n.
Proof. intros Hwf Hsel _ Hn. exact (select_returns_arm n st d Hwf Hsel Hn). Qed.

Lemma select_next_arm_in_range_witness :
  exists arm,
    select_next_arm (Draws (1 / 2) 7) (OfBoltzmann (Boltzmann.mk (1 / 2) [1; 1] [0%R; 1%R]))
      = Returns (Some arm) (OfBoltzmann (Boltzmann.mk (1 / 2) [1; 1] [0%R; 1%R])) /\
    0 <= arm < Z.of_nat 2.
Proof.
  apply (select_next_arm_in_range 2
           (OfBoltzmann (Boltzmann.mk (1 / 2) [1; 1] [0%R; 1%R])) (Draws (1 / 2) 7)).
  - unfold wf. simpl. repeat split; repeat constructor; lia.
  - simpl. lra.
  - repeat constructor; unfold within; simpl; lra.
  - lia.
Defined.

(* ================================================================== *)
(** ** The total number of pulls *)

Lemma sumZ_insert (l : list Z) (k : nat) (c v : Z) :
  l !! k = Some c -> sumZ (<[k:=v]> l) = sumZ l - c + v.
Proof.
  revert k. induction l as [|x l IH]; intros k Hk; [discriminate|].
  destruct k as [|k]; simpl in *.
  - injection Hk as ->. lia.
  - fold (sumZ (<[k:=v]> l)). fold (sumZ l). rewrite (IH k Hk). lia.
Qed.

Lemma sumZ_zeros (n_arms : Z) : sumZ ((fun _ => 0) <$> range n_arms) = 0.
Proof.
  unfold range. induction (seqZ 0 n_arms) as [|x l IH]; [reflexivity|].
  simpl. exact IH.
Qed.

Lemma updates_total (n_arms : Z) (trace : list (Z * R)) (st : strategy) :
  wf (Z.to_nat n_arms) st -> Forall (valid n_arms) trace ->
  exists st',
    updates trace st = Returns tt st' /\ wf (Z.to_nat n_arms) st' /\
    sumZ (counts st') = sumZ (counts st) + len trace.
Proof.
  revert st. induction trace as [|[a r] trace IH]; intros st Hwf Hval.
  - exists st. split; [reflexivity|]. split; [exact Hwf|]. unfold len. simpl. lia.
  - inversion Hval as [|x l Ha Hval']; subst. unfold valid in Ha. simpl in Ha.
    destruct (update_returns (Z.to_nat n_arms) st a r (Z.to_nat a) Hwf) as
      (st1 & c & m & Hc & _ & Hup & Hwf1 & Hcs & _); [apply py_index_nonneg; lia|].
    destruct (IH st1 Hwf1 Hval') as (st' & Hrun & Hwf' & Hsum).
    exists st'. split; [|split; [exact Hwf'|]].
    + unfold updates. cbn [for_each]. step (exact Hup). exact Hrun.
    + rewrite Hsum, Hcs, (sumZ_insert _ _ c) by exact Hc.
      unfold len. simpl length. lia.
Qed.

Lemma updates_total_fresh (st0 : strategy) (n_arms : Z) (trace : list (Z * R)) :
  Forall (valid n_arms) trace ->
  exists st,
    updates trace (fresh n_arms st0) = Returns tt st /\
    wf (Z.to_nat n_arms) st /\
    sumZ (counts st) = len trace /\
    fresh n_arms st = fresh n_arms st0.
Proof.
  intros Hval.
  destruct (updates_total n_arms trace (fresh n_arms st0) (fresh_wf n_arms st0) Hval)
    as (st & Hrun & Hwf & Hsum).
  exists st. split; [exact Hrun|]. split; [exact Hwf|]. split.
  - rewrite Hsum. replace (sumZ (counts (fresh n_arms st0))) with 0; [lia|].
    symmetry. destruct st0; apply sumZ_zeros.
  - pose proof (fresh_after_updates n_arms trace (fresh n_arms st0)) as H.
    rewrite Hrun in H. simpl in H. rewrite H. apply fresh_fresh.
Qed.

(** X4. For every class: after [reset(n_arms)] and any sequence of
    valid updates, the counts add up to the number of [update] calls
    made, whichever arms they went to. *)
Theorem total_count_is_number_of_updates (st0 : strategy) (n_arms : Z) (trace : list (Z * R)) :
  Forall (valid n_arms) trace ->
  exists st1 st,
    reset n_arms st0 = Returns tt st1 /\
    updates trace st1 = Returns tt st /\
    sumZ (counts st) = len trace.
Proof.
  intros Hval.
  destruct (updates_total_fresh st0 n_arms trace Hval) as (st & Hrun & _ & Hsum & _).
  exists (fresh n_arms st0), st. split; [apply reset_is_fresh|]. split; assumption.
Qed.

Lemma total_count_is_number_of_updates_witness :
  exists st1 st,
    reset 2 (OfUCB1 (UCB1.mk [] [] [])) = Returns tt st1 /\
    updates [(1, 1%R); (1, 0%R); (0, 2%R)] st1 = Returns tt st /\
    sumZ (counts st) = len [(1, 1%R); (1, 0%R); (0, 2%R)].
Proof.
  apply (total_count_is_number_of_updates (OfUCB1 (UCB1.mk [] [] [])) 2
           [(1, 1%R); (1, 0%R); (0, 2%R)]).
  repeat constructor; simpl; lia.
Defined.

(** X5. The annealing schedule depends on the number of updates only:
    after [reset(n_arms)] and [k] valid updates, the epsilon of
    AnnealingEpsilonGreedy and the temperature of AnnealingBoltzmann
    computed at the next selection are both [1/ln(k + 1 + 1e-7)],
    whichever arms were updated. *)
Theorem annealing_schedule_after_updates
    (s1 : AnnealingEpsilonGreedy.t) (s2 : AnnealingBoltzmann.t)
    (n_arms : Z) (trace : list (Z * R)) :
  Forall (valid n_arms) trace ->
  (exists st1 t1,
     reset n_arms (OfAnnealingEpsilonGreedy s1) = Returns tt st1 /\
     updates trace st1 = Returns tt (OfAnnealingEpsilonGreedy t1) /\
     annealed AnnealingEpsilonGreedy.f_counts t1 =
       Returns (1 / ln (IZR (len trace + 1) + eps0))%R t1) /\
  (exists st2 t2,
     reset n_arms (OfAnnealingBoltzmann s2) = Returns tt st2 /\
     updates trace st2 = Returns tt (OfAnnealingBoltzmann t2) /\
     annealed AnnealingBoltzmann.f_counts t2 =
       Returns (1 / ln (IZR (len trace + 1) + eps0))%R t2).
Proof.
  intros Hval. split.
  - destruct (updates_total_fresh (OfAnnealingEpsilonGreedy s1) n_arms trace Hval)
      as (st & Hrun & _ & Hsum & Hclass).
    destruct st as [s|s|t1|s|s|s|s|s|s]; try discriminate.
    exists (fresh n_arms (OfAnnealingEpsilonGreedy s1)), t1.
    split; [apply reset_is_fresh|]. split; [exact Hrun|].
    simpl in Hsum. rewrite <- Hsum.
    apply (annealed_returns AnnealingEpsilonGreedy.f_counts t1). simpl. rewrite Hsum.
    unfold len. lia.
  - destruct (updates_total_fresh (OfAnnealingBoltzmann s2) n_arms trace Hval)
      as (st & Hrun & _ & Hsum & Hclass).
    destruct st as [s|s|s|s|t2|s|s|s|s]; try discriminate.
    exists (fresh n_arms (OfAnnealingBoltzmann s2)), t2.
    split; [apply reset_is_fresh|]. split; [exact Hrun|].
    simpl in Hsum. rewrite <- Hsum.
    apply (annealed_returns AnnealingBoltzmann.f_counts t2). simpl. rewrite Hsum.
    unfold len. lia.
Qed.

Lemma annealing_schedule_after_updates_witness :
  (exists st1 t1,
     reset 2 (OfAnnealingEpsilonGreedy (AnnealingEpsilonGreedy.mk [] [])) = Returns tt st1 /\
     updates [(0, 1%R); (1, 1%R)] st1 = Returns tt (OfAnnealingEpsilonGreedy t1) /\
     annealed AnnealingEpsilonGreedy.f_counts t1 =
       Returns (1 / ln (IZR (len [(0, 1%R); (1, 1%R)] + 1) + eps0))%R t1) /\
  (exists st2 t2,
     reset 2 (OfAnnealingBoltzmann (AnnealingBoltzmann.mk [] [])) = Returns tt st2 /\
     updates [(0, 1%R); (1, 1%R)] st2 = Returns tt (OfAnnealingBoltzmann t2) /\
     annealed AnnealingBoltzmann.f_counts t2 =
       Returns (1 / ln (IZR (len [(0, 1%R); (1, 1%R)] + 1) + eps0))%R t2).
Proof.
  apply (annealing_schedule_after_updates (AnnealingEpsilonGreedy.mk [] [])
           (AnnealingBoltzmann.mk [] []) 2 [(0, 1%R); (1, 1%R)]).
  repeat constructor; simpl; lia.
Defined.

(* ================================================================== *)
(** ** The second-moment accumulator of UCB1Tuned *)

Lemma sum_dev_expand (mu : R) (l : list R) :
  sumR ((fun x => (x - mu) * (x - mu))%R <$> l) =
  (sumR ((fun x => x * x)%R <$> l) - 2 * mu * sumR l + IZR (len l) * (mu * mu))%R.
Proof.
  induction l as [|x l IH].
  - simpl. change (len []) with 0. lra.
  - change (sumR ((fun x => (x - mu) * (x - mu))%R <$> x :: l))
      with ((x - mu) * (x - mu) + sumR ((fun x => (x - mu) * (x - mu))%R <$> l))%R.
    change (sumR ((fun x => x * x)%R <$> x :: l))
      with (x * x + sumR ((fun x => x * x)%R <$> l))%R.
    change (sumR (x :: l)) with (x + sumR l)%R.
    rewrite IH. unfold len. simpl length. rewrite Nat2Z.inj_succ, succ_IZR. ring.
Qed.

Lemma sumR_app (l1 l2 : list R) : sumR (l1 ++ l2) = (sumR l1 + sumR l2)%R.
Proof. induction l1 as [|x l1 IH]; simpl; [lra|]. fold (sumR (l1 ++ l2)) (sumR l1). rewrite IH. lra. Qed.

(** Welford's step: one more reward moves the sum of squared
    deviations by [(r - old_mean) * (r - new_mean)]. *)
Lemma sum_sq_dev_snoc (rs : list R) (r : R) :
  sum_sq_dev (rs ++ [r]) =
  (sum_sq_dev rs + (r - mean rs) * (r - mean (rs ++ [r])))%R.
Proof.
  unfold sum_sq_dev. rewrite !sum_dev_expand.
  rewrite fmap_app, !sumR_app.
  change (sumR ((fun x => x * x)%R <$> [r])) with (r * r + 0)%R.
  change (sumR [r]) with (r + 0)%R.
  destruct rs as [|x rs].
  - simpl. change (len [r]) with 1. change (len []) with 0. field.
  - change ((x :: rs) ++ [r]) with (x :: (rs ++ [r])).
    unfold mean. change (x :: (rs ++ [r])) with ((x :: rs) ++ [r]).
    rewrite sumR_app. change (sumR [r]) with (r + 0)%R.
    unfold len. rewrite length_app. simpl length.
    replace (Z.of_nat (Datatypes.S (length rs) + 1)) with (Z.of_nat (Datatypes.S (length rs)) + 1)
      by lia.
    set (k := Z.of_nat (Datatypes.S (length rs))).
    assert (0 < IZR k)%R by (apply IZR_lt; subst k; lia).
    rewrite plus_IZR.
    generalize (sumR ((fun x0 => x0 * x0)%R <$> x :: rs)) (sumR (x :: rs)) (IZR k) H.
    intros Q T K HK. field. lra.
Qed.

Lemma UCB1Tuned_update_M2 (n : nat) (s : UCB1Tuned.t) (a : Z) (r : R) (st' : strategy) (c : Z) (m : R) :
  wf n (OfUCB1Tuned s) -> 0 <= a < Z.of_nat n ->
  UCB1Tuned.counts s !! Z.to_nat a = Some c ->
  UCB1Tuned.emp_means s !! Z.to_nat a = Some m ->
  update a r (OfUCB1Tuned s) = Returns tt st' ->
  exists m2,
    UCB1Tuned.M2 s !! Z.to_nat a = Some m2 /\
    M2_of st' =
      Some (<[Z.to_nat a:=(m2 + (r - m) * (r - next_mean c m r))%R]> (UCB1Tuned.M2 s)).
Proof.
  intros Hwf Ha Hc Hm Hup.
  destruct Hwf as (Hlc & Hlm & Hpos & Hl2 & Hlu & Hm2s). simpl in *.
  destruct (lookup_lt_is_Some_2 (UCB1Tuned.M2 s) (Z.to_nat a)) as [m2 Hm2]; [lia|].
  assert (0 <= c) as Hc0 by (eapply Forall_lookup_1 in Hpos; eauto).
  assert (Hidx : py_index n a = Some (Z.to_nat a)) by (apply py_index_nonneg; exact Ha).
  exists m2. split; [exact Hm2|].
  apply dispatch_Returns_inv in Hup as (s' & Hup & ->).
  rewrite (UCB1Tuned_update_returns s a r (Z.to_nat a) c m m2) in Hup
    by (rewrite ?Hlc, ?Hlm, ?Hl2; first [assumption|reflexivity]).
  injection Hup as <-. reflexivity.
Qed.

Lemma updates_welford (n_arms : Z) (trace history : list (Z * R)) (st : strategy) (m2s : list R) :
  wf (Z.to_nat n_arms) st -> tracks n_arms history st ->
  M2_of st = Some m2s ->
  (forall arm, 0 <= arm < n_arms ->
     m2s !! Z.to_nat arm = Some (sum_sq_dev (rewards_of arm history))) ->
  Forall (valid n_arms) trace ->
  exists st' m2s',
    updates trace st = Returns tt st' /\
    M2_of st' = Some m2s' /\
    forall arm, 0 <= arm < n_arms ->
      m2s' !! Z.to_nat arm = Some (sum_sq_dev (rewards_of arm (history ++ trace))).
Proof.
  revert history st m2s.
  induction trace as [|[a r] trace IH]; intros history st m2s Hwf Htr HM2 Hdev Hval.
  - exists st, m2s. rewrite app_nil_r. split; [reflexivity|]. split; assumption.
  - inversion Hval as [|x l Ha Hval']; subst. unfold valid in Ha. simpl in Ha.
    destruct (update_tracks n_arms history st a r Hwf Htr Ha) as (st1 & Hup & Hwf1 & Htr1).
    destruct st as [s|s|s|s|s|s|s|s|s]; try discriminate. injection HM2 as <-.
    destruct (Htr a Ha) as [Hc Hm]. simpl in Hc, Hm.
    destruct (UCB1Tuned_update_M2 (Z.to_nat n_arms) s a r st1 _ _ Hwf ltac:(lia) Hc Hm Hup)
      as (m2 & Hm2 & HM21).
    destruct (IH (history ++ [(a, r)]) st1 _ Hwf1 Htr1 HM21) as (st' & m2s' & Hrun & HM2' & Hdev');
      [|exact Hval'|].
    + intros arm Harm. destruct (Z.eq_dec arm a) as [->|Hne].
      * rewrite list_lookup_insert_eq by (apply lookup_lt_Some in Hm2; exact Hm2).
        rewrite (Hdev a Ha) in Hm2. injection Hm2 as <-.
        rewrite rewards_of_snoc_same, sum_sq_dev_snoc, mean_snoc. reflexivity.
      * rewrite list_lookup_insert_ne by lia.
        rewrite rewards_of_snoc_other by congruence. apply Hdev, Harm.
    + exists st', m2s'. rewrite <- app_assoc in Hdev'. split; [|split; assumption].
      unfold updates. cbn [for_each]. step (exact Hup). exact Hrun.
Qed.

(** X6. Welford's accumulator is exact: on a UCB1Tuned object, after
    [reset(n_arms)] and any sequence of valid updates, [M2[arm]] is
    the sum of the squared deviations of the rewards the arm received
    from their mean (0 for an arm with no or one reward), in exact
    arithmetic, whatever the interleaving with other arms. *)
Theorem M2_is_sum_of_squared_deviations
    (s0 : UCB1Tuned.t) (n_arms : Z) (trace : list (Z * R)) :
  Forall (valid n_arms) trace ->
  exists st1 st m2s,
    reset n_arms (OfUCB1Tuned s0) = Returns tt st1 /\
    updates trace st1 = Returns tt st /\
    M2_of st = Some m2s /\
    forall arm, 0 <= arm < n_arms ->
      m2s !! Z.to_nat arm = Some (sum_sq_dev (rewards_of arm trace)).
Proof.
  intros Hval.
  destruct (updates_welford n_arms trace [] (fresh n_arms (OfUCB1Tuned s0))
              ((fun _ => 0%R) <$> range n_arms))
    as (st & m2s & Hrun & HM2 & Hdev).
  - apply fresh_wf.
  - apply reset_tracks; reflexivity.
  - reflexivity.
  - intros arm Harm. rewrite list_lookup_fmap. unfold range.
    rewrite lookup_seqZ_lt by lia. reflexivity.
  - exact Hval.
  - exists (fresh n_arms (OfUCB1Tuned s0)), st, m2s.
    split; [apply reset_is_fresh|]. split; [exact Hrun|]. split; assumption.
Qed.

Lemma M2_is_sum_of_squared_deviations_witness :
  exists st1 st m2s,
    reset 2 (OfUCB1Tuned (UCB1Tuned.mk [] [] [] [])) = Returns tt st1 /\
    updates [(0, 0%R); (0, 1%R); (1, 3%R)] st1 = Returns tt st /\
    M2_of st = Some m2s /\
    forall arm, 0 <= arm < 2 ->
      m2s !! Z.to_nat arm = Some (sum_sq_dev (rewards_of arm [(0, 0%R); (0, 1%R); (1, 3%R)])).
Proof.
  apply (M2_is_sum_of_squared_deviations (UCB1Tuned.mk [] [] [] []) 2
           [(0, 0%R); (0, 1%R); (1, 3%R)]).
  repeat constructor; simpl; lia.
Defined.

(* ================================================================== *)
(** ** Early rounds of AnnealingEpsilonGreedy *)

Lemma exp_1_gt : (2 + eps0 < exp 1)%R.
Proof.
  replace 1%R with (1 / 2 + 1 / 2)%R by lra. rewrite exp_plus.
  pose proof (exp_ineq1 (1 / 2)) as H.
  assert (1 + 1 / 2 < exp (1 / 2))%R as H' by (apply H; lra).
  unfold eps0. nra.
Qed.

(** With at most one pull recorded the annealed epsilon exceeds 1. *)
Lemma annealed_early {S} (fc : field S (list Z)) (s : S) :
  0 <= sumZ (fget fc s) <= 1 ->
  exists eps, annealed fc s = Returns eps s /\ (1 < eps)%R.
Proof.
  intros [H0 H1].
  destruct (annealed_returns fc s H0) as [Hret Hln].
  eexists. split; [exact Hret|].
  set (x := (IZR (sumZ (fget fc s) + 1) + eps0)%R) in *.
  assert (x < exp 1)%R as Hx.
  { subst x. pose proof exp_1_gt.
    assert (IZR (sumZ (fget fc s) + 1) <= 2)%R by (apply IZR_le; lia). lra. }
  assert (ln x < 1)%R as Hlt.
  { rewrite <- (ln_exp 1). apply ln_increasing; [|exact Hx].
    subst x. pose proof eps0_pos.
    assert (1 <= IZR (sumZ (fget fc s) + 1))%R by (apply IZR_le; lia). lra. }
  unfold Rdiv. rewrite Rmult_1_l. rewrite <- Rinv_1.
  apply Rinv_0_lt_contravar; assumption.
Qed.

(** X7. AnnealingEpsilonGreedy ignores the means in its first two
    rounds: after [reset(n_arms)], [n_arms > 0], and at most one valid
    update, the annealed epsilon is above 1, so for every draw of
    [random.random()] (which is below 1) [select_next_arm] takes the
    exploration branch and returns the arm [randrange] draws. *)
Theorem annealing_explores_first (s0 : AnnealingEpsilonGreedy.t) (n_arms : Z)
    (trace : list (Z * R)) (d : draws) :
  0 < n_arms -> Forall (valid n_arms) trace -> (length trace <= 1)%nat ->
  (draw_random d <= 1)%R ->
  exists st1 st,
    reset n_arms (OfAnnealingEpsilonGreedy s0) = Returns tt st1 /\
    updates trace st1 = Returns tt st /\
    select_next_arm d st = Returns (Some (draw_int d mod n_arms)) st.
Proof.
  intros Hn Hval Hlen Hu.
  destruct (updates_total_fresh (OfAnnealingEpsilonGreedy s0) n_arms trace Hval)
    as (st & Hrun & Hwf & Hsum & Hclass).
  destruct st as [s|s|t|s|s|s|s|s|s]; try discriminate.
  exists (fresh n_arms (OfAnnealingEpsilonGreedy s0)), (OfAnnealingEpsilonGreedy t).
  split; [apply reset_is_fresh|]. split; [exact Hrun|].
  destruct Hwf as (_ & Hlm & _). simpl in Hsum, Hlm.
  destruct (annealed_early AnnealingEpsilonGreedy.f_counts t) as (eps & Hann & Heps).
  { simpl. rewrite Hsum. unfold len. lia. }
  unfold select_next_arm. apply dispatch_returns.
  step idtac; [reflexivity|].
  unfold AnnealingEpsilonGreedy.select_next_arm. step (exact Hann).
  destruct (Rgt_dec (draw_random d) eps) as [Hgt|_]; [lra|].
  step reflexivity. simpl fget. unfold len. rewrite Hlm, Z2Nat.id by lia.
  apply randrange_returns, Hn.
Qed.

Lemma annealing_explores_first_witness :
  exists st1 st,
    reset 3 (OfAnnealingEpsilonGreedy (AnnealingEpsilonGreedy.mk [] [])) = Returns tt st1 /\
    updates [(2, 1%R)] st1 = Returns tt st /\
    select_next_arm (Draws (1 / 2) 7) st = Returns (Some (7 mod 3)) st.
Proof.
  apply (annealing_explores_first (AnnealingEpsilonGreedy.mk [] []) 3 [(2, 1%R)]
           (Draws (1 / 2) 7)).
  - lia.
  - repeat constructor; simpl; lia.
  - simpl. lia.
  - simpl. lra.
Defined.

(* ================================================================== *)
(** ** [np.argmax] picks the first maximum *)

Lemma argmax_from_first_max (pre l : list R) (best : nat) (v : R) :
  pre !! best = Some v ->
  (forall j y, pre !! j = Some y -> (y <= v)%R /\ ((j < best)%nat -> (y < v)%R)) ->
  exists w,
    (pre ++ l) !! argmax_from best v (length pre) l = Some w /\
    forall j y, (pre ++ l) !! j = Some y ->
      (y <= w)%R /\ ((j < argmax_from best v (length pre) l)%nat -> (y < w)%R).
Proof.
  revert pre best v. induction l as [|x l IH]; intros pre best v Hbest Hmax.
  - exists v. rewrite app_nil_r. split; assumption.
  - pose proof (lookup_lt_Some _ _ _ Hbest) as Hlt.
    cbn [argmax_from].
    replace (pre ++ x :: l) with ((pre ++ [x]) ++ l) by (rewrite <- app_assoc; reflexivity).
    assert (Hlen : length (pre ++ [x]) = Datatypes.S (length pre))
      by (rewrite length_app; simpl; lia).
    rewrite <- Hlen.
    destruct (Rlt_dec v x) as [Hvx|Hvx].
    + apply IH.
      * apply list_lookup_middle. reflexivity.
      * intros j y Hj. apply lookup_snoc_Some in Hj as [[Hj1 Hj2]|[-> <-]].
        -- destruct (Hmax j y Hj2) as [Hle _]. split; [lra|intros _; lra].
        -- split; [lra|lia].
    + apply IH.
      * rewrite lookup_app_l by exact Hlt. exact Hbest.
      * intros j y Hj. apply lookup_snoc_Some in Hj as [[Hj1 Hj2]|[-> <-]].
        -- apply Hmax, Hj2.
        -- split; [lra|lia].
Qed.

(** The answer of [np.argmax] holds the maximum, and every earlier
    position holds a strictly smaller value. *)
Lemma argmax_first_max (l : list R) :
  l <> [] ->
  exists w,
    l !! argmax l = Some w /\
    forall j y, l !! j = Some y -> (y <= w)%R /\ ((j < argmax l)%nat -> (y < w)%R).
Proof.
  destruct l as [|x l]; [congruence|]. intros _.
  apply (argmax_from_first_max [x] l 0 x); [reflexivity|].
  intros [|j] y Hj; simpl in Hj; [|discriminate].
  injection Hj as <-. split; [lra|lia].
Qed.

(** X8. EpsilonGreedy with at least one arm: when the draw of
    [random.random()] exceeds epsilon, [select_next_arm] returns the
    lowest-indexed arm among those with the highest mean; otherwise it
    returns the arm [randrange] draws among all arms, the best one
    included. *)
Theorem epsilon_greedy_select (s : EpsilonGreedy.t) (d : draws) :
  EpsilonGreedy.emp_means s <> [] ->
  ((draw_random d > EpsilonGreedy.epsilon s)%R ->
   exists (best : nat) (w : R),
     EpsilonGreedy.select_next_arm d s = Returns (Z.of_nat best) s /\
     EpsilonGreedy.emp_means s !! best = Some w /\
     forall j y, EpsilonGreedy.emp_means s !! j = Some y ->
       (y <= w)%R /\ ((j < best)%nat -> (y < w)%R)) /\
  ((draw_random d <= EpsilonGreedy.epsilon s)%R ->
   EpsilonGreedy.select_next_arm d s =
     Returns (draw_int d mod len (EpsilonGreedy.emp_means s)) s /\
   0 <= draw_int d mod len (EpsilonGreedy.emp_means s) < len (EpsilonGreedy.emp_means s)).
Proof.
  intros Hne.
  pose proof (greedy_or_explore EpsilonGreedy.f_emp_means d (EpsilonGreedy.epsilon s) s Hne)
    as Hsel.
  assert (EpsilonGreedy.select_next_arm d s =
          Returns (if Rgt_dec (draw_random d) (EpsilonGreedy.epsilon s)
                   then Z.of_nat (argmax (EpsilonGreedy.emp_means s))
                   else draw_int d mod len (EpsilonGreedy.emp_means s)) s) as Hrun.
  { unfold EpsilonGreedy.select_next_arm. step reflexivity. exact Hsel. }
  split.
  - intros Hgt. destruct (argmax_first_max _ Hne) as (w & Hw & Hmax).
    exists (argmax (EpsilonGreedy.emp_means s)), w.
    split; [|split; assumption].
    rewrite Hrun. destruct (Rgt_dec _ _); [reflexivity|contradiction].
  - intros Hle. split.
    + rewrite Hrun. destruct (Rgt_dec _ _) as [Hgt|_]; [|reflexivity].
      unfold Rgt in Hgt. lra.
    + apply Z.mod_pos_bound. unfold len.
      destruct (EpsilonGreedy.emp_means s); [congruence|simpl; lia].
Qed.

Lemma epsilon_greedy_select_witness :
  [1%R; 3%R; 3%R] <> [] /\
  (draw_random (Draws (1 / 2) 7) > 1 / 10)%R /\
  exists (best : nat) (w : R),
    EpsilonGreedy.select_next_arm (Draws (1 / 2) 7)
      (EpsilonGreedy.mk (1 / 10) [1; 1; 1] [1%R; 3%R; 3%R]) =
      Returns (Z.of_nat best) (EpsilonGreedy.mk (1 / 10) [1; 1; 1] [1%R; 3%R; 3%R]) /\
    [1%R; 3%R; 3%R] !! best = Some w /\
    forall j y, [1%R; 3%R; 3%R] !! j = Some y ->
      (y <= w)%R /\ ((j < best)%nat -> (y < w)%R).
Proof.
  assert (H1 : [1%R; 3%R; 3%R] <> []) by discriminate.
  assert (H2 : (draw_random (Draws (1 / 2) 7) > 1 / 10)%R) by (simpl; lra).
  split; [exact H1|]. split; [exact H2|].
  exact (proj1 (epsilon_greedy_select (EpsilonGreedy.mk (1 / 10) [1; 1; 1] [1%R; 3%R; 3%R])
                  (Draws (1 / 2) 7) H1) H2).
Defined.

(* ================================================================== *)
(** ** Boltzmann selection *)

(** X9. Boltzmann with temperature 0 and at least one arm: the first
    [v / self.tau] divides by zero, so [select_next_arm] raises
    [ZeroDivisionError] for every draw and leaves the object as it
    was; it never returns a malformed distribution's arm. *)
Theorem boltzmann_zero_temperature (s : Boltzmann.t) (d : draws) :
  Boltzmann.tau s = 0%R -> Boltzmann.emp_means s <> [] ->
  Boltzmann.select_next_arm d s = Raises ZeroDivisionError s.
Proof.
  intros Htau Hne. unfold Boltzmann.select_next_arm.
  step reflexivity. step reflexivity. simpl fget.
  apply bind_raises. unfold softmax_probs. apply bind_raises.
  destruct (Boltzmann.emp_means s) as [|v l]; [congruence|].
  cbn [comprehension]. apply bind_raises, bind_raises.
  unfold truediv. destruct (Req_dec_T (Boltzmann.tau s) 0); [reflexivity|contradiction].
Qed.

Lemma boltzmann_zero_temperature_witness :
  Boltzmann.select_next_arm (Draws (1 / 2) 0) (Boltzmann.mk 0 [0; 0] [0%R; 0%R]) =
    Raises ZeroDivisionError (Boltzmann.mk 0 [0; 0] [0%R; 0%R]).
Proof.
  apply (boltzmann_zero_temperature (Boltzmann.mk 0 [0; 0] [0%R; 0%R]) (Draws (1 / 2) 0)).
  - reflexivity.
  - discriminate.
Defined.

Lemma exp_le_compat (x y : R) : (x <= y)%R -> (exp x <= exp y)%R.
Proof.
  intros [Hlt|Heq]; [left; apply exp_increasing, Hlt|right; rewrite Heq; reflexivity].
Qed.

Lemma sumR_le_const (M : R) (l : list R) :
  Forall (fun x => x <= M)%R l -> (sumR l <= IZR (len l) * M)%R.
Proof.
  unfold len. induction 1 as [|x l Hx _ IH].
  - simpl. change (Z.of_nat 0) with 0. lra.
  - cbn [length sumR foldr]. fold (sumR l). rewrite Nat2Z.inj_succ, succ_IZR. lra.
Qed.

Lemma exp_minus_600 : (exp (-600) = exp (-300) / exp 300)%R.
Proof.
  replace (-600)%R with (-300 + Ropp 300)%R by lra.
  rewrite exp_plus, (exp_Ropp 300). reflexivity.
Qed.

(** With every exponent in range, no weight of a softmax over [n]
    entries is below [exp(-600) / n]. *)
Lemma softmax_floor (qs : list R) :
  qs <> [] -> Forall exp_safe qs ->
  Forall (fun w => 0 < exp (-600) / IZR (len qs) <= w)%R (softmax qs).
Proof.
  intros Hne Hsafe. pose proof (sumR_exp_pos qs Hne) as Hz.
  assert (0 < IZR (len qs))%R as Hn.
  { apply IZR_lt. unfold len. destruct qs; [congruence|simpl; lia]. }
  assert (sumR (math_exp <$> qs) <= IZR (len qs) * exp 300)%R as Hzle.
  { replace (len qs) with (len (math_exp <$> qs))
      by (unfold len; rewrite length_fmap; reflexivity).
    apply sumR_le_const, Forall_fmap. eapply list.Forall_impl; [exact Hsafe|].
    intros q [_ Hq]. simpl. unfold math_exp. apply exp_le_compat, Hq. }
  pose proof (exp_pos 300) as H300. pose proof (exp_pos (-300)) as Hm300.
  unfold softmax. cbv zeta. apply Forall_fmap, Forall_fmap.
  eapply list.Forall_impl; [exact Hsafe|]. intros q [Hq _]. simpl.
  assert (exp (-300) <= math_exp q)%R as He by (apply exp_le_compat, Hq).
  rewrite exp_minus_600. split.
  - apply Rdiv_lt_0_compat; [apply Rdiv_lt_0_compat|]; assumption.
  - replace (exp (-300) / exp 300 / IZR (len qs))%R
      with (exp (-300) / (IZR (len qs) * exp 300))%R by (field; lra).
    apply Rle_trans with (exp (-300) / sumR (math_exp <$> qs))%R.
    + apply Rmult_le_compat_l; [lra|]. apply Rinv_le_contravar; assumption.
    + apply Rmult_le_compat_r; [left; apply Rinv_0_lt_compat, Hz|exact He].
Qed.

Lemma boltzmann_weights_softmax (tau : R) (means : list R) :
  boltzmann_weights tau means = softmax ((fun v => v / tau)%R <$> means).
Proof.
  unfold boltzmann_weights, softmax. cbv zeta. rewrite <- !list_fmap_compose. reflexivity.
Qed.

(** X10. The weights both Boltzmann classes compute, for a non-zero
    temperature, at least one arm and every exponent [v / tau] within
    [[-300, 300]]: one weight per arm, summing to 1, none below
    [exp(-600) / n_arms], hence all positive; with a positive
    temperature an arm with a higher mean never gets a smaller weight,
    so equal means get equal weights. *)
Theorem boltzmann_weights_distribution {S} (tau : R) (means : list R) (s : S) :
  tau <> 0%R -> means <> [] -> Forall (fun v => exp_safe (v / tau)) means ->
  exists ws,
    softmax_probs tau means s = Returns ws s /\
    length ws = length means /\
    sumR ws = 1%R /\
    (forall i w, ws !! i = Some w -> (0 < exp (-600) / IZR (len means) <= w)%R) /\
    ((0 < tau)%R ->
     forall i j vi vj wi wj,
       means !! i = Some vi -> means !! j = Some vj ->
       ws !! i = Some wi -> ws !! j = Some wj ->
       (vi <= vj)%R -> (wi <= wj)%R).
Proof.
  intros Htau Hne Hsafe. exists (boltzmann_weights tau means).
  split; [apply softmax_probs_returns, Htau|].
  split; [unfold boltzmann_weights; cbv zeta; apply length_fmap|].
  split; [apply sumR_boltzmann_weights, Hne|].
  split.
  - intros i w Hw. rewrite boltzmann_weights_softmax in Hw.
    assert ((fun v => (v / tau)%R) <$> means <> []) as Hne'
      by (destruct means; [congruence|discriminate]).
    pose proof (softmax_floor _ Hne' ltac:(apply Forall_fmap; exact Hsafe)) as Hfloor.
    pose proof (Forall_lookup_1 _ _ _ _ Hfloor Hw) as Hi. simpl in Hi.
    unfold len in *. rewrite length_fmap in Hi. exact Hi.
  - pose proof (sumR_exp_of_pos (fun v => (v / tau)%R) means Hne) as Hz.
    unfold boltzmann_weights. cbv zeta.
    set (z := sumR ((fun v => math_exp (v / tau)) <$> means)) in *.
    intros Hpos i j vi vj wi wj Hi Hj Hwi Hwj Hle.
    rewrite list_lookup_fmap, Hi in Hwi. rewrite list_lookup_fmap, Hj in Hwj.
    injection Hwi as <-. injection Hwj as <-.
    apply Rmult_le_compat_r; [left; apply Rinv_0_lt_compat, Hz|].
    apply exp_le_compat. apply Rmult_le_compat_r; [left; apply Rinv_0_lt_compat, Hpos|exact Hle].
Qed.

Lemma boltzmann_weights_distribution_witness :
  exists ws,
    softmax_probs (1 / 2) [0%R; 1%R] (Boltzmann.mk (1 / 2) [1; 1] [0%R; 1%R]) =
      Returns ws (Boltzmann.mk (1 / 2) [1; 1] [0%R; 1%R]) /\
    length ws = length [0%R; 1%R] /\
    sumR ws = 1%R /\
    (forall i w, ws !! i = Some w -> (0 < exp (-600) / IZR (len [0%R; 1%R]) <= w)%R) /\
    ((0 < 1 / 2)%R ->
     forall i j vi vj wi wj,
       [0%R; 1%R] !! i = Some vi -> [0%R; 1%R] !! j = Some vj ->
       ws !! i = Some wi -> ws !! j = Some wj ->
       (vi <= vj)%R -> (wi <= wj)%R).
Proof.
  apply (boltzmann_weights_distribution (1 / 2) [0%R; 1%R]
           (Boltzmann.mk (1 / 2) [1; 1] [0%R; 1%R])).
  - lra.
  - discriminate.
  - repeat constructor; unfold within; simpl; lra.
Defined.

(* ================================================================== *)
(** ** Invariants along a trace of updates *)

(** A property that every valid update with an admissible reward
    keeps, holds after any trace of such updates. *)
Lemma updates_invariant (P : strategy -> Prop) (Q : R -> Prop)
    (n_arms : Z) (trace : list (Z * R)) (st : strategy) :
  (forall st a r st',
     wf (Z.to_nat n_arms) st -> P st -> 0 <= a < n_arms -> Q r ->
     update a r st = Returns tt st' -> P st') ->
  wf (Z.to_nat n_arms) st -> P st ->
  Forall (valid n_arms) trace -> Forall (fun ar => Q ar.2) trace ->
  exists st', updates trace st = Returns tt st' /\ wf (Z.to_nat n_arms) st' /\ P st'.
Proof.
  intros Hstep. revert st.
  induction trace as [|[a r] trace IH]; intros st Hwf HP Hval HQ.
  - exists st. split; [reflexivity|]. split; assumption.
  - inversion Hval as [|x l Ha Hval']; subst. unfold valid in Ha. simpl in Ha.
    inversion HQ as [|x l Hr HQ']; subst. simpl in Hr.
    destruct (update_returns (Z.to_nat n_arms) st a r (Z.to_nat a) Hwf) as
      (st1 & c & m & _ & _ & Hup & Hwf1 & _); [apply py_index_nonneg; lia|].
    pose proof (Hstep st a r st1 Hwf HP Ha Hr Hup) as HP1.
    destruct (IH st1 Hwf1 HP1 Hval' HQ') as (st' & Hrun & Hwf' & HP').
    exists st'. split; [|split; assumption].
    unfold updates. cbn [for_each]. step (exact Hup). exact Hrun.
Qed.

(** What a valid update does to a Pursuit object for [n] arms. *)
Lemma Pursuit_update_inv (n : nat) (s : Pursuit.t) (a : Z) (r : R) (st' : strategy) :
  wf n (OfPursuit s) -> 0 <= a < Z.of_nat n ->
  update a r (OfPursuit s) = Returns tt st' ->
  exists c m,
    Pursuit.counts s !! Z.to_nat a = Some c /\ 0 <= c /\
    Pursuit.emp_means s !! Z.to_nat a = Some m /\
    let means' := <[Z.to_nat a:=next_mean c m r]> (Pursuit.emp_means s) in
    st' = OfPursuit
            (Pursuit.mk (Pursuit.lr s) (<[Z.to_nat a:=c + 1]> (Pursuit.counts s)) means'
               (if Req_dec_T (sumR means') 0 then Pursuit.probs s
                else nudged (Pursuit.lr s) (argmax means') 0 (Pursuit.probs s))).
Proof.
  intros Hwf Ha Hup.
  destruct (wf_arm n _ (Z.to_nat a) Hwf) as (c & m & Hc & Hm & Hc0); [lia|].
  destruct Hwf as (Hlc & Hlm & Hpos & Hrest). simpl in *.
  assert (Hidx : py_index n a = Some (Z.to_nat a)) by (apply py_index_nonneg; exact Ha).
  exists c, m. split; [exact Hc|]. split; [exact Hc0|]. split; [exact Hm|].
  apply dispatch_Returns_inv in Hup as (s' & Hup & ->).
  rewrite (Pursuit_update_returns s a r (Z.to_nat a) c m) in Hup
    by (rewrite ?Hlc, ?Hlm; first [assumption|lia]).
  injection Hup as <-. reflexivity.
Qed.

Lemma sumR_all_zero (l : list R) : Forall (fun x => x = 0%R) l -> sumR l = 0%R.
Proof. induction 1 as [|x l Hx _ IH]; simpl; [reflexivity|]. fold (sumR l). rewrite Hx, IH. lra. Qed.

Lemma next_mean_zero (c : Z) : next_mean c 0 0 = 0%R.
Proof. unfold next_mean. unfold Rdiv. ring. Qed.

(** X11. Pursuit without signal: after [reset(n_arms)] and any
    sequence of valid updates whose rewards are all 0, the
    probabilities are still the uniform [1/n_arms] that [reset] set:
    the update of the probabilities is skipped every time. *)
Theorem pursuit_zero_rewards_keep_uniform (s0 : Pursuit.t) (n_arms : Z)
    (trace : list (Z * R)) :
  Forall (valid n_arms) trace -> Forall (fun ar => ar.2 = 0%R) trace ->
  exists st1 st,
    reset n_arms (OfPursuit s0) = Returns tt st1 /\
    updates trace st1 = Returns tt st /\
    probs st = Some ((fun _ => (1 / IZR n_arms)%R) <$> range n_arms).
Proof.
  intros Hval Hzero.
  set (P := fun st =>
    match st with
    | OfPursuit s =>
        Forall (fun x => x = 0%R) (Pursuit.emp_means s) /\
        Pursuit.probs s = (fun _ => (1 / IZR n_arms)%R) <$> range n_arms
    | _ => False
    end).
  destruct (updates_invariant P (fun r => r = 0%R) n_arms trace (fresh n_arms (OfPursuit s0)))
    as (st & Hrun & _ & HP); try assumption.
  - intros st a r st' Hwf HP Ha -> Hup.
    destruct st as [s|s|s|s|s|s|s|s|s]; try contradiction. destruct HP as [Hm0 Hps].
    destruct (Pursuit_update_inv _ s a 0 st' Hwf ltac:(lia) Hup)
      as (c & m & Hc & Hc0 & Hm & ->).
    cbv zeta. simpl.
    pose proof (Forall_lookup_1 _ _ _ _ Hm0 Hm) as Hm'. simpl in Hm'. subst m.
    rewrite next_mean_zero.
    assert (Forall (fun x => x = 0%R) (<[Z.to_nat a:=0%R]> (Pursuit.emp_means s))) as Hm0'
      by (apply Forall_insert; [exact Hm0|reflexivity]).
    split; [exact Hm0'|]. clear Hup.
    destruct (Req_dec_T (sumR (<[Z.to_nat a:=0%R]> (Pursuit.emp_means s))) 0) as [_|E];
      [exact Hps|].
    exfalso. apply E, sumR_all_zero, Hm0'.
  - apply fresh_wf.
  - split; [|reflexivity]. apply Forall_fmap, Forall_true. reflexivity.
  - destruct st as [s|s|s|s|s|s|s|s|s]; try contradiction. destruct HP as [_ Hps].
    exists (fresh n_arms (OfPursuit s0)), (OfPursuit s).
    split; [apply reset_is_fresh|]. split; [exact Hrun|]. simpl. rewrite Hps. reflexivity.
Qed.

Lemma pursuit_zero_rewards_keep_uniform_witness :
  exists st1 st,
    reset 3 (OfPursuit (Pursuit.mk (1 / 10) [] [] [])) = Returns tt st1 /\
    updates [(0, 0%R); (0, 0%R); (2, 0%R)] st1 = Returns tt st /\
    probs st = Some ((fun _ => (1 / IZR 3)%R) <$> range 3).
Proof.
  apply (pursuit_zero_rewards_keep_uniform (Pursuit.mk (1 / 10) [] [] []) 3
           [(0, 0%R); (0, 0%R); (2, 0%R)]).
  - repeat constructor; simpl; lia.
  - repeat constructor.
Defined.

Lemma nudged_unit_interval (lr : R) (best j : nat) (ps : list R) :
  (0 <= lr <= 1)%R ->
  Forall (fun p => 0 <= p <= 1)%R ps ->
  Forall (fun p => 0 <= p <= 1)%R (nudged lr best j ps).
Proof.
  intros Hlr Hps. revert j. induction Hps as [|p ps Hp _ IH]; intros j; simpl; constructor.
  - destruct (j =? best)%nat; nra.
  - apply IH.
Qed.

(** X12. Pursuit with a learning rate in [[0, 1]]: after
    [reset(n_arms)] and any sequence of valid updates, every stored
    probability lies in [[0, 1]]. *)
Theorem pursuit_probabilities_in_unit_interval (s0 : Pursuit.t) (n_arms : Z)
    (trace : list (Z * R)) :
  (0 <= Pursuit.lr s0 <= 1)%R -> Forall (valid n_arms) trace ->
  exists st1 st ps,
    reset n_arms (OfPursuit s0) = Returns tt st1 /\
    updates trace st1 = Returns tt st /\
    probs st = Some ps /\
    Forall (fun p => 0 <= p <= 1)%R ps.
Proof.
  intros Hlr Hval.
  set (P := fun st =>
    match st with
    | OfPursuit s =>
        (0 <= Pursuit.lr s <= 1)%R /\ Forall (fun p => 0 <= p <= 1)%R (Pursuit.probs s)
    | _ => False
    end).
  destruct (updates_invariant P (fun _ => True) n_arms trace (fresh n_arms (OfPursuit s0)))
    as (st & Hrun & _ & HP); try assumption.
  - intros st a r st' Hwf HP Ha _ Hup.
    destruct st as [s|s|s|s|s|s|s|s|s]; try contradiction. destruct HP as [Hl Hps].
    destruct (Pursuit_update_inv _ s a r st' Hwf ltac:(lia) Hup)
      as (c & m & _ & _ & _ & ->).
    clear Hup. cbv zeta. simpl. split; [exact Hl|].
    destruct (Req_dec_T _ _); [exact Hps|]. apply nudged_unit_interval; assumption.
  - apply fresh_wf.
  - split; [exact Hlr|]. simpl. apply Forall_fmap, Forall_lookup_2.
    intros i x Hx. apply lookup_seqZ in Hx as [_ Hi]. simpl.
    assert (1 <= IZR n_arms)%R by (apply IZR_le; lia).
    split.
    + apply Rmult_le_pos; [lra|]. left. apply Rinv_0_lt_compat. lra.
    + unfold Rdiv. rewrite Rmult_1_l. rewrite <- Rinv_1. apply Rinv_le_contravar; lra.
  - apply Forall_true. intros; exact I.
  - destruct st as [s|s|s|s|s|s|s|s|s]; try contradiction. destruct HP as [_ Hps].
    exists (fresh n_arms (OfPursuit s0)), (OfPursuit s), (Pursuit.probs s).
    split; [apply reset_is_fresh|]. split; [exact Hrun|]. split; [reflexivity|exact Hps].
Qed.

Lemma pursuit_probabilities_in_unit_interval_witness :
  exists st1 st ps,
    reset 2 (OfPursuit (Pursuit.mk (1 / 2) [] [] [])) = Returns tt st1 /\
    updates [(0, 1%R); (1, 2%R)] st1 = Returns tt st /\
    probs st = Some ps /\
    Forall (fun p => 0 <= p <= 1)%R ps.
Proof.
  apply (pursuit_probabilities_in_unit_interval (Pursuit.mk (1 / 2) [] [] []) 2
           [(0, 1%R); (1, 2%R)]).
  - simpl. lra.
  - repeat constructor; simpl; lia.
Defined.

(* ================================================================== *)
(** ** The driver's loop within a budget *)

Lemma ReinforcementComparison_update_inv (n : nat) (s : ReinforcementComparison.t)
    (a : Z) (r : R) (st' : strategy) :
  wf n (OfReinforcementComparison s) -> 0 <= a < Z.of_nat n ->
  update a r (OfReinforcementComparison s) = Returns tt st' ->
  exists s',
    st' = OfReinforcementComparison s' /\
    length (ReinforcementComparison.preferences s') = n /\
    ReinforcementComparison.probs s' = softmax (ReinforcementComparison.preferences s').
Proof.
  intros Hwf Ha Hup.
  destruct (wf_arm n _ (Z.to_nat a) Hwf) as (c & m & Hc & Hm & Hc0); [lia|].
  destruct Hwf as (Hlc & Hlm & Hpos & Hlp & Hle). simpl in *.
  assert (Hidx : py_index n a = Some (Z.to_nat a)) by (apply py_index_nonneg; exact Ha).
  destruct (lookup_lt_is_Some_2 (ReinforcementComparison.preferences s) (Z.to_nat a))
    as [p Hp]; [lia|].
  destruct (lookup_lt_is_Some_2 (ReinforcementComparison.exp_rewards s) (Z.to_nat a))
    as [e He]; [lia|].
  apply dispatch_Returns_inv in Hup as (s' & Hup & ->).
  rewrite (ReinforcementComparison_update_returns s a r (Z.to_nat a) c m p e) in Hup
    by (rewrite ?Hlc, ?Hlm, ?Hlp, ?Hle; first [assumption|lia]).
  injection Hup as <-. eexists. split; [reflexivity|]. simpl.
  split; [rewrite length_insert; exact Hlp|reflexivity].
Qed.

Lemma softmax_zeros (n_arms : Z) :
  0 < n_arms ->
  softmax ((fun _ => 0%R) <$> range n_arms) = (fun _ => (1 / IZR n_arms)%R) <$> range n_arms.
Proof.
  intros Hn. unfold softmax. cbv zeta.
  assert (sumR (math_exp <$> ((fun _ : Z => 0%R) <$> range n_arms)) = IZR n_arms) as Hz.
  { rewrite <- list_fmap_compose.
    change (math_exp ∘ (fun _ : Z => 0%R) <$> range n_arms)
      with ((fun _ : Z => math_exp 0) <$> range n_arms).
    rewrite sumR_const. unfold range. rewrite length_seqZ, INR_IZR_INZ, Z2Nat.id by lia.
    unfold math_exp. rewrite exp_0. lra. }
  rewrite Hz. rewrite <- !list_fmap_compose. apply list_fmap_ext. intros i x _. simpl.
  unfold math_exp. rewrite exp_0. reflexivity.
Qed.

Lemma within_Rabs (B x : R) : within B x <-> (Rabs x <= B)%R.
Proof.
  unfold within. split.
  - apply Rabs_le.
  - intros H. pose proof (Rle_abs x). pose proof (Rle_abs (- x)) as H'.
    rewrite Rabs_Ropp in H'. lra.
Qed.

Lemma within_mult (X Y x y : R) :
  within X x -> within Y y -> within (X * Y) (x * y).
Proof.
  rewrite !within_Rabs. intros Hx Hy. rewrite Rabs_mult.
  apply Rmult_le_compat; auto using Rabs_pos.
Qed.

Lemma within_weaken (B B' x : R) : (B <= B')%R -> within B x -> within B' x.
Proof. unfold within. lra. Qed.

Lemma next_mean_within (c : Z) (m r B : R) :
  0 <= c -> within B m -> within B r -> within B (next_mean c m r).
Proof.
  unfold within. intros Hc Hm Hr. unfold next_mean. replace (c + 1 - 1) with c by lia.
  assert (0 <= IZR c)%R by (apply IZR_le; lia).
  rewrite plus_IZR. set (n := IZR c) in *.
  replace (n / (n + 1) * m + 1 / (n + 1) * r)%R with ((n * m + r) / (n + 1))%R
    by (field; lra).
  split.
  - apply Rmult_le_reg_r with (n + 1)%R; [lra|].
    unfold Rdiv. rewrite Rmult_assoc, Rinv_l by lra. nra.
  - apply Rmult_le_reg_r with (n + 1)%R; [lra|].
    unfold Rdiv. rewrite Rmult_assoc, Rinv_l by lra. nra.
Qed.

Lemma ln_le_compat (x y : R) : (0 < x)%R -> (x <= y)%R -> (ln x <= ln y)%R.
Proof.
  intros Hx [Hlt|Heq]; [left; apply ln_increasing; assumption|right; rewrite Heq; reflexivity].
Qed.

Lemma Forall_within_zeros (B : R) (n_arms : Z) :
  (0 <= B)%R -> Forall (within B) ((fun _ : Z => 0%R) <$> range n_arms).
Proof.
  intros HB. apply Forall_fmap, Forall_true. intros x. unfold within. simpl. lra.
Qed.

(** Within its budget, an object hands [math.exp] arguments in range
    only. *)
Lemma in_budget_in_range (n : nat) (B : R) (N : Z) (st : strategy) :
  wf n st -> (0 <= B)%R -> in_budget B N st -> sumZ (counts st) <= N ->
  Forall exp_safe (selection_exponents st) /\ preferences_in_range st.
Proof.
  intros Hwf HB (Hbud & Hmeans & Hrest) HN.
  destruct Hwf as (_ & _ & Hpos & _). apply sumZ_nonneg in Hpos.
  destruct st as [s|s|s|s|s|s|s|s|s]; simpl in *; try (split; [constructor|exact I]).
  - destruct Hbud as [Htau HBt]. split; [|exact I].
    apply Forall_fmap. eapply list.Forall_impl; [exact Hmeans|].
    intros v Hv. simpl. unfold exp_safe. apply within_Rabs. apply within_Rabs in Hv.
    unfold Rdiv. rewrite Rabs_mult, Rabs_inv.
    pose proof (Rabs_pos_lt _ Htau).
    apply Rmult_le_reg_r with (Rabs (Boltzmann.tau s)); [assumption|].
    rewrite Rmult_assoc, Rinv_l by lra. lra.
  - split; [|exact I].
    set (k := sumZ (AnnealingBoltzmann.counts s)) in *.
    assert (1 <= IZR (k + 1))%R by (apply IZR_le; lia).
    assert (IZR (k + 1) <= IZR N + 1)%R by (rewrite plus_IZR; apply IZR_le in HN; lra).
    pose proof eps0_pos.
    assert (0 < ln (IZR (k + 1) + eps0))%R as Hl
      by (rewrite <- ln_1; apply ln_increasing; lra).
    assert (ln (IZR (k + 1) + eps0) <= ln (IZR N + 1 + eps0))%R as HL
      by (apply ln_le_compat; lra).
    apply Forall_fmap. eapply list.Forall_impl; [exact Hmeans|].
    intros v Hv. simpl. unfold exp_safe.
    replace (v / (1 / ln (IZR (k + 1) + eps0)))%R with (v * ln (IZR (k + 1) + eps0))%R
      by (field; lra).
    apply within_weaken with (B * ln (IZR N + 1 + eps0))%R; [exact Hbud|].
    apply within_mult; [exact Hv|]. unfold within. lra.
  - split; [constructor|]. destruct Hbud as [_ Hb]. destruct Hrest as [_ Hp].
    eapply list.Forall_impl; [exact Hp|]. intros p. unfold exp_safe. apply within_weaken.
    set (k := sumZ (ReinforcementComparison.counts s)) in *.
    assert (IZR k <= IZR N)%R by (apply IZR_le; exact HN).
    pose proof (Rabs_pos (ReinforcementComparison.beta s)).
    assert (0 <= 2 * Rabs (ReinforcementComparison.beta s) * B)%R by nra.
    nra.
Qed.

Lemma budget_fresh (B : R) (N : Z) (n_arms : Z) (st : strategy) :
  budget B N (fresh n_arms st) <-> budget B N st.
Proof. destruct st; reflexivity. Qed.

Lemma uniform_unit_interval (n_arms : Z) :
  Forall (fun p => 0 <= p <= 1)%R ((fun _ : Z => (1 / IZR n_arms)%R) <$> range n_arms).
Proof.
  apply Forall_fmap, Forall_lookup_2.
  intros i x Hx. apply lookup_seqZ in Hx as [_ Hi]. simpl.
  assert (1 <= IZR n_arms)%R by (apply IZR_le; lia).
  split.
  - apply Rmult_le_pos; [lra|]. left. apply Rinv_0_lt_compat. lra.
  - unfold Rdiv. rewrite Rmult_1_l. rewrite <- Rinv_1. apply Rinv_le_contravar; lra.
Qed.

Lemma fresh_in_budget (B : R) (N : Z) (n_arms : Z) (st : strategy) :
  (0 <= B)%R -> budget B N st -> in_budget B N (fresh n_arms st).
Proof.
  intros HB Hbud. split; [apply budget_fresh, Hbud|].
  split; [destruct st; apply Forall_within_zeros, HB|].
  destruct st as [s|s|s|s|s|s|s|s|s]; try exact I.
  - apply uniform_unit_interval.
  - split; [apply Forall_within_zeros, HB|]. simpl.
    rewrite sumZ_zeros. apply Forall_within_zeros. lra.
Qed.

(** A valid update with a reward in [[-B, B]] keeps an object within
    its budget. *)
Lemma update_in_budget (n : nat) (B : R) (N : Z) (st : strategy) (a : Z) (r : R) :
  wf n st -> 0 <= a < Z.of_nat n -> (0 <= B)%R -> within B r -> in_budget B N st ->
  exists st',
    update a r st = Returns tt st' /\ wf n st' /\ in_budget B N st' /\
    sumZ (counts st') = sumZ (counts st) + 1.
Proof.
  intros Hwf Ha HB Hr (Hbud & Hmeans & Hrest).
  destruct (update_returns n st a r (Z.to_nat a) Hwf)
    as (st' & c & m & Hc & Hm & Hup & Hwf' & Hcs & Hms);
    [apply py_index_nonneg; exact Ha|].
  assert (0 <= c) as Hc0.
  { destruct Hwf as (_ & _ & Hpos & _). exact (Forall_lookup_1 _ _ _ _ Hpos Hc). }
  assert (Hsum : sumZ (counts st') = sumZ (counts st) + 1)
    by (rewrite Hcs, (sumZ_insert _ _ c) by exact Hc; lia).
  assert (Hmeans' : Forall (within B) (emp_means st')).
  { rewrite Hms. apply Forall_insert; [exact Hmeans|].
    apply next_mean_within; [exact Hc0| |exact Hr].
    exact (Forall_lookup_1 _ _ _ _ Hmeans Hm). }
  exists st'. split; [exact Hup|]. split; [exact Hwf'|]. split; [|exact Hsum].
  clear Hcs Hms.
  destruct st as [s|s|s|s|s|s|s|s|s]; simpl in Hup;
    apply dispatch_Returns_inv in Hup as (s' & Hup & ->);
    (split; [|split; [exact Hmeans'|]]); try exact I; try exact Hbud.
  - pose proof (Boltzmann_update_keeps_tau a r s) as Ht.
    unfold same_on in Ht. rewrite Hup in Ht. simpl in *. rewrite Ht. exact Hbud.
  - pose proof (Pursuit_update_keeps_lr a r s) as Ht.
    unfold same_on in Ht. rewrite Hup in Ht. simpl in *. rewrite Ht. exact Hbud.
  - destruct Hwf as (Hlc & Hlm & Hpos & Hlp). simpl in *.
    assert (Hidx : py_index n a = Some (Z.to_nat a)) by (apply py_index_nonneg; exact Ha).
    rewrite (Pursuit_update_returns s a r (Z.to_nat a) c m) in Hup
      by (rewrite ?Hlc, ?Hlm; first [assumption|lia]).
    injection Hup as <-. cbv zeta. simpl.
    destruct (Req_dec_T _ _); [exact Hrest|]. apply nudged_unit_interval; assumption.
  - pose proof (ReinforcementComparison_update_keeps_alpha_beta a r s) as Ht.
    unfold same_on in Ht. rewrite Hup in Ht. simpl in *. injection Ht as -> ->. exact Hbud.
  - destruct Hwf as (Hlc & Hlm & Hpos & Hlp & Hle). simpl in *.
    destruct Hbud as [Halpha _]. destruct Hrest as [He Hp].
    assert (Hidx : py_index n a = Some (Z.to_nat a)) by (apply py_index_nonneg; exact Ha).
    destruct (lookup_lt_is_Some_2 (ReinforcementComparison.preferences s) (Z.to_nat a))
      as [p Hpa]; [lia|].
    destruct (lookup_lt_is_Some_2 (ReinforcementComparison.exp_rewards s) (Z.to_nat a))
      as [e Hea]; [lia|].
    rewrite (ReinforcementComparison_update_returns s a r (Z.to_nat a) c m p e) in Hup
      by (rewrite ?Hlc, ?Hlm, ?Hlp, ?Hle; first [assumption|lia]).
    injection Hup as <-. simpl in *.
    pose proof (Forall_lookup_1 _ _ _ _ He Hea) as He0.
    pose proof (Forall_lookup_1 _ _ _ _ Hp Hpa) as Hp0. simpl in He0, Hp0.
    set (beta := ReinforcementComparison.beta s) in *.
    set (alpha := ReinforcementComparison.alpha s) in *.
    pose proof (Rabs_pos beta) as Hb0.
    split.
    + apply Forall_insert; [exact He|]. unfold within in *. nra.
    + rewrite Hsum, plus_IZR.
      set (k := IZR (sumZ (ReinforcementComparison.counts s))) in *.
      assert (0 <= k)%R by (apply IZR_le, sumZ_nonneg, Hpos).
      assert (0 <= 2 * Rabs beta * B)%R by nra.
      apply Forall_insert.
      * eapply list.Forall_impl; [exact Hp|]. intros x. apply within_weaken. nra.
      * assert (within (Rabs beta * (2 * B)) (beta * (r - e))) as Hstep.
        { apply within_mult; [apply within_Rabs; lra|]. unfold within in *. lra. }
        unfold within in *. nra.
Qed.

Lemma budget_temperature_ok (B : R) (N : Z) (st : strategy) :
  budget B N st -> temperature_ok st.
Proof. destruct st as [s|s|s|s|s|s|s|s|s]; simpl; try exact (fun _ => I). intros [H _]. exact H. Qed.

(** Within its budget the driver's loop runs to the end. *)
Lemma play_in_budget (n : nat) (B : R) (N : Z) (rounds : list (draws * R)) (st : strategy) :
  (0 < n)%nat -> (0 <= B)%R ->
  wf n st -> selectable st -> in_budget B N st ->
  sumZ (counts st) + len rounds <= N ->
  Forall (fun dr => within B dr.2) rounds ->
  exists arms st',
    play rounds st = Returns arms st' /\
    length arms = length rounds /\
    Forall (fun arm => exists a, arm = Some a /\ 0 <= a < Z.of_nat n) arms /\
    wf n st' /\ in_budget B N st' /\ sumZ (counts st') <= N.
Proof.
  intros Hn HB. revert st.
  induction rounds as [|[d r] rounds IH]; intros st Hwf Hsel Hin HN Hrs.
  - exists [], st. split; [reflexivity|]. split; [reflexivity|].
    split; [constructor|]. split; [exact Hwf|]. split; [exact Hin|].
    unfold len in HN. simpl in HN. lia.
  - inversion Hrs as [|x l Hr Hrs']; subst. simpl in Hr.
    destruct (select_returns_arm n st d Hwf Hsel Hn) as (a & Hselect & Ha).
    destruct (update_in_budget n B N st a r Hwf Ha HB Hr Hin)
      as (st1 & Hup & Hwf1 & Hin1 & Hsum1).
    pose proof (update_keeps_selectable n st st1 a r Hwf Ha Hsel Hup) as Hsel1.
    destruct (IH st1 Hwf1 Hsel1 Hin1) as (arms & st' & Hrun & Hlen & Harms & Hwf' & Hin' & HN');
      [unfold len in *; simpl length in HN; lia|exact Hrs'|].
    exists (Some a :: arms), st'.
    split; [|split; [|split; [|split; [|split]]]]; try assumption.
    + cbn [play]. step (exact Hselect). step (exact Hup). step (exact Hrun). reflexivity.
    + simpl. rewrite Hlen. reflexivity.
    + constructor; [|exact Harms]. exists a. split; [reflexivity|exact Ha].
Qed.

(** X3. The driver's loop within a budget.  For every class, from
    [reset(n_arms)] with [n_arms > 0], with rewards in [[-B, B]] and
    at most [N] rounds such that the class stays clear of the limits
    of doubles ([budget]: [tau] not zero and [B <= 300 * |tau|] for
    Boltzmann, [B * ln(N + 1 + 1e-7) <= 300] for AnnealingBoltzmann,
    [lr] in [[0, 1]] for Pursuit, [alpha] in [[0, 1]] and
    [2 * |beta| * B * N <= 300] for ReinforcementComparison, nothing
    for the other five classes): the loop of [select_next_arm]
    followed by [update] of the returned arm runs to its end without
    an exception, whatever the draws; every arm it selects lies in
    [0 .. n_arms-1]; the object it leaves is within its budget (means
    in [[-B, B]], probabilities of Pursuit in [[0, 1]]) and hands
    [math.exp] arguments within [[-300, 300]] only.  The statement
    applies to every prefix of the rounds as well, so that it covers
    every call of [math.exp] made along the way. *)
Theorem driver_loop_never_fails (n_arms : Z) (st : strategy) (rounds : list (draws * R))
    (B : R) (N : Z) :
  0 < n_arms -> (0 <= B)%R -> len rounds <= N ->
  Forall (fun dr => within B dr.2) rounds -> budget B N st ->
  exists st0 arms st',
    reset n_arms st = Returns tt st0 /\
    play rounds st0 = Returns arms st' /\
    length arms = length rounds /\
    Forall (fun arm => exists a, arm = Some a /\ 0 <= a < n_arms) arms /\
    in_budget B N st' /\
    Forall exp_safe (selection_exponents st') /\ preferences_in_range st'.
Proof.
  intros Hn HB HN Hrs Hbud.
  destruct (play_in_budget (Z.to_nat n_arms) B N rounds (fresh n_arms st))
    as (arms & st' & Hrun & Hlen & Harms & Hwf' & Hin' & HN').
  - lia.
  - exact HB.
  - apply fresh_wf.
  - apply fresh_selectable; [exact Hn|]. apply (budget_temperature_ok B N), Hbud.
  - apply fresh_in_budget; assumption.
  - replace (sumZ (counts (fresh n_arms st))) with 0; [lia|].
    symmetry. destruct st; apply sumZ_zeros.
  - exact Hrs.
  - exists (fresh n_arms st), arms, st'.
    split; [apply reset_is_fresh|]. split; [exact Hrun|]. split; [exact Hlen|].
    split; [rewrite Z2Nat.id in Harms by lia; exact Harms|]. split; [exact Hin'|].
    exact (in_budget_in_range _ B N st' Hwf' HB Hin' HN').
Qed.

Lemma driver_loop_never_fails_witness :
  exists st0 arms st',
    reset 3 (OfBoltzmann (Boltzmann.mk (1 / 2) [] [])) = Returns tt st0 /\
    play [(Draws (1 / 4) 0, 1%R); (Draws (3 / 4) 5, 0%R)] st0 = Returns arms st' /\
    length arms = length [(Draws (1 / 4) 0, 1%R); (Draws (3 / 4) 5, 0%R)] /\
    Forall (fun arm => exists a, arm = Some a /\ 0 <= a < 3) arms /\
    in_budget 1 2 st' /\
    Forall exp_safe (selection_exponents st') /\ preferences_in_range st'.
Proof.
  apply (driver_loop_never_fails 3 (OfBoltzmann (Boltzmann.mk (1 / 2) [] []))
           [(Draws (1 / 4) 0, 1%R); (Draws (3 / 4) 5, 0%R)] 1 2).
  - lia.
  - lra.
  - unfold len. simpl. lia.
  - repeat constructor; unfold within; simpl; lra.
  - simpl. split; [lra|]. rewrite Rabs_pos_eq by lra. lra.
Defined.

(* ================================================================== *)
(** ** The probabilities of ReinforcementComparison within a budget *)

(** X13. ReinforcementComparison within a budget: with [alpha] in
    [[0, 1]], rewards in [[-B, B]] and [2 * |beta| * B * k <= 300] for
    the [k] updates of the trace, after [reset(n_arms)], [n_arms > 0],
    and the valid updates of the trace, all calls have returned, every
    preference lies within [[-300, 300]], the stored probabilities are
    the softmax of the preferences, one per arm, and none of them is
    below [exp(-600) / n_arms]: no arm becomes unselectable. *)
Theorem reinforcement_comparison_probabilities
    (s0 : ReinforcementComparison.t) (n_arms : Z) (trace : list (Z * R)) (B : R) :
  0 < n_arms -> Forall (valid n_arms) trace ->
  (0 <= B)%R -> Forall (fun ar => within B ar.2) trace ->
  budget B (len trace) (OfReinforcementComparison s0) ->
  exists st1 s,
    reset n_arms (OfReinforcementComparison s0) = Returns tt st1 /\
    updates trace st1 = Returns tt (OfReinforcementComparison s) /\
    Forall exp_safe (ReinforcementComparison.preferences s) /\
    ReinforcementComparison.probs s = softmax (ReinforcementComparison.preferences s) /\
    length (ReinforcementComparison.probs s) = Z.to_nat n_arms /\
    Forall (fun p => 0 < exp (-600) / IZR n_arms <= p)%R (ReinforcementComparison.probs s).
Proof.
  intros Hn Hval HB Hrs Hbud.
  set (P := fun st =>
    in_budget B (len trace) st /\
    match st with
    | OfReinforcementComparison s =>
        length (ReinforcementComparison.preferences s) = Z.to_nat n_arms /\
        ReinforcementComparison.probs s = softmax (ReinforcementComparison.preferences s)
    | _ => False
    end).
  destruct (updates_invariant P (within B) n_arms trace
              (fresh n_arms (OfReinforcementComparison s0)))
    as (st & Hrun & Hwf & Hin & HP); try assumption.
  - intros st a r st' Hwf [Hin HP] Ha Hr Hup.
    destruct (update_in_budget _ B (len trace) st a r Hwf ltac:(lia) HB Hr Hin)
      as (st1 & Hup1 & _ & Hin1 & _).
    rewrite Hup in Hup1. injection Hup1 as <-. split; [exact Hin1|].
    destruct st as [s|s|s|s|s|s|s|s|s]; try contradiction.
    destruct (ReinforcementComparison_update_inv _ s a r st' Hwf ltac:(lia) Hup)
      as (s' & -> & Hlen & Hps).
    split; assumption.
  - apply fresh_wf.
  - split; [apply fresh_in_budget; assumption|].
    split; [apply length_zeros|]. simpl. symmetry. apply softmax_zeros, Hn.
  - destruct st as [s|s|s|s|s|s|s|s|s]; try contradiction. destruct HP as [Hlen Hps].
    destruct (updates_total_fresh (OfReinforcementComparison s0) n_arms trace Hval)
      as (st2 & Hrun2 & _ & Hsum & _).
    rewrite Hrun in Hrun2. injection Hrun2 as <-.
    exists (fresh n_arms (OfReinforcementComparison s0)), s.
    assert (Forall exp_safe (ReinforcementComparison.preferences s)) as Hsafe.
    { apply (in_budget_in_range _ B (len trace) (OfReinforcementComparison s) Hwf HB Hin).
      rewrite Hsum. lia. }
    split; [apply reset_is_fresh|]. split; [exact Hrun|]. split; [exact Hsafe|].
    split; [exact Hps|]. rewrite Hps. split.
    + unfold softmax. cbv zeta. rewrite !length_fmap. exact Hlen.
    + replace n_arms with (len (ReinforcementComparison.preferences s))
        by (unfold len; rewrite Hlen; lia).
      apply softmax_floor; [|exact Hsafe].
      intros E. rewrite E in Hlen. simpl in Hlen. lia.
Qed.

Lemma reinforcement_comparison_probabilities_witness :
  exists st1 s,
    reset 2 (OfReinforcementComparison (ReinforcementComparison.mk (1 / 10) (1 / 10) [] [] [] [] []))
      = Returns tt st1 /\
    updates [(0, 1%R); (1, 0%R)] st1 = Returns tt (OfReinforcementComparison s) /\
    Forall exp_safe (ReinforcementComparison.preferences s) /\
    ReinforcementComparison.probs s = softmax (ReinforcementComparison.preferences s) /\
    length (ReinforcementComparison.probs s) = Z.to_nat 2 /\
    Forall (fun p => 0 < exp (-600) / IZR 2 <= p)%R (ReinforcementComparison.probs s).
Proof.
  apply (reinforcement_comparison_probabilities
           (ReinforcementComparison.mk (1 / 10) (1 / 10) [] [] [] [] []) 2
           [(0, 1%R); (1, 0%R)] 1).
  - lia.
  - repeat constructor; simpl; lia.
  - lra.
  - repeat constructor; unfold within; simpl; lra.
  - simpl. split; [lra|]. rewrite Rabs_pos_eq by lra.
    unfold len. change (IZR (Z.of_nat (length [(0, 1%R); (1, 0%R)]))) with 2%R. lra.
Defined.

(* ================================================================== *)
(** ** The confidence values of UCB1 *)

Lemma confidence_bonus_antitone (T c1 c2 : Z) :
  0 <= T -> 0 <= c1 <= c2 -> (confidence_bonus T c2 <= confidence_bonus T c1)%R.
Proof.
  intros HT [H1 H12]. unfold confidence_bonus. apply sqrt_le_1_alt.
  pose proof (log_total_nonneg T HT). pose proof (denominator_pos c1 H1).
  assert (IZR c1 <= IZR c2)%R by (apply IZR_le; lia).
  apply Rmult_le_compat_l; [lra|]. apply Rinv_le_contravar; lra.
Qed.

(** X14. On a UCB1 object for [n] arms, [update] with a valid arm
    returns, and afterwards every stored [ucbs[arm]] is
    [emp_means[arm] + sqrt(2*ln(T+1)/(count[arm]+1e-7))] with [T] the
    sum of all counts; the value is never below the mean, and of two
    arms the one pulled more often has the smaller or equal bonus. *)
Theorem ucb1_confidence_values (n : nat) (s : UCB1.t) (a : Z) (r : R) :
  wf n (OfUCB1 s) -> 0 <= a < Z.of_nat n ->
  exists s',
    UCB1.update a r s = Returns tt s' /\
    (forall arm, (arm < n)%nat ->
       exists c e,
         UCB1.counts s' !! arm = Some c /\
         UCB1.emp_means s' !! arm = Some e /\
         UCB1.ucbs s' !! arm = Some (e + confidence_bonus (sumZ (UCB1.counts s')) c)%R /\
         (e <= e + confidence_bonus (sumZ (UCB1.counts s')) c)%R) /\
    (forall i j ci cj,
       UCB1.counts s' !! i = Some ci -> UCB1.counts s' !! j = Some cj -> ci <= cj ->
       (confidence_bonus (sumZ (UCB1.counts s')) cj
        <= confidence_bonus (sumZ (UCB1.counts s')) ci)%R).
Proof.
  intros Hwf Ha.
  destruct (wf_arm n _ (Z.to_nat a) Hwf) as (c0 & m0 & Hc & Hm & Hc0); [lia|].
  destruct Hwf as (Hlc & Hlm & Hpos & Hlu). simpl in *.
  assert (Hidx : py_index n a = Some (Z.to_nat a)) by (apply py_index_nonneg; exact Ha).
  eexists. split.
  { apply UCB1_update_returns with (k := Z.to_nat a) (c := c0) (m := m0);
      rewrite ?Hlc, ?Hlm; assumption. }
  cbv zeta. simpl.
  set (counts' := <[Z.to_nat a:=c0 + 1]> (UCB1.counts s)).
  set (means' := <[Z.to_nat a:=next_mean c0 m0 r]> (UCB1.emp_means s)).
  assert (Forall (fun c => 0 <= c) counts') as Hpos'
    by (apply Forall_insert; [assumption|lia]).
  split.
  - intros arm Harm.
    destruct (lookup_lt_is_Some_2 counts' arm) as [c Hc'];
      [subst counts'; rewrite length_insert; lia|].
    destruct (lookup_lt_is_Some_2 means' arm) as [e He'];
      [subst means'; rewrite length_insert; lia|].
    exists c, e. split; [exact Hc'|]. split; [exact He'|]. split.
    + unfold zip_add. apply lookup_zip_with_Some.
      exists e, (confidence_bonus (sumZ counts') c). split; [reflexivity|].
      split; [exact He'|]. rewrite list_lookup_fmap, Hc'. reflexivity.
    + pose proof (sqrt_pos (2 * ln (IZR (sumZ counts' + 1)) / (IZR c + eps0))) as H.
      unfold confidence_bonus. lra.
  - intros i j ci cj Hi Hj Hle. apply confidence_bonus_antitone.
    + apply sumZ_nonneg, Hpos'.
    + split; [|exact Hle]. eapply Forall_lookup_1 in Hpos'; [|exact Hi]. exact Hpos'.
Qed.

Lemma ucb1_confidence_values_witness :
  exists s',
    UCB1.update 1 1 (UCB1.mk [1; 0] [0%R; 0%R] [0%R; 0%R]) = Returns tt s' /\
    (forall arm, (arm < 2)%nat ->
       exists c e,
         UCB1.counts s' !! arm = Some c /\
         UCB1.emp_means s' !! arm = Some e /\
         UCB1.ucbs s' !! arm = Some (e + confidence_bonus (sumZ (UCB1.counts s')) c)%R /\
         (e <= e + confidence_bonus (sumZ (UCB1.counts s')) c)%R) /\
    (forall i j ci cj,
       UCB1.counts s' !! i = Some ci -> UCB1.counts s' !! j = Some cj -> ci <= cj ->
       (confidence_bonus (sumZ (UCB1.counts s')) cj
        <= confidence_bonus (sumZ (UCB1.counts s')) ci)%R).
Proof.
  apply (ucb1_confidence_values 2 (UCB1.mk [1; 0] [0%R; 0%R] [0%R; 0%R]) 1 1).
  - unfold wf. simpl. repeat split; repeat constructor; lia.
  - lia.
Defined.

(* ================================================================== *)
(** ** An object without arms *)

Lemma range_nonpos (n_arms : Z) : n_arms <= 0 -> range n_arms = [].
Proof.
  intros Hn. unfold range, seqZ. replace (Z.to_nat n_arms) with 0%nat by lia. reflexivity.
Qed.

(** X15. [reset(n_arms)] with [n_arms <= 0] returns (the division
    [1/n_arms] is never evaluated) and leaves an object without arms,
    on which nothing works: for every class and every draw
    [select_next_arm] raises [ValueError] or [IndexError], and
    [update] raises [IndexError] for every index; both leave the
    object as it is. *)
Theorem no_arms_no_service (n_arms : Z) (st : strategy) (d : draws) (a : Z) (r : R) :
  n_arms <= 0 ->
  exists st0,
    reset n_arms st = Returns tt st0 /\
    counts st0 = [] /\ emp_means st0 = [] /\
    (exists e, select_next_arm d st0 = Raises e st0 /\ (e = ValueError \/ e = IndexError)) /\
    update a r st0 = Raises IndexError st0.
Proof.
  intros Hn. exists (fresh n_arms st). split; [apply reset_is_fresh|].
  assert (Hfresh : fresh n_arms st = fresh 0 st).
  { unfold fresh. rewrite (range_nonpos n_arms Hn). destruct st; reflexivity. }
  rewrite Hfresh.
  split; [destruct st; reflexivity|]. split; [destruct st; reflexivity|]. split.
  - destruct st as [s|s|s|s|s|s|s|s|s]; unfold select_next_arm.
    + change (fresh 0 (OfRandom s)) with (OfRandom (Random.mk [] [])).
      exists ValueError. split; [|left; reflexivity]. apply dispatch_raises. reflexivity.
    + change (fresh 0 (OfEpsilonGreedy s))
        with (OfEpsilonGreedy (EpsilonGreedy.mk (EpsilonGreedy.epsilon s) [] [])).
      exists ValueError. split; [|left; reflexivity]. apply dispatch_raises, bind_raises.
      unfold EpsilonGreedy.select_next_arm. step reflexivity.
      destruct (Rgt_dec _ _); reflexivity.
    + change (fresh 0 (OfAnnealingEpsilonGreedy s))
        with (OfAnnealingEpsilonGreedy (AnnealingEpsilonGreedy.mk [] [])).
      exists ValueError. split; [|left; reflexivity]. apply dispatch_raises, bind_raises.
      unfold AnnealingEpsilonGreedy.select_next_arm.
      destruct (annealed_returns AnnealingEpsilonGreedy.f_counts
                  (AnnealingEpsilonGreedy.mk [] [])) as [Hann _]; [simpl; lia|].
      step (exact Hann). destruct (Rgt_dec _ _); reflexivity.
    + change (fresh 0 (OfBoltzmann s)) with (OfBoltzmann (Boltzmann.mk (Boltzmann.tau s) [] [])).
      exists IndexError. split; [|right; reflexivity]. apply dispatch_raises. reflexivity.
    + change (fresh 0 (OfAnnealingBoltzmann s))
        with (OfAnnealingBoltzmann (AnnealingBoltzmann.mk [] [])).
      exists IndexError. split; [|right; reflexivity]. apply dispatch_raises, bind_raises.
      unfold AnnealingBoltzmann.select_next_arm.
      destruct (annealed_returns AnnealingBoltzmann.f_counts
                  (AnnealingBoltzmann.mk [] [])) as [Hann _]; [simpl; lia|].
      step (exact Hann). reflexivity.
    + change (fresh 0 (OfPursuit s)) with (OfPursuit (Pursuit.mk (Pursuit.lr s) [] [] [])).
      exists IndexError. split; [|right; reflexivity]. apply dispatch_raises. reflexivity.
    + change (fresh 0 (OfReinforcementComparison s))
        with (OfReinforcementComparison
                (ReinforcementComparison.mk (ReinforcementComparison.alpha s)
                   (ReinforcementComparison.beta s) [] [] [] [] [])).
      exists IndexError. split; [|right; reflexivity]. apply dispatch_raises. reflexivity.
    + change (fresh 0 (OfUCB1 s)) with (OfUCB1 (UCB1.mk [] [] [])).
      exists ValueError. split; [|left; reflexivity]. apply dispatch_raises. reflexivity.
    + change (fresh 0 (OfUCB1Tuned s)) with (OfUCB1Tuned (UCB1Tuned.mk [] [] [] [])).
      exists ValueError. split; [|left; reflexivity]. apply dispatch_raises. reflexivity.
  - apply update_index_error.
    replace (counts (fresh 0 st)) with (@nil Z) by (destruct st; reflexivity).
    apply py_index_out_of_range. simpl. lia.
Qed.

Lemma no_arms_no_service_witness :
  exists st0,
    reset 0 (OfPursuit (Pursuit.mk (1 / 2) [] [] [])) = Returns tt st0 /\
    counts st0 = [] /\ emp_means st0 = [] /\
    (exists e, select_next_arm (Draws 0 0) st0 = Raises e st0 /\
               (e = ValueError \/ e = IndexError)) /\
    update 0 1 st0 = Raises IndexError st0.
Proof.
  apply (no_arms_no_service 0 (OfPursuit (Pursuit.mk (1 / 2) [] [] [])) (Draws 0 0) 0 1).
  lia.
Defined.

(* ================================================================== *)
(** ** The first pass of the UCB classes, for any number of arms *)

(** X16. For UCB1 and UCB1Tuned and any number of arms: after
    [reset(n_arms)], the first [n_arms] rounds of [select_next_arm]
    followed by [update] of the returned arm visit the arms
    [0, 1, ..., n_arms-1] in index order, whatever the rewards. *)
Theorem ucb_first_pass_visits_all_arms (st : strategy) (d : draws) (rewards : list R) :
  is_ucb st = true ->
  exists st0 st',
    reset (len rewards) st = Returns tt st0 /\
    drive d rewards st0 = Returns (Some <$> range (len rewards)) st'.
Proof.
  intros Hucb.
  assert (is_ucb (fresh (len rewards) st) = true) as Hucb0
    by (destruct st; try discriminate; reflexivity).
  destruct (drive_warm_up d (Z.to_nat (len rewards)) rewards 0 (fresh (len rewards) st) Hucb0)
    as (st' & Hrun).
  - apply fresh_wf.
  - assert (counts (fresh (len rewards) st) = (fun _ => 0) <$> range (len rewards)) as ->
      by (destruct st; reflexivity).
    simpl. rewrite (const_fmap _ _ 0) by reflexivity.
    unfold range, len. rewrite length_seqZ, Nat2Z.id. reflexivity.
  - exists (fresh (len rewards) st), st'. split; [apply reset_is_fresh|exact Hrun].
Qed.

Lemma ucb_first_pass_visits_all_arms_witness :
  exists st0 st',
    reset (len [1%R; 0%R; 2%R]) (OfUCB1 (UCB1.mk [] [] [])) = Returns tt st0 /\
    drive (Draws 0 0) [1%R; 0%R; 2%R] st0 = Returns (Some <$> range (len [1%R; 0%R; 2%R])) st'.
Proof.
  apply (ucb_first_pass_visits_all_arms (OfUCB1 (UCB1.mk [] [] [])) (Draws 0 0)
           [1%R; 0%R; 2%R]).
  reflexivity.
Defined.

(* ================================================================== *)
(** ** The probability update of Pursuit, as the code performs it *)

Lemma lookup_nudged (lr : R) (best j : nat) (ps : list R) (i : nat) (p : R) :
  ps !! i = Some p ->
  nudged lr best j ps !! i =
    Some (if (j + i =? best)%nat then p + lr * (1 - p) else p + lr * (0 - p))%R.
Proof.
  revert j i. induction ps as [|q ps IH]; intros j i Hi; [discriminate|].
  destruct i as [|i]; simpl in *.
  - injection Hi as ->. rewrite Nat.add_0_r. reflexivity.
  - rewrite (IH (Datatypes.S j) i Hi).
    replace (Datatypes.S j + i)%nat with (j + Datatypes.S i)%nat by lia. reflexivity.
Qed.

(** X17. What [Pursuit.update] does to the probabilities, on an object
    for [n] arms and a valid arm: it returns; if the updated means sum
    to exactly 0 the probabilities are untouched; otherwise the arm
    [np.argmax] answers for the updated means moves to
    [p + lr*(1 - p)] and every other arm to [p + lr*(0 - p)], so with
    [0 <= lr <= 1] and probabilities in [[0, 1]] the best arm never
    loses and no other arm ever gains. *)
Theorem pursuit_update_probabilities (n : nat) (s : Pursuit.t) (a : Z) (r : R) :
  wf n (OfPursuit s) -> 0 <= a < Z.of_nat n ->
  exists s',
    Pursuit.update a r s = Returns tt s' /\
    Pursuit.lr s' = Pursuit.lr s /\
    (sumR (Pursuit.emp_means s') = 0%R -> Pursuit.probs s' = Pursuit.probs s) /\
    (sumR (Pursuit.emp_means s') <> 0%R ->
     forall i p, Pursuit.probs s !! i = Some p ->
       Pursuit.probs s' !! i =
         Some (if (i =? argmax (Pursuit.emp_means s'))%nat
               then p + Pursuit.lr s * (1 - p) else p + Pursuit.lr s * (0 - p))%R /\
       ((0 <= Pursuit.lr s <= 1)%R -> (0 <= p <= 1)%R ->
        forall p', Pursuit.probs s' !! i = Some p' ->
          if (i =? argmax (Pursuit.emp_means s'))%nat then (p <= p')%R else (p' <= p)%R)).
Proof.
  intros Hwf Ha.
  destruct (wf_arm n _ (Z.to_nat a) Hwf) as (c & m & Hc & Hm & Hc0); [lia|].
  destruct Hwf as (Hlc & Hlm & Hpos & Hrest). simpl in *.
  assert (Hidx : py_index n a = Some (Z.to_nat a)) by (apply py_index_nonneg; exact Ha).
  eexists. split.
  { apply Pursuit_update_returns with (k := Z.to_nat a) (c := c) (m := m);
      rewrite ?Hlc, ?Hlm; first [assumption|lia]. }
  cbv zeta. simpl.
  set (means' := <[Z.to_nat a:=next_mean c m r]> (Pursuit.emp_means s)).
  split; [reflexivity|].
  destruct (Req_dec_T (sumR means') 0) as [E|E].
  - split; [reflexivity|]. intros H. contradiction.
  - split; [intros H; contradiction|]. intros _ i p Hp.
    pose proof (lookup_nudged (Pursuit.lr s) (argmax means') 0 _ i p Hp) as Hl.
    simpl in Hl. split; [exact Hl|].
    intros Hlr Hp01 p' Hp'. rewrite Hl in Hp'. injection Hp' as <-.
    destruct (i =? argmax means')%nat; nra.
Qed.

Lemma pursuit_update_probabilities_witness :
  exists s',
    Pursuit.update 0 1 (Pursuit.mk (1 / 2) [0; 0] [0%R; 0%R] [(1 / 2)%R; (1 / 2)%R])
      = Returns tt s' /\
    Pursuit.lr s' = (1 / 2)%R /\
    (sumR (Pursuit.emp_means s') = 0%R -> Pursuit.probs s' = [(1 / 2)%R; (1 / 2)%R]) /\
    (sumR (Pursuit.emp_means s') <> 0%R ->
     forall i p, [(1 / 2)%R; (1 / 2)%R] !! i = Some p ->
       Pursuit.probs s' !! i =
         Some (if (i =? argmax (Pursuit.emp_means s'))%nat
               then p + 1 / 2 * (1 - p) else p + 1 / 2 * (0 - p))%R /\
       ((0 <= 1 / 2 <= 1)%R -> (0 <= p <= 1)%R ->
        forall p', Pursuit.probs s' !! i = Some p' ->
          if (i =? argmax (Pursuit.emp_means s'))%nat then (p <= p')%R else (p' <= p)%R)).
Proof.
  apply (pursuit_update_probabilities 2
           (Pursuit.mk (1 / 2) [0; 0] [0%R; 0%R] [(1 / 2)%R; (1 / 2)%R]) 0 1).
  - unfold wf. simpl. repeat split; repeat constructor; lia.
  - lia.
Defined.

(* ================================================================== *)
(** ** UCB1Tuned never explores more than UCB1 *)

Lemma tuned_bonus_bounds (T c : Z) (m2 : R) :
  0 <= T -> 0 <= c -> (0 <= m2)%R ->
  (0 <= tuned_bonus T c m2 <= confidence_bonus T c)%R.
Proof.
  intros HT Hc Hm. unfold tuned_bonus, confidence_bonus.
  split; [apply sqrt_pos|]. apply sqrt_le_1_alt.
  pose proof (log_total_nonneg T HT) as Hl. pose proof (denominator_pos c Hc) as Hd.
  pose proof (capped_variance_nonneg T c m2 Hc Hm) as H0.
  assert (capped_variance T c m2 <= 1 / 4)%R as H1 by (unfold capped_variance; apply Rmin_l).
  assert (0 <= ln (IZR (T + 1)) / (IZR c + eps0))%R as Hq.
  { apply Rmult_le_pos; [exact Hl|]. left. apply Rinv_0_lt_compat, Hd. }
  replace (2 * ln (IZR (T + 1)) / (IZR c + eps0))%R
    with (ln (IZR (T + 1)) / (IZR c + eps0) * 2)%R by (unfold Rdiv; ring).
  apply Rmult_le_compat_l; [exact Hq|lra].
Qed.

(** X18. On a UCB1Tuned object for [n] arms, after [update] with a
    valid arm every stored [ucbs[arm]] lies between [emp_means[arm]]
    and the value UCB1 stores for the same counts and means,
    [emp_means[arm] + sqrt(2*ln(T+1)/(count[arm]+1e-7))]: the variance
    cap makes the tuned bonus the smaller one. *)
Theorem tuned_between_mean_and_ucb1 (n : nat) (s : UCB1Tuned.t) (a : Z) (r : R) :
  wf n (OfUCB1Tuned s) -> 0 <= a < Z.of_nat n ->
  exists s',
    UCB1Tuned.update a r s = Returns tt s' /\
    forall arm, (arm < n)%nat ->
      exists c e u,
        UCB1Tuned.counts s' !! arm = Some c /\
        UCB1Tuned.emp_means s' !! arm = Some e /\
        UCB1Tuned.ucbs s' !! arm = Some u /\
        (e <= u <= e + confidence_bonus (sumZ (UCB1Tuned.counts s')) c)%R.
Proof.
  intros Hwf Ha.
  destruct (wf_arm n _ (Z.to_nat a) Hwf) as (c0 & m0 & Hc & Hm & Hc0); [lia|].
  destruct Hwf as (Hlc & Hlm & Hpos & Hl2 & Hlu & Hm2s). simpl in *.
  destruct (lookup_lt_is_Some_2 (UCB1Tuned.M2 s) (Z.to_nat a)) as [q Hq]; [lia|].
  assert (Hidx : py_index n a = Some (Z.to_nat a)) by (apply py_index_nonneg; exact Ha).
  eexists. split.
  { apply UCB1Tuned_update_returns with (k := Z.to_nat a) (c := c0) (m := m0) (m2 := q);
      rewrite ?Hlc, ?Hlm, ?Hl2; first [assumption|reflexivity]. }
  cbv zeta. simpl. intros arm Harm.
  set (counts' := <[Z.to_nat a:=c0 + 1]> (UCB1Tuned.counts s)).
  set (means' := <[Z.to_nat a:=next_mean c0 m0 r]> (UCB1Tuned.emp_means s)).
  set (M2' := <[Z.to_nat a:=(q + (r - m0) * (r - next_mean c0 m0 r))%R]> (UCB1Tuned.M2 s)).
  assert (Forall (fun c => 0 <= c) counts') as Hpos'
    by (apply Forall_insert; [assumption|lia]).
  assert (Forall (fun m => 0 <= m)%R M2') as Hm2s'.
  { apply Forall_insert; [assumption|].
    pose proof (M2_increment_nonneg c0 m0 r Hc0).
    assert (0 <= q)%R by (eapply Forall_lookup_1 in Hm2s; eauto). lra. }
  destruct (lookup_lt_is_Some_2 counts' arm) as [c Hc']; [subst counts'; rewrite length_insert; lia|].
  destruct (lookup_lt_is_Some_2 means' arm) as [e He']; [subst means'; rewrite length_insert; lia|].
  destruct (lookup_lt_is_Some_2 M2' arm) as [m2 Hm2']; [subst M2'; rewrite length_insert; lia|].
  exists c, e, (e + tuned_bonus (sumZ counts') c m2)%R.
  split; [exact Hc'|]. split; [exact He'|]. split.
  - unfold zip_add. apply lookup_zip_with_Some.
    exists e, (tuned_bonus (sumZ counts') c m2). split; [reflexivity|]. split; [exact He'|].
    apply lookup_zip_with_Some. exists c, m2. split; [reflexivity|]. split; assumption.
  - pose proof (tuned_bonus_bounds (sumZ counts') c m2) as Hb.
    assert (0 <= c) by (eapply Forall_lookup_1 in Hpos'; eauto).
    assert (0 <= m2)%R by (eapply Forall_lookup_1 in Hm2s'; eauto).
    specialize (Hb (sumZ_nonneg _ Hpos') ltac:(assumption) ltac:(assumption)). lra.
Qed.

Lemma tuned_between_mean_and_ucb1_witness :
  exists s',
    UCB1Tuned.update 1 1 (UCB1Tuned.mk [1; 0] [0%R; 0%R] [0%R; 0%R] [0%R; 0%R]) = Returns tt s' /\
    forall arm, (arm < 2)%nat ->
      exists c e u,
        UCB1Tuned.counts s' !! arm = Some c /\
        UCB1Tuned.emp_means s' !! arm = Some e /\
        UCB1Tuned.ucbs s' !! arm = Some u /\
        (e <= u <= e + confidence_bonus (sumZ (UCB1Tuned.counts s')) c)%R.
Proof.
  apply (tuned_between_mean_and_ucb1 2
           (UCB1Tuned.mk [1; 0] [0%R; 0%R] [0%R; 0%R] [0%R; 0%R]) 1 1).
  - unfold wf. simpl. repeat split; try reflexivity.
    + repeat constructor; lia.
    + repeat constructor; lra.
  - lia.
Defined.
